(** * Kitsune: a shallow embedding of the detection engine

    The Go sources modelled here are the engine of package [kitsune]
    (the file kitsune.go: FingerprintURL, runImpliesEngine,
    BuildEfficientMatcher, collectDataFromDOM), its matchers
    (matchHeaders ... matchCertIssuer, runAllMatchers), the normalizer
    of package [pipeline] (normalizePatternValue,
    cleanWappalyzerPatternAST) and the version evaluator of package
    [profiler] (ParsedPattern.extractVersion, evaluateVersionExpression).

    Conventions.
    - Go strings are byte strings: Rocq [string] (8-bit [ascii]).
    - A Go map that the code updates by key is a [gmap]; a Go map that
      the code only ranges over is the list of its entries in one
      iteration order.
    - Standard-library services that the code calls but that are not
      part of the repository (regexp compilation and matching, the HTML
      parser, CSS selector queries, DNS and HTTP) are parameters of the
      Sections below. *)

From Stdlib Require Import Ascii.
From Stdlib Require String.
From stdpp Require Import base gmap strings list fin_maps.

(* ------------------------------------------------------------------ *)
(** ** Data model *)

(** [type ConfidenceLevel int] with the iota constants. *)
Inductive ConfidenceLevel := ConfidenceLow | ConfidenceMedium | ConfidenceHigh.

Definition confidence_val (c : ConfidenceLevel) : nat :=
  match c with
  | ConfidenceLow => 0
  | ConfidenceMedium => 1
  | ConfidenceHigh => 2
  end.

(** [c1 < c2] on the underlying ints. *)
Definition conf_lt (c1 c2 : ConfidenceLevel) : bool :=
  Nat.ltb (confidence_val c1) (confidence_val c2).

Record Detection := {
  Version : string;
  DetectedBy : string;
  MatchedPattern : string;
  MatchedValue : string;
  Confidence : ConfidenceLevel
}.

(** pipeline.ParsedPattern: [Commands map[string]string]. *)
Record ParsedPattern := {
  Regex : string;
  Commands : gmap string string
}.

(** pipeline.Fingerprint (the fields read by the engine). *)
Record Fingerprint := {
  CSS : list ParsedPattern;
  Cookies : list (string * ParsedPattern);
  JS : list (string * ParsedPattern);
  Headers : list (string * ParsedPattern);
  HTML : list ParsedPattern;
  Script : list ParsedPattern;
  ScriptSrc : list ParsedPattern;
  Meta : list (string * list ParsedPattern);
  Implies : list string;
  URL : list ParsedPattern;
  Robots : list ParsedPattern;
  DOM : list ParsedPattern;
  DNS : list (string * ParsedPattern);
  CertIssuer : list (string * ParsedPattern)
}.

(* ------------------------------------------------------------------ *)
(** ** The implies engine (Kitsune.runImpliesEngine) *)

Module Implies.
Local Open Scope string_scope.

(** The loop state: [queue], [processed] (the Go [map[string]bool],
    kept as the list of names set to true, most recent first) and the
    shared [detected] map. *)
Record state := {
  queue : list string;
  processed : list string;
  detected : gmap string Detection
}.

Definition implied_detection (techName : string) : Detection := {|
  Version := "";
  DetectedBy := String.append "implies from: " techName;
  MatchedPattern := "";
  MatchedValue := "";
  Confidence := ConfidenceMedium
|}.

(** [for _, impliedTech := range app.Implies { ... }] *)
Fixpoint add_implied (techName : string) (us : list string)
    (q : list string) (d : gmap string Detection)
    : list string * gmap string Detection :=
  match us with
  | [] => (q, d)
  | u :: us' =>
      match d !! u with
      | Some _ => add_implied techName us' q d
      | None => add_implied techName us' (q ++ [u])
                  (<[u := implied_detection techName]> d)
      end
  end.

(** One iteration of [for len(queue) > 0 { ... }]; [None] when the
    queue is empty and the loop exits. *)
Definition step (apps : gmap string Fingerprint) (s : state) : option state :=
  match queue s with
  | [] => None
  | techName :: q =>
      if bool_decide (techName ∈ processed s)
      then Some {| queue := q; processed := processed s; detected := detected s |}
      else
        let pr := techName :: processed s in
        match detected s !! techName with
        | None => Some {| queue := q; processed := pr; detected := detected s |}
        | Some src =>
            if conf_lt (Confidence src) ConfidenceHigh
            then Some {| queue := q; processed := pr; detected := detected s |}
            else match apps !! techName with
                 | None => Some {| queue := q; processed := pr; detected := detected s |}
                 | Some app =>
                     let '(q', d') := add_implied techName (Implies app) q (detected s) in
                     Some {| queue := q'; processed := pr; detected := d' |}
                 end
        end
  end.

Fixpoint loop (apps : gmap string Fingerprint) (fuel : nat) (s : state) : option state :=
  match fuel with
  | 0 => None
  | S f => match step apps s with
           | None => Some s
           | Some s' => loop apps f s'
           end
  end.

(** Every name that can ever be added: the implies lists of all apps. *)
Definition implied_names (apps : gmap string Fingerprint) : list string :=
  remove_dups (concat (map (fun p => Implies (snd p)) (map_to_list apps))).

Definition undetected (apps : gmap string Fingerprint) (d : gmap string Detection) : nat :=
  length (filter (fun u => d !! u = None) (implied_names apps)).

(** A bound on the number of iterations: each one pops the queue, and
    each name pushed is a name of [implied_names] that was undetected. *)
Definition measure (apps : gmap string Fingerprint) (s : state) : nat :=
  length (queue s) + 2 * undetected apps (detected s).

(** [runImpliesEngine]: [seed] is the order in which
    [for tech := range detected] visits the keys. *)
Definition runImpliesEngine (apps : gmap string Fingerprint) (seed : list string)
    (d : gmap string Detection) : option state :=
  let s0 := {| queue := seed; processed := []; detected := d |} in
  loop apps (S (measure apps s0)) s0.

(** The invariant of the whole run from the seed map [d0]: the seed
    entries are kept, and every other entry was added by a
    High-confidence seed entry whose implies list names it. *)
Definition seed_inv (apps : gmap string Fingerprint) (d0 : gmap string Detection) (s : state) : Prop :=
  (∀ k x, d0 !! k = Some x → detected s !! k = Some x) ∧
  (∀ k x, detected s !! k = Some x → d0 !! k = None →
     ∃ t src app, d0 !! t = Some src ∧ Confidence src = ConfidenceHigh ∧
       apps !! t = Some app ∧ k ∈ Implies app ∧ x = implied_detection t).

(** An app whose only non-empty field is its implies list. *)
Definition fp_implies (l : list string) : Fingerprint := {|
  CSS := []; Cookies := []; JS := []; Headers := []; HTML := []; Script := [];
  ScriptSrc := []; Meta := []; Implies := l; URL := []; Robots := []; DOM := [];
  DNS := []; CertIssuer := [] |}.

Definition det (by_ : string) (c : ConfidenceLevel) : Detection := {|
  Version := ""; DetectedBy := by_; MatchedPattern := ""; MatchedValue := "";
  Confidence := c |}.

End Implies.

(* ------------------------------------------------------------------ *)
(** ** Strings *)

Module Str.
Local Open Scope string_scope.

(** Lowering of the ASCII letters only.  It agrees with Go's
    strings.ToLower on ASCII input (Go's fast path), not on other runes. *)
Definition lower_ascii (c : ascii) : ascii :=
  let n := nat_of_ascii c in
  if (65 <=? n)%nat && (n <=? 90)%nat then ascii_of_nat (n + 32) else c.

Fixpoint to_lower (s : string) : string :=
  match s with
  | EmptyString => EmptyString
  | String c s' => String (lower_ascii c) (to_lower s')
  end.

(** strings.Join *)
Fixpoint join (sep : string) (l : list string) : string :=
  match l with
  | [] => ""
  | [x] => x
  | x :: l' => String.append x (String.append sep (join sep l'))
  end.

(** The string of the given bytes. *)
Definition of_bytes (l : list nat) : string :=
  fold_right (fun n s => String (ascii_of_nat n) s) EmptyString l.

(** The UTF-8 encodings of the runes unicode.IsSpace accepts: the ASCII
    spaces \t \n \v \f \r and ' ', U+0085, U+00A0, and the other
    White_Space runes U+1680, U+2000 to U+200A, U+2028, U+2029, U+202F,
    U+205F and U+3000. *)
Definition space_encodings : list string :=
  map of_bytes
    ([[9]; [10]; [11]; [12]; [13]; [32]; [194; 133]; [194; 160]; [225; 154; 128]] ++
     map (fun k => [226; 128; 128 + k]) (seq 0 11) ++
     [[226; 128; 168]; [226; 128; 169]; [226; 128; 175]; [226; 129; 159]; [227; 128; 128]])%list.

(** Dropping, while one of [ps] is a prefix of the text, that prefix.
    Every [ps] is non-empty, so [String.length s] steps suffice. *)
Fixpoint strip_fuel (fuel : nat) (ps : list string) (s : string) : string :=
  match fuel with
  | O => s
  | S f =>
      match List.find (fun p => String.prefix p s) ps with
      | Some p => strip_fuel f ps (String.substring (String.length p) (String.length s) s)
      | None => s
      end
  end.

Definition trim_left (s : string) : string :=
  strip_fuel (String.length s) space_encodings s.

Fixpoint rev_str (s : string) (acc : string) : string :=
  match s with
  | EmptyString => acc
  | String c s' => rev_str s' (String c acc)
  end.

(** strings.TrimSpace: TrimFunc(s, unicode.IsSpace) (its ASCII fast path
    gives the same result).  On the left, utf8.DecodeRuneInString yields a
    space rune exactly when the text starts with that rune's encoding
    (an invalid byte decodes to RuneError, not a space); on the right,
    utf8.DecodeLastRuneInString yields one exactly when the text ends with
    its encoding.  So the right end is trimmed by stripping the reversed
    encodings from the reversed text. *)
Definition trim_space (s : string) : string :=
  let l := trim_left s in
  rev_str (strip_fuel (String.length l) (map (fun p => rev_str p EmptyString) space_encodings)
             (rev_str l EmptyString)) EmptyString.

(** Go's [a + b] on strings. *)
Fixpoint concat_all (l : list string) : string :=
  match l with
  | [] => ""
  | x :: l' => String.append x (concat_all l')
  end.

End Str.

(* ------------------------------------------------------------------ *)
(** ** The parsed document (golang.org/x/net/html nodes) *)

Module Dom.
Local Open Scope string_scope.

(** The node kinds that matter to goquery's Find/Text/Contents; the
    document itself is the list of the children of the DocumentNode. *)
#[warnings="-register-all"]
Inductive Node :=
  | ElementNode (tag : string) (attrs : list (string * string)) (children : list Node)
  | TextNode (data : string)
  | CommentNode (data : string)
  | DoctypeNode (data : string).

Definition Doc := list Node.

(** The element nodes of a subtree in document order (pre-order), as
    goquery's Find visits them. *)
Fixpoint node_elements (n : Node) : list Node :=
  match n with
  | ElementNode _ _ cs =>
      n :: (fix go (cs : list Node) : list Node :=
              match cs with [] => [] | c :: cs' => List.app (node_elements c) (go cs') end) cs
  | _ => []
  end.

Definition doc_elements (doc : Doc) : list Node := concat (map node_elements doc).

(** Selection.Text(): the data of all descendant text nodes. *)
Fixpoint node_text (n : Node) : string :=
  match n with
  | TextNode s => s
  | ElementNode _ _ cs =>
      (fix go (cs : list Node) : string :=
         match cs with [] => "" | c :: cs' => String.append (node_text c) (go cs') end) cs
  | _ => ""
  end.

Definition tag_of (n : Node) : string :=
  match n with ElementNode t _ _ => t | _ => "" end.

Definition attrs_of (n : Node) : list (string * string) :=
  match n with ElementNode _ a _ => a | _ => [] end.

Definition children_of (n : Node) : list Node :=
  match n with ElementNode _ _ cs => cs | _ => [] end.

(** Selection.Attr(name): the first attribute with that key. *)
Fixpoint attr (name : string) (a : list (string * string)) : option string :=
  match a with
  | [] => None
  | (k, v) :: a' => if String.eqb k name then Some v else attr name a'
  end.

Definition has_attr (name : string) (n : Node) : bool :=
  match attr name (attrs_of n) with Some _ => true | None => false end.

Definition is_tag (t : string) (n : Node) : bool := String.eqb (tag_of n) t.

(** doc.Find(sel) for the selectors used by collectDataFromDOM. *)
Definition find (p : Node → bool) (doc : Doc) : list Node := filter (fun n => p n = true) (doc_elements doc).

(** goquery.NodeName(n) == "#text" *)
Definition is_text (n : Node) : bool := match n with TextNode _ => true | _ => false end.

(** Induction over nodes with the hypothesis on every child. *)
Fixpoint Node_ind' (P : Node → Prop)
    (Hel : ∀ t a cs, Forall P cs → P (ElementNode t a cs))
    (Htx : ∀ s, P (TextNode s)) (Hcm : ∀ s, P (CommentNode s)) (Hdt : ∀ s, P (DoctypeNode s))
    (n : Node) : P n :=
  match n with
  | ElementNode t a cs =>
      Hel t a cs ((fix go (cs : list Node) : Forall P cs :=
                     match cs with
                     | [] => @List.Forall_nil Node P
                     | c :: cs' => @List.Forall_cons Node P c cs' (Node_ind' P Hel Htx Hcm Hdt c) (go cs')
                     end) cs)
  | TextNode s => Htx s
  | CommentNode s => Hcm s
  | DoctypeNode s => Hdt s
  end.

(** Document edits used to state what each extraction reads. *)

(** Rewrite the data of every comment. *)
Fixpoint edit_comments (f : string → string) (n : Node) : Node :=
  match n with
  | ElementNode t a cs => ElementNode t a (map (edit_comments f) cs)
  | CommentNode s => CommentNode (f s)
  | _ => n
  end.

(** Rewrite every text node that is not inside a <script> element. *)
Fixpoint edit_outside_scripts (f : string → string) (n : Node) : Node :=
  match n with
  | ElementNode t a cs =>
      if String.eqb t "script" then n else ElementNode t a (map (edit_outside_scripts f) cs)
  | TextNode s => TextNode (f s)
  | _ => n
  end.

Definition is_raw_text_tag (t : string) : bool := String.eqb t "script" || String.eqb t "style".

(** Rewrite the text children of every <script> and <style> element. *)
Fixpoint edit_raw_text (f : string → string) (n : Node) : Node :=
  match n with
  | ElementNode t a cs =>
      ElementNode t a (map (fun c => match c with
                                     | TextNode s => if is_raw_text_tag t then TextNode (f s) else c
                                     | _ => edit_raw_text f c
                                     end) cs)
  | _ => n
  end.

End Dom.

(* ------------------------------------------------------------------ *)
(** ** The analysis engine (package kitsune) *)

Module Engine.
Local Open Scope string_scope.
Local Open Scope list_scope.
Import Dom.

(** http.Header, a map ranged over by the matchers: its entries. *)
Definition Header := list (string * list string).

Record PageData := {
  ScriptSrcs : list string;
  MetaContent : gmap string (list string);
  InlineScripts : list string;
  InlineCSS : list string;
  VisibleText : string;
  Title : string;
  RawBody : string;
  GoQueryDoc : option Doc
}.

(** Fingerprint.CertIssuer, which the field of AnalysisData below shadows. *)
Definition FingerprintCertIssuer (f : Fingerprint) := CertIssuer f.

Record AnalysisData := {
  TargetURL : string;
  MainResponse : option Header;           (* nil or the response's Header *)
  RobotsContent : option string;          (* nil or the bytes read *)
  DNSRecords : option (gmap string (list string));
  CertIssuer : string;
  Body : option string;
  PageData_ : option PageData
}.

Record PatternInfo {Regexp : Type} := {
  Pattern : Regexp;
  AppName : string;
  PCommands : gmap string string
}.
Arguments PatternInfo : clear implicits.

Record EfficientMatcher {Regexp : Type} := {
  HTMLPatterns : list (PatternInfo Regexp);
  ScriptSrcPatterns : list (PatternInfo Regexp);
  HeaderPatterns : gmap string (list (PatternInfo Regexp));
  CookiePatterns : gmap string (list (PatternInfo Regexp));
  MetaPatterns : gmap string (list (PatternInfo Regexp));
  ScriptPatterns : list (PatternInfo Regexp);
  JSPatterns : gmap string (list (PatternInfo Regexp));
  CSSPatterns : list (PatternInfo Regexp);
  URLPatterns : list (PatternInfo Regexp);
  RobotsPatterns : list (PatternInfo Regexp);
  DOMPatterns : list (PatternInfo Regexp);
  DNSPatterns : gmap string (list (PatternInfo Regexp));
  CertIssuerPatterns : gmap string (list (PatternInfo Regexp))
}.
Arguments EfficientMatcher : clear implicits.

Section DomExtraction.
(** goquery.NewDocumentFromReader: the HTML parser. *)
Variable html_parse : string → option Doc.

Definition script_srcs (doc : Doc) : list string :=
  fold_left (fun acc n => match attr "src" (attrs_of n) with
                          | Some src => acc ++ [src] | None => acc end)
    (find (fun n => is_tag "script" n && has_attr "src" n) doc) [].

Definition inline_scripts (doc : Doc) : list string :=
  map node_text (find (fun n => is_tag "script" n && negb (has_attr "src" n)) doc).

Definition inline_css (doc : Doc) : list string :=
  map node_text (find (is_tag "style") doc).

Definition meta_name (n : Node) : option string :=
  match attr "name" (attrs_of n) with
  | Some v => Some v
  | None => match attr "Name" (attrs_of n) with
            | Some v => Some v
            | None => attr "NAME" (attrs_of n)
            end
  end.

Definition meta_content (n : Node) : option string :=
  match attr "content" (attrs_of n) with
  | Some v => Some v
  | None => attr "Content" (attrs_of n)
  end.

Definition add_meta (m : gmap string (list string)) (n : Node) : gmap string (list string) :=
  match meta_name n, meta_content n with
  | Some name, Some content => <[name := default [] (m !! name) ++ [content]]> m
  | _, _ => m
  end.

Definition meta_map (doc : Doc) : gmap string (list string) :=
  fold_left add_meta (find (is_tag "meta") doc) ∅.

Definition title (doc : Doc) : string :=
  match find (is_tag "title") doc with n :: _ => node_text n | [] => "" end.

(** The direct text children of every <body>, concatenated. *)
Definition visible_text (doc : Doc) : string :=
  Str.concat_all
    (concat (map (fun b => map node_text (filter (fun n => is_text n = true) (children_of b)))
                 (find (is_tag "body") doc))).

(** The [PageData] built from a parsed document. *)
Definition page_data (body : string) (doc : Doc) : PageData := {|
  ScriptSrcs := script_srcs doc; MetaContent := meta_map doc;
  InlineScripts := inline_scripts doc; InlineCSS := inline_css doc;
  VisibleText := visible_text doc; Title := title doc; RawBody := body;
  GoQueryDoc := Some doc |}.

Definition collectDataFromDOM (body : string) : PageData :=
  match html_parse body with
  | None => {| ScriptSrcs := []; MetaContent := ∅; InlineScripts := []; InlineCSS := [];
               VisibleText := ""; Title := ""; RawBody := body; GoQueryDoc := None |}
  | Some doc => page_data body doc
  end.

End DomExtraction.

Section Matchers.
(** strings.ToLower: Go maps every rune through unicode.ToLower (the
    Unicode simple lowercase mapping), so it is not ASCII-only; it is
    left abstract, and nothing below depends on how it lowers. *)
Variable ToLower : string → string.
(** regexp.Regexp and the library calls made on it. *)
Variable Regexp : Type.
Variable regexp_compile : string → option Regexp.        (* regexp.Compile *)
Variable regexp_string : Regexp → string.                (* Regexp.String *)
(** matchWithTimeout: [None] for nil (no match or timeout), otherwise
    the full match and the capture groups (submatches[0], [1:]). *)
Variable match_with_timeout : Regexp → string → option (string * list string).
(** extractVersion(commands, submatches) *)
Variable extract_version : gmap string string → list string → string.
(** http.ParseSetCookie: [Some (Name, Value)] when err == nil. *)
Variable parse_set_cookie : string → option (string * string).
(** jsPropertyExtractor.FindAllStringSubmatch(script, -1) *)
Variable js_property_matches : string → list (list string).
(** doc.Find(selector).Length() > 0 *)
Variable dom_find : Doc → string → bool.


Definition mk_detection (pi : PatternInfo Regexp) (sm : string * list string) (by_ : string)
    (c : ConfidenceLevel) : Detection := {|
  Version := extract_version (PCommands pi) (sm.1 :: sm.2);
  DetectedBy := by_;
  MatchedPattern := regexp_string (Pattern pi);
  MatchedValue := sm.1;
  Confidence := c
|}.

(** [for _, v := range inputs { if sm := match(pi, v); sm != nil {
    detected[pi.AppName] = ...; break } }] *)
Fixpoint first_input (pi : PatternInfo Regexp) (by_ : string) (c : ConfidenceLevel)
    (inputs : list string) (d : (gmap string Detection)) : (gmap string Detection) :=
  match inputs with
  | [] => d
  | v :: vs => match match_with_timeout (Pattern pi) v with
               | Some sm => <[AppName pi := mk_detection pi sm by_ c]> d
               | None => first_input pi by_ c vs d
               end
  end.

(** [for _, pi := range patterns { if sm := match(pi, v); sm != nil {
    detected[pi.AppName] = ...; break } }] *)
Fixpoint first_pattern (pats : list (PatternInfo Regexp)) (by_ : string) (c : ConfidenceLevel)
    (v : string) (d : (gmap string Detection)) : (gmap string Detection) :=
  match pats with
  | [] => d
  | pi :: ps => match match_with_timeout (Pattern pi) v with
                | Some sm => <[AppName pi := mk_detection pi sm by_ c]> d
                | None => first_pattern ps by_ c v d
                end
  end.

(** [for _, pi := range patterns { if sm := match(pi, v); sm != nil {
    detected[pi.AppName] = ... } }] (no break) *)
Definition every_pattern (pats : list (PatternInfo Regexp)) (by_ : string) (c : ConfidenceLevel)
    (v : string) (d : (gmap string Detection)) : (gmap string Detection) :=
  fold_left (fun d pi => match match_with_timeout (Pattern pi) v with
                         | Some sm => <[AppName pi := mk_detection pi sm by_ c]> d
                         | None => d
                         end) pats d.

Definition matchHeaders (m : EfficientMatcher Regexp) (headers : Header) (d : (gmap string Detection)) :=
  fold_left (fun d '(headerKey, values) =>
      match HeaderPatterns m !! ToLower headerKey with
      | None => d
      | Some patterns =>
          fold_left (fun d pi => first_input pi ("header:" +:+ headerKey) ConfidenceHigh values d)
            patterns d
      end) headers d.

(** headers["Set-Cookie"] *)
Fixpoint header_values (key : string) (h : Header) : list string :=
  match h with
  | [] => []
  | (k, vs) :: h' => if String.eqb k key then vs else header_values key h'
  end.

Definition parsed_cookies (h : Header) : gmap string string :=
  fold_left (fun pc raw => match parse_set_cookie raw with
                           | Some (name, value) =>
                               if String.eqb name "" then pc
                               else <[ToLower (Str.trim_space name) := value]> pc
                           | None => pc
                           end) (header_values "Set-Cookie" h) ∅.

Definition matchCookies (m : EfficientMatcher Regexp) (headers : Header) (d : (gmap string Detection)) :=
  fold_left (fun d '(cookieKey, value) =>
      match CookiePatterns m !! cookieKey with
      | None => d
      | Some patterns => first_pattern patterns ("cookie:" +:+ cookieKey) ConfidenceHigh value d
      end) (map_to_list (parsed_cookies headers)) d.

Definition matchScriptSrc (m : EfficientMatcher Regexp) (pd : PageData) (d : (gmap string Detection)) :=
  fold_left (fun d pi => first_input pi "scriptSrc" ConfidenceHigh (ScriptSrcs pd) d)
    (ScriptSrcPatterns m) d.

Definition matchMeta (m : EfficientMatcher Regexp) (pd : PageData) (d : (gmap string Detection)) :=
  fold_left (fun d '(metaKey, contents) =>
      match MetaPatterns m !! ToLower metaKey with
      | None => d
      | Some patterns =>
          fold_left (fun d pi => first_input pi ("meta:" +:+ metaKey) ConfidenceMedium contents d)
            patterns d
      end) (map_to_list (MetaContent pd)) d.

Definition matchScript (m : EfficientMatcher Regexp) (pd : PageData) (d : (gmap string Detection)) :=
  fold_left (fun d pi => match d !! AppName pi with
                         | Some _ => d
                         | None => first_input pi "script" ConfidenceMedium (InlineScripts pd) d
                         end) (ScriptPatterns m) d.

Definition matchHTML (m : EfficientMatcher Regexp) (pd : PageData) (d : (gmap string Detection)) :=
  fold_left (fun d pi => match d !! AppName pi with
                         | Some _ => d
                         | None => match match_with_timeout (Pattern pi) (VisibleText pd) with
                                   | Some sm => <[AppName pi := mk_detection pi sm "html" ConfidenceLow]> d
                                   | None => d
                                   end
                         end) (HTMLPatterns m) d.

(** The first non-empty capture among match[2:]. *)
Fixpoint first_nonempty (l : list string) : string :=
  match l with
  | [] => ""
  | s :: l' => if String.eqb s "" then first_nonempty l' else s
  end.

Definition js_assignment (d : (gmap string Detection)) (m : EfficientMatcher Regexp) (mt : list string) :=
  if Nat.ltb (length mt) 3 then d else
  let jsKey := nth 1 mt "" in
  let value := first_nonempty (drop 2 mt) in
  if String.eqb value "" then d else
  match JSPatterns m !! jsKey with
  | Some patterns => first_pattern patterns ("js:" +:+ jsKey) ConfidenceHigh value d
  | None => d
  end.

Definition matchJS (m : EfficientMatcher Regexp) (pd : PageData) (d : (gmap string Detection)) :=
  if decide (JSPatterns m = ∅) then d else
  fold_left (fun d script => fold_left (fun d mt => js_assignment d m mt)
                               (js_property_matches script) d) (InlineScripts pd) d.

Definition matchCSS (m : EfficientMatcher Regexp) (pd : PageData) (d : (gmap string Detection)) :=
  fold_left (fun d cssBlock =>
      fold_left (fun d pi => match d !! AppName pi with
                             | Some _ => d
                             | None => match match_with_timeout (Pattern pi) cssBlock with
                                       | Some sm => <[AppName pi := mk_detection pi sm "css" ConfidenceMedium]> d
                                       | None => d
                                       end
                             end) (CSSPatterns m) d) (InlineCSS pd) d.

Definition matchURL (m : EfficientMatcher Regexp) (data : AnalysisData) (d : (gmap string Detection)) :=
  every_pattern (URLPatterns m) "url" ConfidenceMedium (TargetURL data) d.

Definition matchRobots (m : EfficientMatcher Regexp) (data : AnalysisData) (d : (gmap string Detection)) :=
  match RobotsContent data with
  | None => d
  | Some rc => every_pattern (RobotsPatterns m) "robots" ConfidenceMedium rc d
  end.

Definition dom_detection (selector : string) : Detection := {|
  Version := ""; DetectedBy := "dom"; MatchedPattern := selector;
  MatchedValue := "CSS selector matched"; Confidence := ConfidenceLow |}.

Definition matchDOM (m : EfficientMatcher Regexp) (data : AnalysisData) (d : (gmap string Detection)) :=
  match PageData_ data with
  | None => d
  | Some pd =>
      match GoQueryDoc pd with
      | None => d
      | Some doc =>
          fold_left (fun d pi => let selector := regexp_string (Pattern pi) in
                                 if dom_find doc selector
                                 then <[AppName pi := dom_detection selector]> d else d)
            (DOMPatterns m) d
      end
  end.

Definition matchDNS (m : EfficientMatcher Regexp) (data : AnalysisData) (d : (gmap string Detection)) :=
  match DNSRecords data with
  | None => d
  | Some recs =>
      fold_left (fun d '(recordType, patterns) =>
          match recs !! recordType with
          | Some records =>
              fold_left (fun d pi => first_input pi ("dns:" +:+ recordType) ConfidenceHigh records d)
                patterns d
          | None => d
          end) (map_to_list (DNSPatterns m)) d
  end.

Definition matchCertIssuer (m : EfficientMatcher Regexp) (data : AnalysisData) (d : (gmap string Detection)) :=
  if String.eqb (CertIssuer data) "" then d else
  fold_left (fun d '(_, patterns) => every_pattern patterns "certIssuer" ConfidenceHigh (CertIssuer data) d)
    (map_to_list (CertIssuerPatterns m)) d.

Definition runAllMatchers (m : EfficientMatcher Regexp) (data : AnalysisData) (d : (gmap string Detection)) :=
  let d := matchURL m data d in
  let d := matchRobots m data d in
  let d := matchDNS m data d in
  let d := matchCertIssuer m data d in
  let d := match MainResponse data with
           | Some h => matchCookies m h (matchHeaders m h d)
           | None => d
           end in
  match PageData_ data with
  | Some pd =>
      let d := matchScriptSrc m pd d in
      let d := matchMeta m pd d in
      let d := matchScript m pd d in
      let d := matchHTML m pd d in
      let d := matchJS m pd d in
      let d := matchCSS m pd d in
      matchDOM m data d
  | None => d
  end.

(** *** BuildEfficientMatcher *)

Definition pattern_info (re : Regexp) (appName : string) (pat : ParsedPattern) : PatternInfo Regexp :=
  {| Pattern := re; AppName := appName; PCommands := Commands pat |}.

(** [regexp.Compile("(?i)" + pat.Regex)] *)
Definition compile_i (pat : ParsedPattern) : option Regexp :=
  regexp_compile ("(?i)" +:+ Regex pat).

(** Appending to a slice field. *)
Definition add_list (appName : string) (pats : list ParsedPattern) (acc : list (PatternInfo Regexp)) : list (PatternInfo Regexp) :=
  fold_left (fun acc pat => match compile_i pat with
                            | Some re => acc ++ [pattern_info re appName pat]
                            | None => acc
                            end) pats acc.

(** [matcher.F[key'] = append(matcher.F[key'], ...)] with [key' = norm key]. *)
Definition push (key : string) (pi : PatternInfo Regexp) (acc : gmap string (list (PatternInfo Regexp))) : gmap string (list (PatternInfo Regexp)) :=
  <[key := default [] (acc !! key) ++ [pi]]> acc.

Definition add_keyed (norm : string → string) (appName : string)
    (pats : list (string * ParsedPattern)) (acc : gmap string (list (PatternInfo Regexp))) :=
  fold_left (fun acc '(key, pat) => match compile_i pat with
                                    | Some re => push (norm key) (pattern_info re appName pat) acc
                                    | None => acc
                                    end) pats acc.

Definition add_meta_patterns (appName : string) (metas : list (string * list ParsedPattern))
    (acc : gmap string (list (PatternInfo Regexp))) :=
  fold_left (fun acc '(meta, pats) =>
      fold_left (fun acc pat => match compile_i pat with
                                | Some re => push (ToLower meta) (pattern_info re appName pat) acc
                                | None => acc
                                end) pats acc) metas acc.

Definition domTagDenylist : list string :=
  ["a"; "body"; "div"; "span"; "p"; "script"; "style";
   "link"; "head"; "title"; "footer"; "header"; "main"].

(** strings.ContainsAny(selector, ".#[") *)
Definition has_specificity (selector : string) : bool :=
  existsb (fun c => orb (Ascii.eqb c "."%char) (orb (Ascii.eqb c "#"%char) (Ascii.eqb c "["%char)))
    (String.list_ascii_of_string selector).

Definition add_dom (appName : string) (pats : list ParsedPattern) (acc : list (PatternInfo Regexp)) : list (PatternInfo Regexp) :=
  fold_left (fun acc pat =>
      let selector := Regex pat in
      if existsb (String.eqb selector) domTagDenylist then acc
      else if negb (has_specificity selector) then acc
      else match regexp_compile selector with
           | Some re => acc ++ [pattern_info re appName pat]
           | None => acc
           end) pats acc.

Definition build_app (m : EfficientMatcher Regexp) (entry : string * Fingerprint) : EfficientMatcher Regexp :=
  let '(appName, af) := entry in {|
  HTMLPatterns := add_list appName (HTML af) (HTMLPatterns m);
  ScriptSrcPatterns := add_list appName (ScriptSrc af) (ScriptSrcPatterns m);
  HeaderPatterns := add_keyed ToLower appName (Headers af) (HeaderPatterns m);
  CookiePatterns := add_keyed ToLower appName (Cookies af) (CookiePatterns m);
  MetaPatterns := add_meta_patterns appName (Meta af) (MetaPatterns m);
  ScriptPatterns := add_list appName (Script af) (ScriptPatterns m);
  JSPatterns := add_keyed (fun k => k) appName (JS af) (JSPatterns m);
  CSSPatterns := add_list appName (CSS af) (CSSPatterns m);
  URLPatterns := add_list appName (URL af) (URLPatterns m);
  RobotsPatterns := add_list appName (Robots af) (RobotsPatterns m);
  DOMPatterns := add_dom appName (DOM af) (DOMPatterns m);
  DNSPatterns := add_keyed (fun k => k) appName (DNS af) (DNSPatterns m);
  CertIssuerPatterns := add_keyed (fun k => k) appName (FingerprintCertIssuer af) (CertIssuerPatterns m)
|}.

Definition empty_matcher : EfficientMatcher Regexp := {|
  HTMLPatterns := []; ScriptSrcPatterns := []; HeaderPatterns := ∅; CookiePatterns := ∅;
  MetaPatterns := ∅; ScriptPatterns := []; JSPatterns := ∅; CSSPatterns := [];
  URLPatterns := []; RobotsPatterns := []; DOMPatterns := []; DNSPatterns := ∅;
  CertIssuerPatterns := ∅ |}.

(** [for appName, af := range k.apps { ... }] *)
Definition BuildEfficientMatcher (apps : gmap string Fingerprint) : EfficientMatcher Regexp :=
  fold_left build_app (map_to_list apps) empty_matcher.

End Matchers.

End Engine.

(* ------------------------------------------------------------------ *)
(** ** Kitsune.FingerprintURL *)

Module Analysis.
Import Engine.
Local Open Scope string_scope.
Local Open Scope list_scope.

Record fetchResult (Error : Type) := { kind : string; err : option Error }.
Arguments kind {Error}.
Arguments err {Error}.
Arguments Build_fetchResult {Error}.

Record AnalysisError (Error : Type) := {
  MainPageErr : option Error;
  RobotsErr : option Error;
  DNSErr : option Error
}.
Arguments MainPageErr {Error}.
Arguments RobotsErr {Error}.
Arguments DNSErr {Error}.
Arguments Build_AnalysisError {Error}.

Section Fetch.
(** strings.ToLower, as in the matchers. *)
Variable ToLower : string → string.
(** The error values and their %v rendering. *)
Variable Error : Type.
Variable error_string : Error → string.

(** net/http: a response's status, header, and body as read by
    io.ReadAll under the size limit ([None] when the read fails). *)
Record Response := { StatusCode : nat; RespHeader : Header; RespBody : option string }.

(** httpClient.Get *)
Variable http_get : string → Error + Response.
(** url.Parse, URL.Hostname, and the URL with Path "/robots.txt" as String(). *)
Variable URLT : Type.
Variable url_parse : string → Error + URLT.
Variable hostname : URLT → string.
Variable robots_url : URLT → string.
(** net.LookupTXT and net.LookupMX (the MX hosts), with their errors. *)
Variable lookup_txt : string → list string * option Error.
Variable lookup_mx : string → list string * option Error.
(** k.certInfoCache.Load *)
Variable cert_cache : string → option string.
(** The analysis after the fetches: matchers, then the implies engine. *)
Variable Regexp : Type.
Variable regexp_string : Regexp → string.
Variable match_with_timeout : Regexp → string → option (string * list string).
Variable extract_version : gmap string string → list string → string.
Variable parse_set_cookie : string → option (string * string).
Variable js_property_matches : string → list (list string).
Variable dom_find : Dom.Doc → string → bool.
Variable html_parse : string → option Dom.Doc.
Variable apps : gmap string Fingerprint.
Variable matcher : EfficientMatcher Regexp.

(** Goroutine 1: the main page.  It sets MainResponse and Body. *)
Definition main_task (targetUrl : string) : fetchResult Error * option Header * option string :=
  match http_get targetUrl with
  | inl e => (Build_fetchResult "main" (Some e), None, None)
  | inr resp => (Build_fetchResult "main" None, Some (RespHeader resp), RespBody resp)
  end.

(** Goroutine 2: robots.txt.  Only a failed parse or Get is an error; a
    status other than 200 leaves RobotsContent nil. *)
Definition robots_task (targetUrl : string) : fetchResult Error * option string :=
  match url_parse targetUrl with
  | inl e => (Build_fetchResult "robots" (Some e), None)
  | inr u =>
      match http_get (robots_url u) with
      | inl e => (Build_fetchResult "robots" (Some e), None)
      | inr resp => (Build_fetchResult "robots" None,
                     if Nat.eqb (StatusCode resp) 200 then RespBody resp else None)
      end
  end.

(** Goroutine 3: DNS.  An error when the parse fails, or when both
    lookups fail (the TXT error is reported). *)
Definition dns_task (targetUrl : string) : fetchResult Error * gmap string (list string) :=
  match url_parse targetUrl with
  | inl e => (Build_fetchResult "dns" (Some e), ∅)
  | inr u =>
      let '(txtRecords, txtErr) := lookup_txt (hostname u) in
      let '(mxStr, mxErr) := lookup_mx (hostname u) in
      (Build_fetchResult "dns" (match txtErr, mxErr with Some e, Some _ => Some e | _, _ => None end),
       <["MX" := mxStr]> (<["TXT" := txtRecords]> ∅))
  end.

(** What the three goroutines send on errChan, in program order; they
    arrive in any order. *)
Definition sent (targetUrl : string) : list (fetchResult Error) :=
  [(main_task targetUrl).1.1; (robots_task targetUrl).1; (dns_task targetUrl).1].

(** [for res := range errChan { if res.err != nil { switch res.kind ... } }] *)
Definition aggregate (received : list (fetchResult Error)) : AnalysisError Error :=
  fold_left (fun e res =>
      match err res with
      | None => e
      | Some x =>
          if String.eqb (kind res) "main" then
            Build_AnalysisError (Some x) (RobotsErr e) (DNSErr e)
          else if String.eqb (kind res) "robots" then
            Build_AnalysisError (MainPageErr e) (Some x) (DNSErr e)
          else if String.eqb (kind res) "dns" then
            Build_AnalysisError (MainPageErr e) (RobotsErr e) (Some x)
          else e
      end) received (Build_AnalysisError None None None).

Definition IsFatal (e : AnalysisError Error) : bool :=
  match MainPageErr e, DNSErr e with
  | None, None => false
  | _, _ => true
  end.

(** The Error method of AnalysisError. *)
Definition AnalysisError_Error (e : AnalysisError Error) : string :=
  let errs :=
    match MainPageErr e with Some x => ["main page fetch failed: " +:+ error_string x] | None => [] end ++
    match DNSErr e with Some x => ["dns lookup failed: " +:+ error_string x] | None => [] end ++
    match RobotsErr e with Some x => ["robots.txt fetch failed: " +:+ error_string x] | None => [] end in
  match errs with
  | [] => ""
  | _ => "analysis failed: " +:+ Str.join "; " errs
  end.

(** The AnalysisData filled by the goroutines and the cert-issuer lookup. *)
Definition analysis_data (targetUrl : string) : AnalysisData := {|
  TargetURL := targetUrl;
  MainResponse := (main_task targetUrl).1.2;
  RobotsContent := (robots_task targetUrl).2;
  DNSRecords := Some (dns_task targetUrl).2;
  CertIssuer := match url_parse targetUrl with
                | inr u => default "" (cert_cache (hostname u))
                | inl _ => ""
                end;
  Body := (main_task targetUrl).2;
  PageData_ := match (main_task targetUrl).2 with
               | Some body => Some (collectDataFromDOM html_parse body)
               | None => None
               end
|}.

(** runAllMatchers on an empty map, then runImpliesEngine seeded with
    the detected names (its loop always finishes, see ImpliesProofs). *)
Definition detect (targetUrl : string) : gmap string Detection :=
  let detected := runAllMatchers ToLower Regexp regexp_string match_with_timeout extract_version
                    parse_set_cookie js_property_matches dom_find matcher
                    (analysis_data targetUrl) ∅ in
  match Implies.runImpliesEngine apps (map fst (map_to_list detected)) detected with
  | Some s => Implies.detected s
  | None => detected
  end.

(** FingerprintURL, for the order [received] in which errChan delivered
    the three results.  [None] is the nil map, and the second component
    is the returned error. *)
Definition FingerprintURL (targetUrl : string) (received : list (fetchResult Error))
    : option (gmap string Detection) * option (AnalysisError Error) :=
  let analysisErr := aggregate received in
  if IsFatal analysisErr then (None, Some analysisErr)
  else
    let detected := detect targetUrl in
    match RobotsErr analysisErr with
    | Some _ => (Some detected, Some analysisErr)
    | None => (Some detected, None)
    end.

End Fetch.
End Analysis.

(* ------------------------------------------------------------------ *)
(** ** The legacy Fingerprint method *)

Module Legacy.
Import Engine.
Local Open Scope string_scope.

Section Legacy.
Variable ToLower : string → string.
Variable Regexp : Type.
Variable regexp_string : Regexp → string.
Variable match_with_timeout : Regexp → string → option (string * list string).
Variable extract_version : gmap string string → list string → string.
Variable parse_set_cookie : string → option (string * string).
Variable js_property_matches : string → list (list string).
Variable dom_find : Dom.Doc → string → bool.
Variable html_parse : string → option Dom.Doc.
Variable matcher : EfficientMatcher Regexp.

(** (k *Kitsune) Fingerprint(headers, body), for a non-nil body: the
    matchers on a partial AnalysisData (the other fields keep their zero
    values), without the implies engine. *)
Definition Fingerprint (headers : Header) (body : string) : gmap string Detection * PageData :=
  let pageData := collectDataFromDOM html_parse body in
  let analysisData := {| TargetURL := ""; MainResponse := Some headers; RobotsContent := None;
                         DNSRecords := None; CertIssuer := ""; Body := Some body;
                         PageData_ := Some pageData |} in
  (runAllMatchers ToLower Regexp regexp_string match_with_timeout extract_version parse_set_cookie
     js_property_matches dom_find matcher analysisData ∅, pageData).
End Legacy.
End Legacy.

(* ------------------------------------------------------------------ *)
(** ** Version extraction *)

Module Version.
Local Open Scope string_scope.
Local Open Scope list_scope.

(** strings.Contains with a one-byte needle. *)
Fixpoint contains_char (c : ascii) (s : string) : bool :=
  match s with
  | EmptyString => false
  | String c' s' => Ascii.eqb c c' || contains_char c s'
  end.

(** strings.Split with a one-byte separator: n separators give n+1 parts. *)
Fixpoint split_on (c : ascii) (s : string) : list string :=
  match s with
  | EmptyString => [EmptyString]
  | String c' s' =>
      if Ascii.eqb c c' then EmptyString :: split_on c s'
      else match split_on c s' with
           | p :: ps => String c' p :: ps
           | [] => [String c' EmptyString]
           end
  end.

(** strings.ReplaceAll for a non-empty [old]: a left-to-right scan that
    replaces non-overlapping occurrences.  [fuel] bounds the scan; each
    step consumes at least one byte, so [String.length s] suffices. *)
Fixpoint replace_all_fuel (fuel : nat) (old new s : string) : string :=
  match fuel with
  | O => s
  | S f =>
      match s with
      | EmptyString => EmptyString
      | String c s' =>
          if String.prefix old s then
            String.append new
              (replace_all_fuel f old new
                 (String.substring (String.length old) (String.length s) s))
          else String c (replace_all_fuel f old new s')
      end
  end.

Definition ReplaceAll (s old new : string) : string :=
  replace_all_fuel (String.length s) old new s.

(** fmt's %d of a non-negative int. *)
Fixpoint uint_to_string (u : Decimal.uint) : string :=
  match u with
  | Decimal.Nil => EmptyString
  | Decimal.D0 u' => String "0" (uint_to_string u')
  | Decimal.D1 u' => String "1" (uint_to_string u')
  | Decimal.D2 u' => String "2" (uint_to_string u')
  | Decimal.D3 u' => String "3" (uint_to_string u')
  | Decimal.D4 u' => String "4" (uint_to_string u')
  | Decimal.D5 u' => String "5" (uint_to_string u')
  | Decimal.D6 u' => String "6" (uint_to_string u')
  | Decimal.D7 u' => String "7" (uint_to_string u')
  | Decimal.D8 u' => String "8" (uint_to_string u')
  | Decimal.D9 u' => String "9" (uint_to_string u')
  end.

Definition itoa (n : nat) : string := uint_to_string (Nat.to_uint n).

(** [fmt.Sprintf("\\%d", i+1)] *)
Definition placeholder (i : nat) : string := String "\" (itoa (S i)).

(** [for i, match := range submatches[1:] { result = strings.ReplaceAll(result, placeholder, match) }] *)
Fixpoint substitute_from (i : nat) (result : string) (caps : list string) : string :=
  match caps with
  | [] => result
  | m :: caps' => substitute_from (S i) (ReplaceAll result (placeholder i) m) caps'
  end.

(** profiler.evaluateVersionExpression; [None] is the returned error. *)
Definition evaluateVersionExpression (expression : string) (submatches : list string)
    : option string :=
  if contains_char "?" expression then
    match split_on "?" expression with
    | [_; p1] =>
        match split_on ":" p1 with
        | [t; f] =>
            if negb (String.eqb t "") then
              match submatches with [] => Some f | _ => Some t end
            else if String.eqb f "" then
              match submatches with [] => Some "" | _ => Some t end
            else Some f
        | _ => None
        end
    | _ => None
    end
  else Some expression.

(** The extractVersion method of the profiler's ParsedPattern, given its
    Version template; the caller discards the error and keeps "". *)
Definition extractVersion (version : string) (submatches : list string) : string :=
  match submatches with
  | [] => ""
  | _ :: caps =>
      match evaluateVersionExpression (substitute_from 0 version caps) caps with
      | Some r => Str.trim_space r
      | None => ""
      end
  end.

(** strconv.Atoi on a 64-bit platform: an optional sign, then at least
    one ASCII digit, within the int64 range. *)
Fixpoint digits_value (acc : Z) (s : string) : option Z :=
  match s with
  | EmptyString => Some acc
  | String c s' =>
      let n := nat_of_ascii c in
      if (48 <=? n)%nat && (n <=? 57)%nat then digits_value (acc * 10 + Z.of_nat (n - 48)%nat)%Z s'
      else None
  end.

Definition in_int64 (z : Z) : bool := (- 2 ^ 63 <=? z)%Z && (z <? 2 ^ 63)%Z.

Definition Atoi (s : string) : option Z :=
  let '(sign, body) :=
    match s with
    | String "-" s' => ((-1)%Z, s')
    | String "+" s' => (1%Z, s')
    | _ => (1%Z, s)
    end in
  match body with
  | EmptyString => None
  | _ => match digits_value 0 body with
         | Some v => if in_int64 (sign * v)%Z then Some (sign * v)%Z else None
         | None => None
         end
  end.

(** extractVersion of the matchers (kitsune_test.go).  An outer [None]
    is the run-time panic of indexing with a negative index. *)
Definition extractVersion_cmd (commands : gmap string string) (submatches : list string)
    : option string :=
  match commands !! "version" with
  | None => Some ""
  | Some versionCmd =>
      if String.eqb versionCmd "" || (length submatches <=? 1)%nat then Some ""
      else match versionCmd with
           | String "\" idxStr =>
               match Atoi idxStr with
               | Some versionIndex =>
                   if (versionIndex <? Z.of_nat (length submatches))%Z then
                     if (versionIndex <? 0)%Z then None
                     else Some (default "" (submatches !! Z.to_nat versionIndex))
                   else Some ""
               | None => Some ""
               end
           | _ => Some ""
           end
  end.

End Version.

(* ------------------------------------------------------------------ *)
(** ** The fingerprint normalizer (pipeline normalizePatternValue) *)

Module Normalizer.
Local Open Scope string_scope.
Local Open Scope list_scope.

(** A decoded JSON value, as [interface{}] after json.Unmarshal.  An
    object is the list of its members; ranging over a Go map visits them
    in an unspecified order, of which the list order is one. *)
Inductive JValue :=
  | JString (s : string)
  | JObject (members : list (string * JValue))
  | JArray (items : list JValue)
  | JNull
  | JOther.

(** [m[k]] on a decoded object (keys are unique after Unmarshal). *)
Fixpoint member (k : string) (ms : list (string * JValue)) : JValue :=
  match ms with
  | [] => JNull
  | (k', v) :: ms' => if String.eqb k k' then v else member k ms'
  end.

(** strings.Split for a non-empty separator; [fuel] bounds the scan. *)
Fixpoint split_fuel (fuel : nat) (sep s : string) : list string :=
  match fuel with
  | O => [s]
  | S f =>
      match s with
      | EmptyString => [EmptyString]
      | String c s' =>
          if String.prefix sep s then
            EmptyString :: split_fuel f sep
              (String.substring (String.length sep) (String.length s) s)
          else match split_fuel f sep s' with
               | p :: ps => String c p :: ps
               | [] => [String c EmptyString]
               end
      end
  end.

Definition Split (s sep : string) : list string := split_fuel (String.length s) sep s.

(** strings.SplitN(s, ":", 2) when it yields two parts. *)
Fixpoint split_first_colon (s : string) : option (string * string) :=
  match s with
  | EmptyString => None
  | String c s' =>
      if Ascii.eqb c ":" then Some (EmptyString, s')
      else match split_first_colon s' with
           | Some (a, b) => Some (String c a, b)
           | None => None
           end
  end.

(** Whether the separator [\;] occurs in a string. *)
Fixpoint contains_sep (s : string) : bool :=
  match s with
  | EmptyString => false
  | String c s' =>
      (Ascii.eqb c "\" && match s' with String d _ => Ascii.eqb d ";" | EmptyString => false end)
      || contains_sep s'
  end.

(** parseWappalyzerDSL; [None] is the error for an empty pattern. *)
Definition parseWappalyzerDSL (rawPattern : string) : option ParsedPattern :=
  if String.eqb rawPattern "" then None
  else
    let parts := Split rawPattern "\;" in
    let commands := fold_left (fun cmds part =>
        match split_first_colon part with
        | Some (k, v) => <[k := v]> cmds
        | None => cmds
        end) (tail parts) ∅ in
    Some {| Regex := default "" (head parts); Commands := commands |}.

Definition patternDenylist : list string :=
  ["noscript"; "script"; "meta"; "title"; "head"; "body"; "div"; "span"; "style";
   "button"; "submit"; "login"; "admin"; "cart"; "http"; "https"; "paypal"; "react";
   "vue"; "angular"; "jquery"; "svelte"; "wagtail"].

Definition minPatternLength : nat := 4%nat.

(** One match of simpleCharCounter, [[a-zA-Z0-9]]. *)
Definition is_alnum (c : ascii) : bool :=
  let n := nat_of_ascii c in
  (((48 <=? n) && (n <=? 57)) || ((65 <=? n) && (n <=? 90)) || ((97 <=? n) && (n <=? 122)))%nat.

(** [len(simpleCharCounter.FindAllString(s, -1))] *)
Fixpoint alnum_count (s : string) : nat :=
  match s with
  | EmptyString => 0%nat
  | String c s' => ((if is_alnum c then 1 else 0) + alnum_count s')%nat
  end.

(** [_, isDenied := patternDenylist[strings.ToLower(s)]], with ToLower
    taken on ASCII only.  Go's strings.ToLower also lowers non-ASCII runes,
    some of them to ASCII letters (U+0130 to i, the Kelvin sign U+212A to
    k), so Go also denies spellings such as "scr" ++ U+0130 ++ "pt" that
    this test lets through: the model denies a subset of what Go denies. *)
Definition is_denied (s : string) : bool :=
  existsb (String.eqb (Str.to_lower s)) patternDenylist.

Section Normalize.
(** cleanWappalyzerPatternAST (the regexp/syntax parse and print it
    relies on are not part of this development) and whether regexp.Compile
    accepts its argument. *)
Variable cleanWappalyzerPatternAST : string → string.
Variable regexp_compiles : string → bool.

(** The string extracted from a pattern value. *)
Definition raw_of (value : JValue) : string :=
  match value with
  | JString v => v
  | JObject v => match member "regex" v with JString r => r | _ => "" end
  | _ => ""
  end.

Definition normalizePatternValue (value : JValue) : option ParsedPattern :=
  let raw := raw_of value in
  if String.eqb raw "" then None
  else match parseWappalyzerDSL raw with
  | None => None
  | Some parsed =>
      let trimmedCleanedRegex := Str.trim_space (cleanWappalyzerPatternAST (Regex parsed)) in
      if is_denied trimmedCleanedRegex then None
      else if String.eqb trimmedCleanedRegex "" || String.eqb trimmedCleanedRegex ".*"
              || String.eqb trimmedCleanedRegex "." then None
      else if (alnum_count trimmedCleanedRegex <? minPatternLength)%nat then None
      else if negb (regexp_compiles trimmedCleanedRegex) then None
      else Some {| Regex := trimmedCleanedRegex; Commands := Commands parsed |}
  end.

Definition normalizePatternArray (arr : JValue) : list ParsedPattern :=
  match arr with
  | JArray v => omap normalizePatternValue v
  | JString v => option_list (normalizePatternValue (JString v))
  | JObject v => omap (fun kv => normalizePatternValue (JString kv.1)) v
  | JNull => []
  | JOther => []
  end.

Definition normalizePatternMap (m : JValue) : list (string * ParsedPattern) :=
  match m with
  | JObject mm => omap (fun kv => pair kv.1 <$> normalizePatternValue kv.2) mm
  | _ => []
  end.

Definition normalizeMetaValue (value : JValue) : list ParsedPattern :=
  match value with
  | JString _ | JObject _ => option_list (normalizePatternValue value)
  | JArray v => omap normalizePatternValue v
  | _ => []
  end.

Definition normalizeMetaMap (m : JValue) : list (string * list ParsedPattern) :=
  match m with
  | JObject mm =>
      omap (fun kv => match normalizeMetaValue kv.2 with
                      | [] => None
                      | arr => Some (kv.1, arr)
                      end) mm
  | _ => []
  end.

Definition normalize_implies (v : JValue) : list string :=
  match v with
  | JArray vv => omap (fun item => match item with JString s => Some s | _ => None end) vv
  | JString vv => [vv]
  | _ => []
  end.

(** The body of the NormalizeFromBytes loop for one application. *)
Definition normalize_fp (fp : list (string * JValue)) : Fingerprint := {|
  CSS := normalizePatternArray (member "css" fp);
  Cookies := normalizePatternMap (member "cookies" fp);
  JS := normalizePatternMap (member "js" fp);
  Headers := normalizePatternMap (member "headers" fp);
  HTML := normalizePatternArray (member "html" fp);
  Script := normalizePatternArray (member "scripts" fp);
  ScriptSrc := normalizePatternArray (member "scriptSrc" fp);
  Meta := normalizeMetaMap (member "meta" fp);
  Implies := normalize_implies (member "implies" fp);
  URL := normalizePatternArray (member "url" fp);
  Robots := normalizePatternArray (member "robots" fp);
  DOM := normalizePatternArray (member "dom" fp);
  DNS := normalizePatternMap (member "dns" fp);
  CertIssuer := normalizePatternMap (member "certIssuer" fp)
|}.
End Normalize.

(** Every pattern a fingerprint carries, over all its vectors. *)
Definition emitted_patterns (f : Fingerprint) : list ParsedPattern :=
  CSS f ++ map snd (Cookies f) ++ map snd (JS f) ++ map snd (Headers f) ++ HTML f ++
  Script f ++ ScriptSrc f ++ concat (map snd (Meta f)) ++ URL f ++ Robots f ++ DOM f ++
  map snd (DNS f) ++ map snd (CertIssuer f).

End Normalizer.

(* ------------------------------------------------------------------ *)
(** ** The regex watchdog (profiler matchWithTimeout) *)

Module Watchdog.

(** Where the caller is: between [go func()] and the select, blocked in
    the select, or returned with a value ([None] is nil). *)
Inductive caller_pc (Result : Type) :=
  | Spawned
  | Blocked
  | Returned (r : option Result).
Arguments Spawned {Result}.
Arguments Blocked {Result}.
Arguments Returned {Result}.

(** The goroutine: still running FindStringSubmatch, or past its send. *)
Inductive worker_pc := Matching | Done.

Record WState (Result : Type) := {
  caller : caller_pc Result;
  worker : worker_pc;
  (** The buffer of [resultChan := make(chan []string, 1)]. *)
  resultChan : option (option Result)
}.
Arguments caller {Result}.
Arguments worker {Result}.
Arguments resultChan {Result}.
Arguments Build_WState {Result}.

Section Watchdog.
Variable Result : Type.
(** [re.FindStringSubmatch(string(body))] for the pattern and input. *)
Variable res : option Result.

Definition init : WState Result := Build_WState Spawned Matching None.

(** One step of the two goroutines, with Go's channel and select rules.
    The time.After channel is created when the select is entered, so for
    a positive timeout it is not ready at that moment; once the caller is
    blocked, whichever of the two channels becomes ready first completes
    the select. *)
Inductive step : WState Result → WState Result → Prop :=
  (** [resultChan <- ...] into the free buffer slot. *)
  | worker_send_buffered c :
      c ≠ Blocked →
      step (Build_WState c Matching None) (Build_WState c Done (Some res))
  (** The same send, handed to the caller blocked in the select. *)
  | worker_send_handoff :
      step (Build_WState Blocked Matching None) (Build_WState (Returned res) Done None)
  (** Entering the select when [resultChan] is ready. *)
  | select_ready w r :
      step (Build_WState Spawned w (Some r)) (Build_WState (Returned r) w None)
  (** Entering the select when no case is ready. *)
  | select_block w :
      step (Build_WState Spawned w None) (Build_WState Blocked w None)
  (** [case <-time.After(timeout): return nil] *)
  | select_timeout w b :
      step (Build_WState Blocked w b) (Build_WState (Returned None) w b).

Inductive reachable : WState Result → Prop :=
  | reach_init : reachable init
  | reach_step s s' : reachable s → step s s' → reachable s'.

(** The steps each goroutine has left: two for the caller before the
    select, one while blocked, one for the worker before its send. *)
Definition pending (s : WState Result) : nat :=
  (match caller s with Spawned => 2 | Blocked => 1 | Returned _ => 0 end +
   match worker s with Matching => 1 | Done => 0 end)%nat.

(** The invariant of the reachable states. *)
Definition wd_inv (s : WState Result) : Prop :=
  (worker s = Matching → resultChan s = None) ∧
  (∀ r, resultChan s = Some r → r = res ∧ worker s = Done) ∧
  (caller s = Blocked → worker s = Matching) ∧
  (caller s = Spawned → worker s = Done → resultChan s ≠ None) ∧
  (∀ r, caller s = Returned r → r = res ∨ r = None).

End Watchdog.
End Watchdog.

(* ------------------------------------------------------------------ *)
(** ** Categories (Kitsune.GetCategories, GetCategoryNames) *)

Module Categories.
Local Open Scope list_scope.

(** GetCategoryNames over the package's [categoryMap]. *)
Definition GetCategoryNames (categoryMap : gmap Z string) (ids : list Z) : list string :=
  omap (fun id => categoryMap !! id) ids.

Record CatsInfo := { Cats : list Z; Names : list string }.

(** One iteration of [for tech := range technologies]. *)
Definition categories_step (apps : gmap string (option (list Z))) (categoryMap : gmap Z string)
    (result : option (gmap string CatsInfo)) (entry : string * Detection) : option (gmap string CatsInfo) :=
  let '(tech, _) := entry in
  match result with
  | None => None
  | Some r =>
      match apps !! tech with
      | None => Some r
      | Some None => None
      | Some (Some cats) =>
          Some (<[tech := {| Cats := cats; Names := GetCategoryNames categoryMap cats |}]> r)
      end
  end.

(** GetCategories.  [apps] gives, for each name of [k.apps], the Cats of
    its fingerprint, or [None] for a nil *Fingerprint (reading its Cats
    panics); the outer [None] of the result is that panic. *)
Definition GetCategories (apps : gmap string (option (list Z))) (categoryMap : gmap Z string)
    (technologies : gmap string Detection) : option (gmap string CatsInfo) :=
  fold_left (categories_step apps categoryMap) (map_to_list technologies) (Some ∅).

End Categories.

(* ------------------------------------------------------------------ *)
(** ** The profiler's pattern parser (ParsePattern, Evaluate) *)

Module Profiler.
Local Open Scope string_scope.
Local Open Scope list_scope.

Definition verCap1 := "(\d+(?:\.\d+)+)".
Definition verCap1Fill := "__verCap1__".
Definition verCap1Limited := "(\d{1,20}(?:\.\d{1,20}){1,20})".
Definition verCap2 := "((?:\d+\.)+\d+)".
Definition verCap2Fill := "__verCap2__".
Definition verCap2Limited := "((?:\d{1,20}\.){1,20}\d{1,20})".

(** The rewriting of the regex part before it is compiled. *)
Definition rewrite_regex (part : string) : string :=
  let r := Version.ReplaceAll part verCap1 verCap1Fill in
  let r := Version.ReplaceAll r verCap2 verCap2Fill in
  let r := Version.ReplaceAll r "\+" "__escapedPlus__" in
  let r := Version.ReplaceAll r "+" "{1,250}" in
  let r := Version.ReplaceAll r "*" "{0,250}" in
  let r := Version.ReplaceAll r "__escapedPlus__" "\+" in
  let r := Version.ReplaceAll r verCap1Fill verCap1Limited in
  Version.ReplaceAll r verCap2Fill verCap2Limited.

(** Every '+' of [s] comes right after a backslash; [prev_bs] says
    whether the byte before [s] is one. *)
Fixpoint plus_guarded_from (prev_bs : bool) (s : string) : bool :=
  match s with
  | EmptyString => true
  | String c s' => (negb (Ascii.eqb c "+") || prev_bs) && plus_guarded_from (Ascii.eqb c "\") s'
  end.

Section Parse.
Variable Regexp : Type.
(** regexp.Compile *)
Variable regexp_compile : string → option Regexp.
(** matchWithTimeout: the submatches, [] for nil. *)
Variable match_with_timeout : Regexp → string → list string.

Record ParsedPattern := {
  regex : option Regexp;
  PConfidence : Z;
  PVersion : string;
  SkipRegex : bool
}.

(** One option part [key:value] of the loop over [parts[1:]]. *)
Definition parse_option (p : ParsedPattern) (part : string) : ParsedPattern :=
  match Normalizer.split_first_colon part with
  | None => p
  | Some (key, value) =>
      if String.eqb key "confidence" then
        {| regex := regex p; PVersion := PVersion p; SkipRegex := SkipRegex p;
           PConfidence := match Version.Atoi value with Some conf => conf | None => 100%Z end |}
      else if String.eqb key "version" then
        {| regex := regex p; PConfidence := PConfidence p; SkipRegex := SkipRegex p;
           PVersion := value |}
      else p
  end.

(** ParsePattern; [None] is the compile error. *)
Definition ParsePattern (pattern : string) : option ParsedPattern :=
  let parts := Normalizer.Split pattern "\;" in
  let p0 := {| regex := None; PConfidence := 100%Z; PVersion := "";
               SkipRegex := String.eqb (default "" (head parts)) "" |} in
  let p1 := if SkipRegex p0 then Some p0
            else match regexp_compile ("(?i)" +:+ rewrite_regex (default "" (head parts))) with
                 | Some re => Some {| regex := Some re; PConfidence := 100%Z; PVersion := "";
                                      SkipRegex := false |}
                 | None => None
                 end in
  match p1 with
  | Some p => Some (fold_left parse_option (tail parts) p)
  | None => None
  end.

(** The Evaluate method; the error returned by extractVersion is discarded. *)
Definition Evaluate (p : ParsedPattern) (target : string) : bool * string :=
  if SkipRegex p then (true, "")
  else match regex p with
       | None => (false, "")
       | Some re =>
           match match_with_timeout re target with
           | [] => (false, "")
           | submatches => (true, Version.extractVersion (PVersion p) submatches)
           end
       end.

End Parse.
End Profiler.

(* ------------------------------------------------------------------ *)
(** ** Regex sanitising helpers of the normalizer *)

Module RegexClean.
Local Open Scope string_scope.
Local Open Scope list_scope.

(** areParenthesesBalanced, from a running [balance]. *)
Fixpoint balanced_from (balance : Z) (s : string) : bool :=
  match s with
  | EmptyString => Z.eqb balance 0
  | String r s' =>
      let balance := if Ascii.eqb r "(" then (balance + 1)%Z
                     else if Ascii.eqb r ")" then (balance - 1)%Z else balance in
      if Z.ltb balance 0 then false else balanced_from balance s'
  end.

Definition areParenthesesBalanced (s : string) : bool := balanced_from 0 s.

Definition is_digit (c : ascii) : bool :=
  let n := nat_of_ascii c in (48 <=? n)%nat && (n <=? 57)%nat.

Definition is_digit19 (c : ascii) : bool :=
  let n := nat_of_ascii c in (49 <=? n)%nat && (n <=? 57)%nat.

(** backrefRe.ReplaceAllStringFunc(raw, ...) with every match replaced by
    the empty string; backrefRe is a backslash, a digit 1-9, then any
    number of digits.  Leftmost, non-overlapping, greedy matches are
    deleted; [skipping] is set while the trailing digits of a match are read. *)
Fixpoint strip_backrefs (skipping : bool) (s : string) : string :=
  match s with
  | EmptyString => EmptyString
  | String c s' =>
      if skipping && is_digit c then strip_backrefs true s'
      else if Ascii.eqb c "\" && match s' with String d _ => is_digit19 d | EmptyString => false end
      then match s' with
           | String _ s'' => strip_backrefs true s''
           | EmptyString => EmptyString
           end
      else String c (strip_backrefs false s')
  end.

(** [if idx := strings.Index(raw, needle); idx != -1 { raw = raw[:idx] }] *)
Fixpoint cut_at (needle s : string) : string :=
  if String.prefix needle s then EmptyString
  else match s with
       | EmptyString => EmptyString
       | String c s' => String c (cut_at needle s')
       end.

(** Steps 1 and 2 of cleanWappalyzerPatternAST: the string handed to
    syntax.Parse, or [None] when the function returns "" before. *)
Definition preprocess (raw : string) : option string :=
  let raw := cut_at "\;version:" raw in
  let raw := cut_at "\;confidence:" raw in
  let raw := Str.trim_space raw in
  if String.eqb raw "" then None else Some (strip_backrefs false raw).

(** The net count of "(" over ")" in a string. *)
Fixpoint paren_depth (s : string) : Z :=
  match s with
  | EmptyString => 0
  | String r s' =>
      ((if Ascii.eqb r "(" then 1 else if Ascii.eqb r ")" then -1 else 0) + paren_depth s')%Z
  end.

(** Whether a backslash followed by a digit 1-9 (a match of backrefRe)
    occurs in a string. *)
Fixpoint has_backref (s : string) : bool :=
  match s with
  | EmptyString => false
  | String c s' =>
      (Ascii.eqb c "\" && match s' with String d _ => is_digit19 d | EmptyString => false end)
      || has_backref s'
  end.

(** syntax.Op *)
Inductive Op :=
  | OpNoMatch | OpEmptyMatch | OpLiteral | OpCharClass | OpAnyCharNotNL | OpAnyChar
  | OpBeginLine | OpEndLine | OpBeginText | OpEndText | OpWordBoundary | OpNoWordBoundary
  | OpCapture | OpStar | OpPlus | OpQuest | OpRepeat | OpConcat | OpAlternate.

Definition is_capture (op : Op) : bool := match op with OpCapture => true | _ => false end.

Section AST.
(** The other fields of a syntax.Regexp node (Flags, Rune, Min, Max, Cap, Name). *)
Variable Fields : Type.

Inductive Regexp := RNode (op : Op) (fields : Fields) (sub : list Regexp).

(** The [transform] closure: sub-expressions first, then a capture node
    with sub-expressions is replaced by the first of them. *)
Fixpoint transform (r : Regexp) : Regexp :=
  match r with
  | RNode op f subs =>
      let subs' := map transform subs in
      match subs' with
      | s0 :: _ => if is_capture op then s0 else RNode op f subs'
      | [] => RNode op f subs'
      end
  end.

(** Whether a capture node with a sub-expression occurs in the tree. *)
Fixpoint has_capture (r : Regexp) : bool :=
  match r with
  | RNode op _ subs =>
      (is_capture op && negb (match subs with [] => true | _ => false end))
      || existsb has_capture subs
  end.

(** cleanWappalyzerPatternAST, given syntax.Parse(_, syntax.Perl) and
    Regexp.String. *)
Definition cleanWappalyzerPatternAST (parse : string → option Regexp) (to_string : Regexp → string)
    (raw : string) : string :=
  match preprocess raw with
  | None => ""
  | Some raw' =>
      match parse raw' with
      | None => ""
      | Some re => to_string (transform re)
      end
  end.
End AST.
End RegexClean.

(* ------------------------------------------------------------------ *)
(** ** All the patterns of an EfficientMatcher *)

Module MatcherFacts.
Import Engine.
Local Open Scope list_scope.

Definition keyed {Regexp : Type} (g : gmap string (list (PatternInfo Regexp))) : list (PatternInfo Regexp) :=
  concat (map snd (map_to_list g)).

Definition all_patterns {Regexp : Type} (m : EfficientMatcher Regexp) : list (PatternInfo Regexp) :=
  HTMLPatterns m ++ ScriptSrcPatterns m ++ keyed (HeaderPatterns m) ++ keyed (CookiePatterns m) ++
  keyed (MetaPatterns m) ++ ScriptPatterns m ++ keyed (JSPatterns m) ++ CSSPatterns m ++
  URLPatterns m ++ RobotsPatterns m ++ DOMPatterns m ++ keyed (DNSPatterns m) ++
  keyed (CertIssuerPatterns m).

End MatcherFacts.

(* ------------------------------------------------------------------ *)
(** ** How a matcher acts on one entry of the detected map *)

Module Frame.

(** [f] leaves the entry of [a] as it was. *)
Definition Keeps (a : string) (f : gmap string Detection → gmap string Detection) : Prop := ∀ d, f d !! a = d !! a.

(** [f] records under [a] one Detection satisfying [P], whatever the
    map held before (an overwrite). *)
Definition Hit (P : Detection → Prop) (a : string) (f : gmap string Detection → gmap string Detection) : Prop :=
  ∃ v, P v ∧ ∀ d, f d !! a = Some v.

Definition PW (P : Detection → Prop) (a : string) (f : gmap string Detection → gmap string Detection) : Prop :=
  Keeps a f ∨ Hit P a f.

(** [f] never changes an entry that is already present. *)
Definition Preserves (f : gmap string Detection → gmap string Detection) : Prop :=
  ∀ d k x, d !! k = Some x → f d !! k = Some x.

Definition has_conf (c : ConfidenceLevel) (v : Detection) : Prop := Confidence v = c.

End Frame.

(* ------------------------------------------------------------------ *)
(** ** Names compared through strings.ToLower *)

Module CaseFold.

Section Lower.
(** strings.ToLower *)
Variable ToLower : string → string.

(** The fingerprint with its header, cookie and meta names lowered. *)
Definition lower_keys (f : Fingerprint) : Fingerprint := {|
  CSS := CSS f;
  Cookies := map (fun '(k, p) => (ToLower k, p)) (Cookies f);
  JS := JS f;
  Headers := map (fun '(k, p) => (ToLower k, p)) (Headers f);
  HTML := HTML f; Script := Script f; ScriptSrc := ScriptSrc f;
  Meta := map (fun '(k, ps) => (ToLower k, ps)) (Meta f);
  Implies := Implies f; URL := URL f; Robots := Robots f; DOM := DOM f;
  DNS := DNS f; CertIssuer := CertIssuer f |}.

(** Two header lists carrying the same values under names that agree
    once lowered. *)
Definition same_lowered (h h' : Engine.Header) : Prop :=
  ∀ lk vs, (∃ k, ToLower k = lk ∧ (k, vs) ∈ h) ↔ (∃ k, ToLower k = lk ∧ (k, vs) ∈ h').

(** The same for two meta maps. *)
Definition same_lowered_map (M M' : gmap string (list string)) : Prop :=
  ∀ lk cs, (∃ k, ToLower k = lk ∧ M !! k = Some cs) ↔ (∃ k, ToLower k = lk ∧ M' !! k = Some cs).

(** The entry matchCookies files a parsed cookie under: the lowered,
    trimmed name and the value, or [None] when the cookie is skipped (the
    parse failed or the name is empty). *)
Definition cookie_entry (c : option (string * string)) : option (string * string) :=
  match c with
  | Some (n, v) => if String.eqb n "" then None else Some (ToLower (Str.trim_space n), v)
  | None => None
  end.

End Lower.

End CaseFold.

(* ------------------------------------------------------------------ *)
(** ** A concrete instance of the library services, for examples *)

Module Examples.
Import Engine.
Local Open Scope string_scope.
Local Open Scope list_scope.

(** A "regexp" that matches exactly its own text, with no captures. *)
Definition ex_match (re v : string) : option (string * list string) :=
  if String.eqb re v then Some (v, []) else None.

Definition ex_version (_ : gmap string string) (_ : list string) : string := "".

Definition ex_parse_set_cookie (raw : string) : option (string * string) := Some ("k", raw).

Definition ex_js_matches (_ : string) : list (list string) := [["k = 'x'"; "k"; "x"]].

Definition ex_dom_find (_ : Dom.Doc) (_ : string) : bool := true.

Definition ex_pi (app re : string) : PatternInfo string :=
  {| Pattern := re; AppName := app; PCommands := ∅ |}.

(** Every vector holds the pattern "x" of application "A", keyed by "k". *)
Definition ex_matcher : EfficientMatcher string := {|
  HTMLPatterns := [ex_pi "A" "x"]; ScriptSrcPatterns := [ex_pi "A" "x"];
  HeaderPatterns := {["k" := [ex_pi "A" "x"]]}; CookiePatterns := {["k" := [ex_pi "A" "x"]]};
  MetaPatterns := {["k" := [ex_pi "A" "x"]]}; ScriptPatterns := [ex_pi "A" "x"];
  JSPatterns := {["k" := [ex_pi "A" "x"]]}; CSSPatterns := [ex_pi "A" "x"];
  URLPatterns := [ex_pi "A" "x"]; RobotsPatterns := [ex_pi "A" "x"];
  DOMPatterns := [ex_pi "A" "x"]; DNSPatterns := {["k" := [ex_pi "A" "x"]]};
  CertIssuerPatterns := {["k" := [ex_pi "A" "x"]]} |}.

(** Every input is "x". *)
Definition ex_page : PageData := {|
  ScriptSrcs := ["x"]; MetaContent := {["k" := ["x"]]}; InlineScripts := ["x"];
  InlineCSS := ["x"]; VisibleText := "x"; Title := ""; RawBody := "x"; GoQueryDoc := Some [] |}.

Definition ex_headers : Header := [("k", ["x"]); ("Set-Cookie", ["x"])].

Definition ex_data : AnalysisData := {|
  TargetURL := "x"; MainResponse := Some ex_headers; RobotsContent := Some "x";
  DNSRecords := Some {["k" := ["x"]]}; CertIssuer := "x"; Body := Some "x";
  PageData_ := Some ex_page |}.

(** A detection recorded by the header vector. *)
Definition ex_prior : Detection := {|
  Version := ""; DetectedBy := "header:Server"; MatchedPattern := "y"; MatchedValue := "y";
  Confidence := ConfidenceHigh |}.

(** A fingerprint with one header pattern "x" under the name [k]. *)
Definition ex_header_fp (k : string) : Fingerprint :=
  Build_Fingerprint [] [] [] [(k, {| Regex := "x"; Commands := ∅ |})] [] [] [] [] [] [] [] [] [] [].

(** A fingerprint with one meta pattern "x" under the name [k]. *)
Definition ex_meta_fp (k : string) : Fingerprint :=
  Build_Fingerprint [] [] [] [] [] [] [] [(k, [{| Regex := "x"; Commands := ∅ |}])] [] [] [] [] [] [].

(** The Greek capital letter sigma, U+03A3, in UTF-8 (bytes CE A3).
    Go's strings.ToLower maps it to U+03C3 (CF 83). *)
Definition sigma_upper : string :=
  String (Ascii.ascii_of_nat 206) (String (Ascii.ascii_of_nat 163) EmptyString).

(** The Greek small letter final sigma, U+03C2, in UTF-8 (bytes CF 82).
    Its upper case is U+03A3 (strings.EqualFold holds between the two),
    and Go's strings.ToLower leaves it unchanged. *)
Definition sigma_final : string :=
  String (Ascii.ascii_of_nat 207) (String (Ascii.ascii_of_nat 130) EmptyString).

(** A Set-Cookie parser that reads the whole value as the cookie name. *)
Definition ex_name_cookie (raw : string) : option (string * string) := Some (raw, "v").

(** An example document: <body>x<script>x</script></body>. *)
Definition ex_doc : Dom.Doc :=
  [Dom.ElementNode "body" [] [Dom.TextNode "x"; Dom.ElementNode "script" [] [Dom.TextNode "x"]]].
(** The example page with the meta map [M]. *)
Definition ex_page_meta (M : gmap string (list string)) : PageData := {|
  ScriptSrcs := ["x"]; MetaContent := M; InlineScripts := ["x"];
  InlineCSS := ["x"]; VisibleText := "x"; Title := ""; RawBody := "x"; GoQueryDoc := Some [] |}.

(** A server at "http://x" whose robots.txt fetch fails to connect. *)
Definition ex_http_get (u : string) : string + Analysis.Response :=
  if String.eqb u "http://x/robots.txt" then inl "connection refused"
  else inr {| Analysis.StatusCode := 200; Analysis.RespHeader := ex_headers;
              Analysis.RespBody := Some "x" |}.

Definition ex_url_parse (u : string) : string + string := inr u.

Definition ex_robots_url (u : string) : string := u +:+ "/robots.txt".

(** TXT lookups succeed, MX lookups fail. *)
Definition ex_lookup_txt (_ : string) : list string * option string := (["x"], None).

Definition ex_lookup_mx (_ : string) : list string * option string := ([], Some "no such host").

Definition ex_cert_cache (_ : string) : option string := None.

Definition ex_html_parse (_ : string) : option Dom.Doc := Some ex_doc.

End Examples.

(* ================================================================== *)
(** * Proofs *)


Module ImpliesProofs.
Import Implies.

Lemma add_implied_lookup t us q (d : gmap string Detection) k :
  (add_implied t us q d).2 !! k =
    if bool_decide (k ∈ us ∧ d !! k = None) then Some (implied_detection t) else d !! k.
Proof.
  revert q d. induction us as [|u us IH]; intros q d; cbn [add_implied fst snd].
  - rewrite bool_decide_false; [done|]. intros [Hk _]. by apply elem_of_nil in Hk.
  - destruct (d !! u) as [v|] eqn:Hu.
    + rewrite IH. case_bool_decide as H1; case_bool_decide as H2; try done.
      * exfalso. apply H2. set_solver.
      * exfalso. destruct H2 as [Hin Hn]. apply elem_of_cons in Hin as [->|Hin].
        -- congruence.
        -- by apply H1.
    + rewrite IH. destruct (decide (k = u)) as [->|Hne].
      * rewrite lookup_insert_eq. rewrite bool_decide_false.
        -- rewrite bool_decide_true; [done|]. set_solver.
        -- by intros [_ Hn].
      * rewrite lookup_insert_ne; [|done].
        case_bool_decide as H1; case_bool_decide as H2; try done.
        -- exfalso. apply H2. destruct H1 as [Hin Hn].
           set_solver.
        -- exfalso. apply H1. destruct H2 as [Hin Hn]. apply elem_of_cons in Hin as [->|Hin];
           [done|]. done.
Qed.

Lemma filter_ext_elem {A} (P1 P2 : A → Prop)
    `{!∀ x, Decision (P1 x), !∀ x, Decision (P2 x)} (l : list A) :
  (∀ x, x ∈ l → P1 x ↔ P2 x) → filter P1 l = filter P2 l.
Proof.
  induction l as [|a l IH]; intros Hiff; [done|]. rewrite !filter_cons.
  rewrite IH by (intros x Hx; apply Hiff; by apply elem_of_cons; right).
  assert (Ha : P1 a ↔ P2 a) by (apply Hiff; by apply elem_of_cons; left).
  destruct (decide (P1 a)) as [H1|H1]; destruct (decide (P2 a)) as [H2|H2]; try done;
    exfalso; naive_solver.
Qed.

Lemma filter_undetected_insert (l : list string) (d : gmap string Detection) u x :
  NoDup l → u ∈ l → d !! u = None →
  length (filter (fun k => <[u := x]> d !! k = None) l) + 1 =
  length (filter (fun k => d !! k = None) l).
Proof.
  intros Hnd. induction Hnd as [|y l Hy Hnd IH]; intros Hin Hu.
  - by apply elem_of_nil in Hin.
  - rewrite !filter_cons. apply elem_of_cons in Hin as [->|Hin].
    + rewrite lookup_insert_eq. rewrite decide_False; [|done]. rewrite decide_True; [|done].
      simpl. rewrite (filter_ext_elem _ (fun k => d !! k = None)); [lia|].
      intros k Hk. assert (k ≠ y) by (intros ->; done).
      by rewrite lookup_insert_ne.
    + assert (Hne : u ≠ y) by (intros ->; done). rewrite lookup_insert_ne; [|done].
      destruct (decide (d !! y = None)); simpl; rewrite <- IH; auto.
Qed.

Lemma implied_names_complete (apps : gmap string Fingerprint) t app u :
  apps !! t = Some app → u ∈ Implies app → u ∈ implied_names apps.
Proof.
  intros Ht Hu. unfold implied_names. apply elem_of_remove_dups.
  apply list_elem_of_In, in_concat. exists (Implies app). split; [|by apply list_elem_of_In].
  apply in_map_iff. exists (t, app). split; [done|].
  apply list_elem_of_In. by apply elem_of_map_to_list.
Qed.

Lemma add_implied_measure apps t us q d :
  (∀ u, u ∈ us → u ∈ implied_names apps) →
  length (add_implied t us q d).1 + 2 * undetected apps (add_implied t us q d).2
    ≤ length q + 2 * undetected apps d.
Proof.
  revert q d. induction us as [|u us IH]; intros q d Hall; cbn [add_implied fst snd]; [lia|].
  assert (Hus : ∀ v, v ∈ us → v ∈ implied_names apps)
    by (intros v Hv; apply Hall; by apply elem_of_cons; right).
  destruct (d !! u) as [v|] eqn:Hu.
  - by apply IH.
  - etrans; [apply IH, Hus|].
    assert (Hin : u ∈ implied_names apps) by (apply Hall; by apply elem_of_cons; left).
    pose proof (filter_undetected_insert (implied_names apps) d u (implied_detection t)
                  (NoDup_remove_dups _) Hin Hu) as Hf.
    unfold undetected. rewrite length_app. simpl. lia.
Qed.

Lemma step_measure apps s s' : step apps s = Some s' → measure apps s' < measure apps s.
Proof.
  unfold step, measure. destruct s as [q pr d]; simpl.
  destruct q as [|t q]; [done|]. simpl.
  destruct (bool_decide (t ∈ pr)); [intros [= <-]; simpl; lia|].
  destruct (d !! t) as [src|]; [|intros [= <-]; simpl; lia].
  destruct (conf_lt (Confidence src) ConfidenceHigh); [intros [= <-]; simpl; lia|].
  destruct (apps !! t) as [app|] eqn:Happ; [|intros [= <-]; simpl; lia].
  pose proof (add_implied_measure apps t (Implies app) q d) as Hm.
  destruct (add_implied t (Implies app) q d) as [q' d'] eqn:Ha.
  intros [= <-]. simpl. simpl in Hm.
  assert (length q' + 2 * undetected apps d' ≤ length q + 2 * undetected apps d);
    [apply Hm; intros u Hu; by eapply implied_names_complete|lia].
Qed.

Lemma step_None apps s : step apps s = None → queue s = [].
Proof.
  unfold step. destruct (queue s) as [|t q]; [done|].
  destruct (bool_decide _); [done|]. destruct (detected s !! t); [|done].
  destruct (conf_lt _ _); [done|]. destruct (apps !! t); [|done].
  by destruct (add_implied _ _ _ _).
Qed.

Lemma loop_terminates apps fuel s :
  measure apps s < fuel → ∃ s', loop apps fuel s = Some s' ∧ queue s' = [].
Proof.
  revert s. induction fuel as [|f IH]; intros s Hf; [lia|]. simpl.
  destruct (step apps s) as [s1|] eqn:Hs.
  - apply IH. pose proof (step_measure _ _ _ Hs). lia.
  - exists s. split; [done|]. by apply (step_None apps).
Qed.

(** Invariants of one iteration. *)
Lemma step_processed_NoDup apps s s' :
  NoDup (processed s) → step apps s = Some s' → NoDup (processed s').
Proof.
  unfold step. destruct s as [q pr d]; simpl. destruct q as [|t q]; [done|].
  case_bool_decide as Hin; [by intros ? [= <-]|].
  intros Hnd. assert (NoDup (t :: pr)) by (by constructor).
  destruct (d !! t) as [src|]; [|by intros [= <-]].
  destruct (conf_lt _ _); [by intros [= <-]|].
  destruct (apps !! t); [|by intros [= <-]].
  destruct (add_implied _ _ _ _). by intros [= <-].
Qed.

Lemma loop_inv (P : state → Prop) apps :
  (∀ s s', P s → step apps s = Some s' → P s') →
  ∀ fuel s s', P s → loop apps fuel s = Some s' → P s'.
Proof.
  intros Hstep fuel. induction fuel as [|f IH]; intros s s' Hs; [done|]. simpl.
  destruct (step apps s) as [s1|] eqn:E.
  - intros Hl. eapply IH; [|exact Hl]. eauto.
  - by intros [= <-].
Qed.

Lemma conf_lt_high c : conf_lt c ConfidenceHigh = false → c = ConfidenceHigh.
Proof. by destruct c. Qed.

Lemma step_seed_inv apps d0 s s' : seed_inv apps d0 s → step apps s = Some s' → seed_inv apps d0 s'.
Proof.
  unfold step. destruct s as [q pr d]; simpl. destruct q as [|t q]; [done|].
  intros [Hkeep Hnew]; simpl in Hkeep, Hnew.
  destruct (bool_decide _); [by intros [= <-]|].
  destruct (d !! t) as [src|] eqn:Ht; [|by intros [= <-]].
  destruct (conf_lt (Confidence src) ConfidenceHigh) eqn:Hc; [by intros [= <-]|].
  apply conf_lt_high in Hc.
  destruct (apps !! t) as [app|] eqn:Happ; [|by intros [= <-]].
  pose proof (add_implied_lookup t (Implies app) q d) as Hl.
  destruct (add_implied t (Implies app) q d) as [q' d'] eqn:Ha. simpl in Hl.
  intros [= <-]. simpl.
  (* the source entry is a seed entry: added entries have Medium confidence *)
  assert (Hsrc : d0 !! t = Some src).
  { destruct (d0 !! t) as [y|] eqn:E0.
    - rewrite (Hkeep _ _ E0) in Ht. congruence.
    - destruct (Hnew _ _ Ht E0) as (t' & src' & app' & _ & _ & _ & _ & ->). done. }
  split.
  - intros k x Hk. rewrite Hl. rewrite (Hkeep _ _ Hk).
    rewrite bool_decide_false; [done|]. by intros [_ Hn].
  - intros k x Hk Hk0. rewrite Hl in Hk. case_bool_decide as Hb.
    + injection Hk as <-. exists t, src, app. naive_solver.
    + by apply Hnew.
Qed.

Lemma step_low apps s t q src :
  queue s = t :: q → t ∉ processed s → detected s !! t = Some src →
  conf_lt (Confidence src) ConfidenceHigh = true →
  step apps s = Some {| queue := q; processed := t :: processed s; detected := detected s |}.
Proof.
  intros Hq Hp Ht Hc. unfold step. rewrite Hq. rewrite bool_decide_false; [|done].
  by rewrite Ht, Hc.
Qed.

Lemma step_high apps s t q src app :
  queue s = t :: q → t ∉ processed s → detected s !! t = Some src →
  Confidence src = ConfidenceHigh → apps !! t = Some app →
  ∃ s', step apps s = Some s' ∧ processed s' = t :: processed s ∧
    ∀ u, detected s' !! u =
      if bool_decide (u ∈ Implies app ∧ detected s !! u = None)
      then Some (implied_detection t) else detected s !! u.
Proof.
  intros Hq Hp Ht Hc Happ. unfold step. rewrite Hq. rewrite bool_decide_false; [|done].
  rewrite Ht, Hc. simpl. rewrite Happ.
  pose proof (add_implied_lookup t (Implies app) q (detected s)) as Hl.
  destruct (add_implied t (Implies app) q (detected s)) as [q' d'].
  eexists. split; [reflexivity|]. split; [done|]. exact Hl.
Qed.

Lemma run_seed_inv apps seed d0 s :
  runImpliesEngine apps seed d0 = Some s → seed_inv apps d0 s.
Proof.
  unfold runImpliesEngine. apply loop_inv.
  - intros s1 s2. apply step_seed_inv.
  - split; [done|]. simpl. intros k x Hk Hk0. congruence.
Qed.

Example implies_example :
  runImpliesEngine {[ "A" := fp_implies ["B"] ]} ["A"] {[ "A" := det "header:Server" ConfidenceHigh ]}
  = Some {| queue := []; processed := ["B"; "A"];
            detected := <[ "B" := implied_detection "A" ]> {[ "A" := det "header:Server" ConfidenceHigh ]} |}.
Proof. vm_compute. reflexivity. Qed.

Example implies_example_low :
  runImpliesEngine {[ "A" := fp_implies ["B"] ]} ["A"] {[ "A" := det "html" ConfidenceLow ]}
  = Some {| queue := []; processed := ["A"]; detected := {[ "A" := det "html" ConfidenceLow ]} |}.
Proof. vm_compute. reflexivity. Qed.

(** C1. The implies engine terminates with an empty queue having
    processed each technology at most once (the processed list has no
    duplicates); an iteration that processes a technology [t] whose
    detection has confidence below High leaves the detected map
    unchanged; one that processes [t] with confidence High adds exactly
    the names [u] of [t]'s implies list that are not yet detected, each
    as [{ DetectedBy: "implies from: " + t, Confidence: Medium }]; and
    if every seed detection is below High, the final map is the seed
    map. *)
Theorem runImpliesEngine_gating (apps : gmap string Fingerprint) (seed : list string)
    (d0 : gmap string Detection) :
  (∃ s, runImpliesEngine apps seed d0 = Some s ∧ queue s = [] ∧ NoDup (processed s)) ∧
  (∀ s t q src, queue s = t :: q → t ∉ processed s → detected s !! t = Some src →
     conf_lt (Confidence src) ConfidenceHigh = true →
     ∃ s', step apps s = Some s' ∧ processed s' = t :: processed s ∧ detected s' = detected s) ∧
  (∀ s t q src app, queue s = t :: q → t ∉ processed s → detected s !! t = Some src →
     Confidence src = ConfidenceHigh → apps !! t = Some app →
     ∃ s', step apps s = Some s' ∧ processed s' = t :: processed s ∧
       ∀ u, detected s' !! u =
         if bool_decide (u ∈ Implies app ∧ detected s !! u = None)
         then Some (implied_detection t) else detected s !! u) ∧
  ((∀ t src, d0 !! t = Some src → conf_lt (Confidence src) ConfidenceHigh = true) →
     ∀ s, runImpliesEngine apps seed d0 = Some s → detected s = d0).
Proof.
  split; [|split; [|split]].
  - unfold runImpliesEngine.
    destruct (loop_terminates apps (S (measure apps {| queue := seed; processed := [];
                detected := d0 |})) {| queue := seed; processed := []; detected := d0 |})
      as (s & Hs & Hq); [lia|].
    exists s. split; [done|]. split; [done|].
    refine (loop_inv (fun s => NoDup (processed s)) apps _ _ _ _ _ Hs);
      [intros ??; apply step_processed_NoDup|constructor].
  - intros s t q src Hq Hp Ht Hc. eexists. split; [by eapply step_low|]. done.
  - intros s t q src app Hq Hp Ht Hc Happ. by eapply step_high.
  - intros Hlow s Hs. destruct (run_seed_inv _ _ _ _ Hs) as [Hkeep Hnew].
    apply map_eq. intros k. destruct (d0 !! k) as [x|] eqn:E.
    + by apply Hkeep.
    + destruct (detected s !! k) as [x|] eqn:E'; [|done].
      destruct (Hnew _ _ E' E) as (t & src & app & Ht & Hc & _).
      specialize (Hlow _ _ Ht). rewrite Hc in Hlow. discriminate.
Qed.

Lemma runImpliesEngine_gating_witness :
  (∀ t src, ({[ "A" := det "html" ConfidenceLow ]} : gmap string Detection) !! t = Some src →
     conf_lt (Confidence src) ConfidenceHigh = true) ∧
  (∀ s, runImpliesEngine {[ "A" := fp_implies ["B"] ]} ["A"]
          {[ "A" := det "html" ConfidenceLow ]} = Some s →
        detected s = {[ "A" := det "html" ConfidenceLow ]}).
Proof.
  assert (Hlow : ∀ t src, ({[ "A" := det "html" ConfidenceLow ]} : gmap string Detection) !! t = Some src →
     conf_lt (Confidence src) ConfidenceHigh = true).
  { intros t src Ht. apply lookup_singleton_Some in Ht as [_ <-]. reflexivity. }
  split; [exact Hlow|].
  exact (proj2 (proj2 (proj2 (runImpliesEngine_gating {[ "A" := fp_implies ["B"] ]} ["A"]
          {[ "A" := det "html" ConfidenceLow ]}))) Hlow).
Defined.

(** C10. After the implies engine, every entry that was not in the
    seed map (the map filled by the vector matchers) is the detection
    [implies from: t] (Medium confidence) of a technology [t] that the
    seed map holds with High confidence and whose implies list names the
    entry; seed entries are unchanged. Implications are therefore
    followed one step from the High-confidence seeds only. *)
Theorem runImpliesEngine_one_step (apps : gmap string Fingerprint) (seed : list string)
    (d0 : gmap string Detection) :
  ∃ s, runImpliesEngine apps seed d0 = Some s ∧
    (∀ k x, d0 !! k = Some x → detected s !! k = Some x) ∧
    (∀ k x, detected s !! k = Some x → d0 !! k = None →
       ∃ t src app, d0 !! t = Some src ∧ Confidence src = ConfidenceHigh ∧
         apps !! t = Some app ∧ k ∈ Implies app ∧ x = implied_detection t ∧
         Confidence x = ConfidenceMedium).
Proof.
  unfold runImpliesEngine.
  destruct (loop_terminates apps (S (measure apps {| queue := seed; processed := [];
              detected := d0 |})) {| queue := seed; processed := []; detected := d0 |})
    as (s & Hs & _); [lia|].
  exists s. split; [done|].
  assert (Hi : seed_inv apps d0 s) by (apply (run_seed_inv apps seed); exact Hs).
  destruct Hi as [Hkeep Hnew]. split; [done|].
  intros k x Hk Hk0. destruct (Hnew _ _ Hk Hk0) as (t & src & app & H1 & H2 & H3 & H4 & ->).
  exists t, src, app. done.
Qed.

End ImpliesProofs.

Module MatcherProofs.
Import Engine Frame.
Local Open Scope string_scope.
Local Open Scope list_scope.

#[global] Instance ConfidenceLevel_eq_dec : EqDecision ConfidenceLevel.
Proof. solve_decision. Defined.
#[global] Instance Detection_eq_dec : EqDecision Detection.
Proof. intros [] []. solve_decision. Defined.

Section Generic.
Context (P : Detection → Prop) (a : string).

Lemma PW_comp (f g : gmap string Detection → gmap string Detection) :
  PW P a f → PW P a g → PW P a (fun d => g (f d)).
Proof.
  intros [Kf|(v&Hv&Hf)] [Kg|(w&Hw&Hg)]; unfold PW, Keeps, Hit in *.
  - left. intros d. by rewrite Kg, Kf.
  - right. exists w. split; [done|]. intros d. apply Hg.
  - right. exists v. split; [done|]. intros d. by rewrite Kg, Hf.
  - right. exists w. split; [done|]. intros d. apply Hg.
Qed.

Lemma Hit_comp_l (f g : gmap string Detection → gmap string Detection) :
  Hit P a f → PW P a g → Hit P a (fun d => g (f d)).
Proof.
  intros (v&Hv&Hf) [Kg|(w&Hw&Hg)].
  - exists v. split; [done|]. intros d. by rewrite Kg, Hf.
  - exists w. split; [done|]. intros d. apply Hg.
Qed.

Lemma Hit_comp_r (f g : gmap string Detection → gmap string Detection) :
  Hit P a g → Hit P a (fun d => g (f d)).
Proof. intros (w&Hw&Hg). exists w. split; [done|]. intros d. apply Hg. Qed.

Lemma PW_fold {X} (step : gmap string Detection → X → gmap string Detection) (l : list X) :
  (∀ x, x ∈ l → PW P a (fun d => step d x)) →
  PW P a (fun d => fold_left step l d).
Proof.
  induction l as [|x l IH]; intros Hl; simpl.
  - left. intros d. done.
  - apply (PW_comp (fun d => step d x) (fun d => fold_left step l d)).
    + apply Hl. left.
    + apply IH. intros y Hy. apply Hl. by right.
Qed.

Lemma Hit_fold {X} (step : gmap string Detection → X → gmap string Detection) (l : list X) (x0 : X) :
  (∀ x, x ∈ l → PW P a (fun d => step d x)) → x0 ∈ l →
  Hit P a (fun d => step d x0) →
  Hit P a (fun d => fold_left step l d).
Proof.
  induction l as [|x l IH]; intros Hl Hx0 Hh; simpl.
  - by apply elem_of_nil in Hx0.
  - apply elem_of_cons in Hx0 as [->|Hx0].
    + apply (Hit_comp_l (fun d => step d x) (fun d => fold_left step l d)); [done|].
      apply PW_fold. intros y Hy. apply Hl. by right.
    + apply (Hit_comp_r (fun d => step d x) (fun d => fold_left step l d)).
      apply IH; [|done|done]. intros y Hy. apply Hl. by right.
Qed.

Lemma PW_insert_opt {Y} (o : option Y) (k : string) (g : Y → Detection) :
  (∀ y, o = Some y → k = a → P (g y)) →
  PW P a (fun d => match o with Some y => <[k := g y]> d | None => d end).
Proof.
  intros Hg. destruct o as [y|].
  - destruct (decide (k = a)) as [->|Hne].
    + right. exists (g y). split; [by apply Hg|]. intros d. apply lookup_insert_eq.
    + left. intros d. by apply lookup_insert_ne.
  - left. intros d. done.
Qed.

Lemma PW_is_Some (f : gmap string Detection → gmap string Detection) d :
  PW P a f → is_Some (d !! a) → is_Some (f d !! a).
Proof. intros [K|(v&_&H)] Hs; [by rewrite K|rewrite H; eauto]. Qed.

Lemma Hit_is_Some (f : gmap string Detection → gmap string Detection) d : Hit P a f → is_Some (f d !! a).
Proof. intros (v&_&H). rewrite H. eauto. Qed.

End Generic.

Lemma fold_changed {X} (step : gmap string Detection → X → gmap string Detection) (l : list X) d a :
  fold_left step l d !! a ≠ d !! a →
  ∃ x d', x ∈ l ∧ step d' x !! a ≠ d' !! a.
Proof.
  revert d. induction l as [|x l IH]; intros d H; simpl in *; [done|].
  destruct (decide (step d x !! a = d !! a)) as [E|E].
  - rewrite <- E in H. destruct (IH _ H) as (y&d'&Hy&Hd').
    exists y, d'. split; [by right|done].
  - exists x, d. split; [left|done].
Qed.

Lemma fold_preserves {X} (step : gmap string Detection → X → gmap string Detection) (l : list X) :
  (∀ x, Preserves (fun d => step d x)) → Preserves (fun d => fold_left step l d).
Proof.
  intros Hs. induction l as [|x l IH]; intros d k v Hd; simpl; [done|].
  apply IH. by apply Hs.
Qed.

Section Matchers.
Context {Regexp : Type} (rs : Regexp → string)
  (mwt : Regexp → string → option (string * list string))
  (ev : gmap string string → list string → string).

Lemma PW_first_input pi by_ c inputs a :
  PW (has_conf c) a (first_input Regexp rs mwt ev pi by_ c inputs).
Proof.
  induction inputs as [|v vs IH]; simpl.
  - left. intros d. done.
  - destruct (mwt (Pattern pi) v) as [sm|] eqn:E.
    + apply (PW_insert_opt (has_conf c) a (Some sm) (AppName pi) (fun sm => mk_detection Regexp rs ev pi sm by_ c)).
      by intros ? [= <-] _.
    + exact IH.
Qed.

Lemma Hit_first_input pi by_ c inputs v sm :
  v ∈ inputs → mwt (Pattern pi) v = Some sm →
  Hit (has_conf c) (AppName pi) (first_input Regexp rs mwt ev pi by_ c inputs).
Proof.
  induction inputs as [|w ws IH]; intros Hv Hm; simpl.
  - by apply elem_of_nil in Hv.
  - destruct (mwt (Pattern pi) w) as [sm'|] eqn:E.
    + eexists. split; [|intros d; apply lookup_insert_eq]. done.
    + apply elem_of_cons in Hv as [->|Hv]; [congruence|]. by apply IH.
Qed.

Lemma PW_first_pattern pats by_ c v a :
  PW (has_conf c) a (first_pattern Regexp rs mwt ev pats by_ c v).
Proof.
  induction pats as [|pi ps IH]; simpl.
  - left. intros d. done.
  - destruct (mwt (Pattern pi) v) as [sm|] eqn:E.
    + apply (PW_insert_opt (has_conf c) a (Some sm) (AppName pi) (fun sm => mk_detection Regexp rs ev pi sm by_ c)).
      by intros ? [= <-] _.
    + exact IH.
Qed.


Lemma every_pattern_step_PW pi by_ c v a :
  PW (has_conf c) a (fun d => match mwt (Pattern pi) v with
                         | Some sm => <[AppName pi := mk_detection Regexp rs ev pi sm by_ c]> d
                         | None => d end).
Proof.
  apply (PW_insert_opt (has_conf c) a (mwt (Pattern pi) v) (AppName pi)
           (fun sm => mk_detection Regexp rs ev pi sm by_ c)).
  by intros ? _ _.
Qed.

Lemma PW_every_pattern pats by_ c v a :
  PW (has_conf c) a (every_pattern Regexp rs mwt ev pats by_ c v).
Proof.
  unfold every_pattern. apply PW_fold. intros pi _. apply every_pattern_step_PW.
Qed.


End Matchers.
Section Vectors.
Context (tl : string → string).
Context {Regexp : Type} (rs : Regexp → string)
  (mwt : Regexp → string → option (string * list string))
  (ev : gmap string string → list string → string)
  (psc : string → option (string * string))
  (jpm : string → list (list string))
  (df : Dom.Doc → string → bool).

Lemma PW_matchHeaders m headers a :
  PW (has_conf ConfidenceHigh) a (matchHeaders tl Regexp rs mwt ev m headers).
Proof.
  unfold matchHeaders. apply PW_fold. intros [hk vs] _. simpl.
  destruct (HeaderPatterns m !! tl hk) as [pats|]; [|left; intros d; done].
  apply PW_fold. intros pi _. apply PW_first_input.
Qed.

Lemma Hit_matchHeaders m headers hk values pats pi v sm :
  (hk, values) ∈ headers → HeaderPatterns m !! tl hk = Some pats →
  pi ∈ pats → v ∈ values → mwt (Pattern pi) v = Some sm →
  Hit (has_conf ConfidenceHigh) (AppName pi) (matchHeaders tl Regexp rs mwt ev m headers).
Proof.
  intros Hh Hp Hpi Hv Hm. unfold matchHeaders.
  apply (Hit_fold _ _ _ _ (hk, values)); [|done|].
  - intros [hk' vs] _. simpl.
    destruct (HeaderPatterns m !! tl hk') as [pats'|]; [|left; intros d; done].
    apply PW_fold. intros pi' _. apply PW_first_input.
  - simpl. rewrite Hp. apply (Hit_fold _ _ _ _ pi); [|done|].
    + intros pi' _. apply PW_first_input.
    + by eapply Hit_first_input.
Qed.

Lemma PW_matchCookies m headers a :
  PW (has_conf ConfidenceHigh) a (matchCookies tl Regexp rs mwt ev psc m headers).
Proof.
  unfold matchCookies. apply PW_fold. intros [ck v] _. simpl.
  destruct (CookiePatterns m !! ck) as [pats|]; [|left; intros d; done].
  apply PW_first_pattern.
Qed.


Lemma PW_matchScriptSrc m pd a :
  PW (has_conf ConfidenceHigh) a (matchScriptSrc Regexp rs mwt ev m pd).
Proof. unfold matchScriptSrc. apply PW_fold. intros pi _. apply PW_first_input. Qed.


Lemma PW_matchMeta m pd a :
  PW (has_conf ConfidenceMedium) a (matchMeta tl Regexp rs mwt ev m pd).
Proof.
  unfold matchMeta. apply PW_fold. intros [k cs] _. simpl.
  destruct (MetaPatterns m !! tl k) as [pats|]; [|left; intros d; done].
  apply PW_fold. intros pi _. apply PW_first_input.
Qed.

Lemma Hit_matchMeta m pd k contents pats pi content sm :
  MetaContent pd !! k = Some contents → MetaPatterns m !! tl k = Some pats →
  pi ∈ pats → content ∈ contents → mwt (Pattern pi) content = Some sm →
  Hit (has_conf ConfidenceMedium) (AppName pi) (matchMeta tl Regexp rs mwt ev m pd).
Proof.
  intros Hk Hp Hpi Hc Hm. unfold matchMeta.
  apply (Hit_fold _ _ _ _ (k, contents)).
  - intros [k' cs] _. simpl.
    destruct (MetaPatterns m !! tl k') as [pats'|]; [|left; intros d; done].
    apply PW_fold. intros pi' _. apply PW_first_input.
  - by apply elem_of_map_to_list.
  - simpl. rewrite Hp. apply (Hit_fold _ _ _ _ pi); [|done|].
    + intros pi' _. apply PW_first_input.
    + by eapply Hit_first_input.
Qed.

Lemma PW_js_assignment m mt a :
  PW (has_conf ConfidenceHigh) a (fun d => js_assignment Regexp rs mwt ev d m mt).
Proof.
  unfold js_assignment. destruct (Nat.ltb _ _); [left; intros d; done|].
  destruct (String.eqb _ _); [left; intros d; done|].
  destruct (JSPatterns m !! _); [apply PW_first_pattern|left; intros d; done].
Qed.

Lemma PW_matchJS m pd a :
  PW (has_conf ConfidenceHigh) a (matchJS Regexp rs mwt ev jpm m pd).
Proof.
  unfold matchJS. destruct (decide (JSPatterns m = ∅)); [left; intros d; done|].
  apply PW_fold. intros script _. apply PW_fold. intros mt _. apply PW_js_assignment.
Qed.


Lemma PW_matchURL m data a :
  PW (has_conf ConfidenceMedium) a (matchURL Regexp rs mwt ev m data).
Proof. apply PW_every_pattern. Qed.


Lemma PW_matchRobots m data a :
  PW (has_conf ConfidenceMedium) a (matchRobots Regexp rs mwt ev m data).
Proof.
  unfold matchRobots. destruct (RobotsContent data); [apply PW_every_pattern|left; intros d; done].
Qed.


Lemma PW_matchDNS m data a :
  PW (has_conf ConfidenceHigh) a (matchDNS Regexp rs mwt ev m data).
Proof.
  unfold matchDNS. destruct (DNSRecords data) as [recs|]; [|left; intros d; done].
  apply PW_fold. intros [rt pats] _. simpl.
  destruct (recs !! rt); [|left; intros d; done].
  apply PW_fold. intros pi _. apply PW_first_input.
Qed.


Lemma PW_matchCertIssuer m data a :
  PW (has_conf ConfidenceHigh) a (matchCertIssuer Regexp rs mwt ev m data).
Proof.
  unfold matchCertIssuer. destruct (String.eqb _ _); [left; intros d; done|].
  apply PW_fold. intros [k pats] _. apply PW_every_pattern.
Qed.


Lemma dom_step_PW doc pi a :
  PW (has_conf ConfidenceLow) a
    (fun d => if df doc (rs (Pattern pi))
              then <[AppName pi := dom_detection (rs (Pattern pi))]> d else d).
Proof.
  destruct (df doc (rs (Pattern pi))); [|left; intros d; done].
  destruct (decide (AppName pi = a)) as [<-|Hne].
  - right. eexists. split; [|intros d; apply lookup_insert_eq]. done.
  - left. intros d. by apply lookup_insert_ne.
Qed.

Lemma PW_matchDOM m data a :
  PW (has_conf ConfidenceLow) a (matchDOM Regexp rs df m data).
Proof.
  unfold matchDOM. destruct (PageData_ data) as [pd|]; [|left; intros d; done].
  destruct (GoQueryDoc pd) as [doc|]; [|left; intros d; done].
  apply PW_fold. intros pi _. apply dom_step_PW.
Qed.


(** The guarded matchers. *)

Lemma first_input_preserves_other pi by_ c inputs d k :
  k ≠ AppName pi → first_input Regexp rs mwt ev pi by_ c inputs d !! k = d !! k.
Proof.
  intros Hne. induction inputs as [|v vs IH]; simpl; [done|].
  destruct (mwt (Pattern pi) v); [by apply lookup_insert_ne|done].
Qed.

Lemma matchScript_preserves m pd : Preserves (matchScript Regexp rs mwt ev m pd).
Proof.
  unfold matchScript. apply fold_preserves. intros pi d k x Hd. cbv beta.
  case_match eqn:E; [done|].
  rewrite first_input_preserves_other; [done|congruence].
Qed.

Lemma matchHTML_preserves m pd : Preserves (matchHTML Regexp rs mwt ev m pd).
Proof.
  unfold matchHTML. apply fold_preserves. intros pi d k x Hd. cbv beta.
  case_match eqn:E; [done|].
  case_match; [|done]. rewrite lookup_insert_ne; [done|congruence].
Qed.

Lemma matchCSS_preserves m pd : Preserves (matchCSS Regexp rs mwt ev m pd).
Proof.
  unfold matchCSS. apply fold_preserves. intros block. apply fold_preserves.
  intros pi d k x Hd. cbv beta.
  case_match eqn:E; [done|].
  case_match; [|done]. rewrite lookup_insert_ne; [done|congruence].
Qed.






End Vectors.

Section DomFacts.
Import Dom.

Lemma node_elements_el t a cs :
  node_elements (ElementNode t a cs) = ElementNode t a cs :: concat (map node_elements cs).
Proof. simpl. f_equal. induction cs as [|c cs IH]; simpl; [done|]. by rewrite IH. Qed.

Lemma node_text_el t a cs :
  node_text (ElementNode t a cs) = Str.concat_all (map node_text cs).
Proof. simpl. induction cs as [|c cs IH]; simpl; [done|]. by rewrite IH. Qed.

Lemma concat_map_edit (e : Node → Node) (g : Node → Node) (cs : list Node) :
  Forall (fun c => node_elements (g c) = map e (node_elements c)) cs →
  concat (map node_elements (map g cs)) = map e (concat (map node_elements cs)).
Proof.
  induction 1 as [|c cs Hc _ IH]; simpl; [done|]. by rewrite map_app, Hc, IH.
Qed.

(** An edit that maps every element to an element with the same tag and
    attributes, and the elements of an edited subtree are the edited
    elements. *)
Section Edit.
Variable e : Node → Node.
Hypothesis e_elements : ∀ n, node_elements (e n) = map e (node_elements n).
Hypothesis e_tag : ∀ n, tag_of (e n) = tag_of n.
Hypothesis e_attrs : ∀ n, attrs_of (e n) = attrs_of n.

Lemma doc_elements_edit doc : doc_elements (map e doc) = map e (doc_elements doc).
Proof.
  unfold doc_elements. induction doc as [|n doc IH]; simpl; [done|].
  by rewrite map_app, e_elements, IH.
Qed.

Lemma filter_map_edit (p : Node → bool) (l : list Node) :
  (∀ n, p (e n) = p n) →
  filter (fun n => p n = true) (map e l) = map e (filter (fun n => p n = true) l).
Proof.
  intros Hp. induction l as [|n l IH]; simpl; [done|].
  rewrite !filter_cons, Hp. case_decide; simpl; by rewrite IH.
Qed.

Lemma find_edit (p : Node → bool) doc :
  (∀ n, p (e n) = p n) → find p (map e doc) = map e (find p doc).
Proof. intros Hp. unfold find. rewrite doc_elements_edit. by apply filter_map_edit. Qed.

Lemma has_attr_edit k n : has_attr k (e n) = has_attr k n.
Proof. unfold has_attr. by rewrite e_attrs. Qed.

Lemma is_tag_edit t n : is_tag t (e n) = is_tag t n.
Proof. unfold is_tag. by rewrite e_tag. Qed.

End Edit.

Lemma edit_comments_elements f n :
  node_elements (edit_comments f n) = map (edit_comments f) (node_elements n).
Proof.
  induction n as [t a cs IH| | |] using Node_ind'; try done.
  simpl edit_comments. rewrite !node_elements_el. simpl. f_equal.
  apply concat_map_edit. exact IH.
Qed.

Lemma edit_comments_tag f n : tag_of (edit_comments f n) = tag_of n.
Proof. by destruct n. Qed.

Lemma edit_comments_attrs f n : attrs_of (edit_comments f n) = attrs_of n.
Proof. by destruct n. Qed.

Lemma edit_comments_text f n : node_text (edit_comments f n) = node_text n.
Proof.
  induction n as [t a cs IH| | |] using Node_ind'; try done.
  simpl edit_comments. rewrite !node_text_el. f_equal.
  induction IH as [|c cs Hc _ IH']; simpl; [done|]. by rewrite Hc, IH'.
Qed.

Lemma edit_raw_text_elements f n :
  node_elements (edit_raw_text f n) = map (edit_raw_text f) (node_elements n).
Proof.
  induction n as [t a cs IH| | |] using Node_ind'; try done.
  simpl edit_raw_text. rewrite !node_elements_el. simpl. f_equal.
  apply concat_map_edit. induction IH as [|c cs Hc _ IH']; constructor; [|done].
  destruct c; try done. by destruct (is_raw_text_tag t).
Qed.

Lemma edit_raw_text_tag f n : tag_of (edit_raw_text f n) = tag_of n.
Proof. by destruct n. Qed.

Lemma edit_raw_text_attrs f n : attrs_of (edit_raw_text f n) = attrs_of n.
Proof. by destruct n. Qed.

Lemma inline_scripts_edit_comments f doc :
  inline_scripts (map (edit_comments f) doc) = inline_scripts doc.
Proof.
  unfold inline_scripts.
  rewrite (find_edit _ (edit_comments_elements f));
    [|intros n; by rewrite (is_tag_edit _ (edit_comments_tag f)),
                           (has_attr_edit _ (edit_comments_attrs f))].
  rewrite map_map. apply map_ext. apply edit_comments_text.
Qed.

Lemma visible_children_edit_comments f cs :
  map node_text (filter (fun n => is_text n = true) (map (edit_comments f) cs)) =
  map node_text (filter (fun n => is_text n = true) cs).
Proof.
  induction cs as [|c cs IH]; simpl; [done|].
  rewrite !filter_cons.
  assert (is_text (edit_comments f c) = is_text c) as -> by (by destruct c).
  case_decide; simpl; [|done]. by rewrite edit_comments_text, IH.
Qed.

Lemma visible_text_edit_comments f doc :
  visible_text (map (edit_comments f) doc) = visible_text doc.
Proof.
  unfold visible_text.
  rewrite (find_edit _ (edit_comments_elements f));
    [|intros n; by rewrite (is_tag_edit _ (edit_comments_tag f))].
  rewrite map_map. f_equal. f_equal. apply map_ext. intros [t a cs| | |]; try done.
  apply visible_children_edit_comments.
Qed.

Lemma visible_children_edit_raw_text f t cs :
  is_raw_text_tag t = false →
  map node_text (filter (fun n => is_text n = true)
    (map (fun c => match c with
                   | TextNode s => if is_raw_text_tag t then TextNode (f s) else c
                   | _ => edit_raw_text f c
                   end) cs)) =
  map node_text (filter (fun n => is_text n = true) cs).
Proof.
  intros Ht. rewrite Ht. induction cs as [|c cs IH]; simpl; [done|].
  rewrite !filter_cons. destruct c; simpl; repeat case_decide; simpl; try done; by rewrite IH.
Qed.

Lemma visible_text_edit_raw_text f doc :
  visible_text (map (edit_raw_text f) doc) = visible_text doc.
Proof.
  unfold visible_text.
  rewrite (find_edit _ (edit_raw_text_elements f));
    [|intros n; by rewrite (is_tag_edit _ (edit_raw_text_tag f))].
  rewrite map_map. f_equal. f_equal. apply map_ext_in. intros b Hb.
  apply list_elem_of_In, list_elem_of_filter in Hb as [Hb _].
  destruct b as [t a cs| | |]; try done. simpl edit_raw_text. simpl children_of.
  apply visible_children_edit_raw_text.
  unfold is_tag in Hb. simpl in Hb. apply String.eqb_eq in Hb. by subst.
Qed.

Definition inline_script_sel (n : Node) : bool := is_tag "script" n && negb (has_attr "src" n).

Lemma filter_scripts_edit_outside f n :
  filter (fun n => inline_script_sel n = true) (node_elements (edit_outside_scripts f n)) =
  filter (fun n => inline_script_sel n = true) (node_elements n).
Proof.
  induction n as [t a cs IH| | |] using Node_ind'; try done.
  simpl edit_outside_scripts. destruct (String.eqb t "script") eqn:Et; [done|].
  rewrite !node_elements_el, !filter_cons.
  assert (inline_script_sel (ElementNode t a cs) = false) as Hs
    by (unfold inline_script_sel, is_tag; simpl; by rewrite Et).
  assert (inline_script_sel (ElementNode t a (map (edit_outside_scripts f) cs)) = false) as Hs'
    by (unfold inline_script_sel, is_tag; simpl; by rewrite Et).
  rewrite !decide_False by (by rewrite ?Hs, ?Hs').
  induction IH as [|c cs Hc _ IH']; simpl; [done|].
  by rewrite !filter_app, Hc, IH'.
Qed.

Lemma inline_scripts_edit_outside_scripts f doc :
  inline_scripts (map (edit_outside_scripts f) doc) = inline_scripts doc.
Proof.
  unfold inline_scripts, find, doc_elements. f_equal.
  induction doc as [|n doc IH]; simpl; [done|].
  rewrite !filter_app. f_equal; [|done].
  apply filter_scripts_edit_outside.
Qed.

End DomFacts.

Section Sound.
Context {Regexp : Type} (rs : Regexp → string)
  (mwt : Regexp → string → option (string * list string))
  (ev : gmap string string → list string → string).

Lemma first_input_changed pi by_ c inputs d a :
  first_input Regexp rs mwt ev pi by_ c inputs d !! a ≠ d !! a →
  AppName pi = a ∧ ∃ v sm, v ∈ inputs ∧ mwt (Pattern pi) v = Some sm.
Proof.
  induction inputs as [|v vs IH]; simpl; [done|].
  destruct (mwt (Pattern pi) v) as [sm|] eqn:E; intros H.
  - destruct (decide (AppName pi = a)) as [<-|Hne].
    + split; [done|]. exists v, sm. split; [left|done].
    + by rewrite lookup_insert_ne in H.
  - destruct (IH H) as [? (w&sm&Hw&Hm)]. split; [done|]. exists w, sm. split; [by right|done].
Qed.

Lemma matchScript_sound m pd d a v :
  d !! a = None → matchScript Regexp rs mwt ev m pd d !! a = Some v →
  ∃ pi s sm, pi ∈ ScriptPatterns m ∧ AppName pi = a ∧ s ∈ InlineScripts pd ∧
             mwt (Pattern pi) s = Some sm.
Proof.
  intros Hd Hr.
  assert (H : matchScript Regexp rs mwt ev m pd d !! a ≠ d !! a) by congruence.
  unfold matchScript in H. apply fold_changed in H as (pi&d'&Hpi&Hch).
  revert Hch. case_match; [done|]. intros Hch.
  destruct (first_input_changed _ _ _ _ _ _ Hch) as [Ha (s&sm&Hs&Hm)].
  by exists pi, s, sm.
Qed.

Lemma matchHTML_sound m pd d a v :
  d !! a = None → matchHTML Regexp rs mwt ev m pd d !! a = Some v →
  ∃ pi sm, pi ∈ HTMLPatterns m ∧ AppName pi = a ∧ mwt (Pattern pi) (VisibleText pd) = Some sm.
Proof.
  intros Hd Hr.
  assert (H : matchHTML Regexp rs mwt ev m pd d !! a ≠ d !! a) by congruence.
  unfold matchHTML in H. apply fold_changed in H as (pi&d'&Hpi&Hch).
  revert Hch. case_match; [done|].
  destruct (mwt (Pattern pi) (VisibleText pd)) as [sm|] eqn:Hm; [|done]. intros Hch.
  destruct (decide (AppName pi = a)) as [<-|Hne].
  - by exists pi, sm.
  - by rewrite lookup_insert_ne in Hch.
Qed.


Lemma matchScript_inputs m pd pd' d :
  InlineScripts pd = InlineScripts pd' →
  matchScript Regexp rs mwt ev m pd d = matchScript Regexp rs mwt ev m pd' d.
Proof. intros H. unfold matchScript. by rewrite H. Qed.

Lemma matchHTML_inputs m pd pd' d :
  VisibleText pd = VisibleText pd' →
  matchHTML Regexp rs mwt ev m pd d = matchHTML Regexp rs mwt ev m pd' d.
Proof. intros H. unfold matchHTML. by rewrite H. Qed.

End Sound.

Section CaseFacts.
Import CaseFold.

Section Vectors.
Context (tl : string → string).
Context {Regexp : Type} (rs : Regexp → string)
  (mwt : Regexp → string → option (string * list string))
  (ev : gmap string string → list string → string)
  (psc : string → option (string * string))
  (rc : string → option Regexp).

Lemma matchHeaders_detected m h d a :
  is_Some (matchHeaders tl Regexp rs mwt ev m h d !! a) ↔
  is_Some (d !! a) ∨
  ∃ hk vs pats pi v sm, (hk, vs) ∈ h ∧ HeaderPatterns m !! tl hk = Some pats ∧
    pi ∈ pats ∧ AppName pi = a ∧ v ∈ vs ∧ mwt (Pattern pi) v = Some sm.
Proof.
  split.
  - intros Hs. destruct (d !! a) eqn:Hd; [left; eauto|right].
    assert (H : matchHeaders tl Regexp rs mwt ev m h d !! a ≠ d !! a)
      by (rewrite Hd; destruct Hs as [? ->]; done).
    unfold matchHeaders in H. apply fold_changed in H as ([hk vs]&d1&Hx&H).
    revert H. simpl. destruct (HeaderPatterns m !! tl hk) as [pats|] eqn:Hp; [|done].
    intros H. apply fold_changed in H as (pi&d2&Hpi&H).
    apply first_input_changed in H as [Ha (v&sm&Hv&Hm)].
    by exists hk, vs, pats, pi, v, sm.
  - intros [Hd|(hk&vs&pats&pi&v&sm&Hx&Hp&Hpi&<-&Hv&Hm)].
    + eapply (PW_is_Some (has_conf ConfidenceHigh)); [apply PW_matchHeaders|done].
    + by eapply Hit_is_Some, Hit_matchHeaders.
Qed.

Lemma matchMeta_detected m pd d a :
  is_Some (matchMeta tl Regexp rs mwt ev m pd d !! a) ↔
  is_Some (d !! a) ∨
  ∃ k cs pats pi c sm, MetaContent pd !! k = Some cs ∧ MetaPatterns m !! tl k = Some pats ∧
    pi ∈ pats ∧ AppName pi = a ∧ c ∈ cs ∧ mwt (Pattern pi) c = Some sm.
Proof.
  split.
  - intros Hs. destruct (d !! a) eqn:Hd; [left; eauto|right].
    assert (H : matchMeta tl Regexp rs mwt ev m pd d !! a ≠ d !! a)
      by (rewrite Hd; destruct Hs as [? ->]; done).
    unfold matchMeta in H. apply fold_changed in H as ([k cs]&d1&Hx&H).
    apply elem_of_map_to_list in Hx.
    revert H. simpl. destruct (MetaPatterns m !! tl k) as [pats|] eqn:Hp; [|done].
    intros H. apply fold_changed in H as (pi&d2&Hpi&H).
    apply first_input_changed in H as [Ha (c&sm&Hc&Hm)].
    by exists k, cs, pats, pi, c, sm.
  - intros [Hd|(k&cs&pats&pi&c&sm&Hk&Hp&Hpi&<-&Hc&Hm)].
    + eapply (PW_is_Some (has_conf ConfidenceMedium)); [apply PW_matchMeta|done].
    + by eapply Hit_is_Some, Hit_matchMeta.
Qed.

Lemma parsed_cookies_cookie_entry h h' :
  Forall2 (fun r r' => cookie_entry tl (psc r) = cookie_entry tl (psc r'))
    (header_values "Set-Cookie" h) (header_values "Set-Cookie" h') →
  parsed_cookies tl psc h = parsed_cookies tl psc h'.
Proof.
  unfold parsed_cookies. intros H. generalize (∅ : gmap string string).
  induction H as [|r r' l l' Hr _ IH]; intros pc; simpl; [done|].
  rewrite <- IH. f_equal. unfold cookie_entry in Hr.
  destruct (psc r) as [[n v]|], (psc r') as [[n' v']|];
    repeat (destruct (String.eqb _ _)); congruence.
Qed.

Lemma fold_left_fmap {A B C} (f : A → C → A) (g : B → C) (l : list B) (x : A) :
  fold_left f (g <$> l) x = fold_left (fun acc y => f acc (g y)) l x.
Proof. revert x. induction l as [|y l IH]; intros x; simpl; [done|]. apply IH. Qed.

Lemma add_keyed_lowered n pats pats' acc :
  map (fun '(k, p) => (tl k, p)) pats = map (fun '(k, p) => (tl k, p)) pats' →
  add_keyed Regexp rc tl n pats acc = add_keyed Regexp rc tl n pats' acc.
Proof.
  unfold add_keyed. revert pats' acc.
  induction pats as [|[k p] pats IH]; intros [|[k' p'] pats'] acc H; simpl in *; try done.
  injection H as Hk Hp H. subst p'. rewrite Hk. by apply IH.
Qed.

Lemma add_meta_patterns_lowered n metas metas' acc :
  map (fun '(k, ps) => (tl k, ps)) metas = map (fun '(k, ps) => (tl k, ps)) metas' →
  add_meta_patterns tl Regexp rc n metas acc = add_meta_patterns tl Regexp rc n metas' acc.
Proof.
  unfold add_meta_patterns. revert metas' acc.
  induction metas as [|[k ps] metas IH]; intros [|[k' ps'] metas'] acc H; simpl in *; try done.
  injection H as Hk Hp H. subst ps'. rewrite Hk. by apply IH.
Qed.

Lemma build_app_lowered m n af af' :
  lower_keys tl af = lower_keys tl af' →
  build_app tl Regexp rc m (n, af) = build_app tl Regexp rc m (n, af').
Proof.
  intros H. unfold build_app.
  destruct af, af'. unfold lower_keys in H. simpl in *.
  injection H as ? Hc ? Hh ? ? ? Hm ? ? ? ? ? ?. subst. simpl.
  by rewrite (add_keyed_lowered n _ _ _ Hh), (add_keyed_lowered n _ _ _ Hc),
    (add_meta_patterns_lowered n _ _ _ Hm).
Qed.

(** The matcher built from a database depends only on the lowered
    header, cookie and meta names. *)
Lemma build_lowered apps apps' :
  lower_keys tl <$> apps = lower_keys tl <$> apps' →
  BuildEfficientMatcher tl Regexp rc apps = BuildEfficientMatcher tl Regexp rc apps'.
Proof.
  intros H. unfold BuildEfficientMatcher.
  assert (Hl : (prod_map id (lower_keys tl) <$> map_to_list apps) =
               (prod_map id (lower_keys tl) <$> map_to_list apps')).
  { by rewrite <- !map_to_list_fmap, H. }
  generalize (empty_matcher Regexp). revert Hl. generalize (map_to_list apps'). generalize (map_to_list apps).
  intros l. induction l as [|[n af] l IH]; intros [|[n' af'] l'] Hl m; try done.
  rewrite !fmap_cons in Hl. apply (inj2 cons) in Hl as [Hx Hl].
  change ((n, lower_keys tl af) = (n', lower_keys tl af')) in Hx.
  apply pair_equal_spec in Hx as [<- Ha].
  cbn [fold_left]. rewrite (build_app_lowered m n af af' Ha). by apply IH.
Qed.

End Vectors.
End CaseFacts.

Section Claims.
Context (tl : string → string).
Context {Regexp : Type} (rs : Regexp → string)
  (mwt : Regexp → string → option (string * list string))
  (ev : gmap string string → list string → string)
  (psc : string → option (string * string))
  (jpm : string → list (list string))
  (df : Dom.Doc → string → bool).


End Claims.

Section CaseClaim.
Context (tl : string → string).
Import CaseFold.
Context {Regexp : Type} (rs : Regexp → string)
  (mwt : Regexp → string → option (string * list string))
  (ev : gmap string string → list string → string)
  (psc : string → option (string * string))
  (rc : string → option Regexp).

(** C8 (corrected). Header, cookie and meta names enter detection only
    through strings.ToLower ([tl]; for cookies, of the TrimSpace'd name).
    Two databases whose header, cookie and meta names have the same
    strings.ToLower build the same matcher; response headers, cookies (as
    parsed from the Set-Cookie values) and meta names that agree once
    lowered give the same set of detected applications from matchHeaders,
    matchCookies and matchMeta.  Nothing is assumed about [tl], so this
    holds for Go's Unicode lowering. *)
Theorem case_insensitive_names :
  (∀ apps apps', lower_keys tl <$> apps = lower_keys tl <$> apps' →
     BuildEfficientMatcher tl Regexp rc apps = BuildEfficientMatcher tl Regexp rc apps') ∧
  (∀ m h h' d, same_lowered tl h h' →
     dom (matchHeaders tl Regexp rs mwt ev m h d) = dom (matchHeaders tl Regexp rs mwt ev m h' d)) ∧
  (∀ m h h' d,
     Forall2 (fun r r' => cookie_entry tl (psc r) = cookie_entry tl (psc r'))
       (header_values "Set-Cookie" h) (header_values "Set-Cookie" h') →
     matchCookies tl Regexp rs mwt ev psc m h d = matchCookies tl Regexp rs mwt ev psc m h' d) ∧
  (∀ m pd pd' d, same_lowered_map tl (MetaContent pd) (MetaContent pd') →
     dom (matchMeta tl Regexp rs mwt ev m pd d) = dom (matchMeta tl Regexp rs mwt ev m pd' d)).
Proof.
  split_and!.
  - intros apps apps' H. by apply build_lowered.
  - intros m h h' d Hs. apply set_eq. intros a. rewrite !elem_of_dom, !matchHeaders_detected.
    apply or_iff_compat_l. split.
    + intros (hk&vs&pats&pi&v&sm&Hx&Hp&Hpi&Ha&Hv&Hm).
      destruct (proj1 (Hs (tl hk) vs) (ex_intro _ hk (conj eq_refl Hx))) as (k&Hk&Hx').
      exists k, vs, pats, pi, v, sm. by rewrite Hk.
    + intros (hk&vs&pats&pi&v&sm&Hx&Hp&Hpi&Ha&Hv&Hm).
      destruct (proj2 (Hs (tl hk) vs) (ex_intro _ hk (conj eq_refl Hx))) as (k&Hk&Hx').
      exists k, vs, pats, pi, v, sm. by rewrite Hk.
  - intros m h h' d H. unfold matchCookies. by rewrite (parsed_cookies_cookie_entry tl psc h h' H).
  - intros m pd pd' d Hs. apply set_eq. intros a. rewrite !elem_of_dom, !matchMeta_detected.
    apply or_iff_compat_l. split.
    + intros (k&cs&pats&pi&c&sm&Hk&Hp&Hpi&Ha&Hc&Hm).
      destruct (proj1 (Hs (tl k) cs) (ex_intro _ k (conj eq_refl Hk))) as (k'&Hk'&Hx').
      exists k', cs, pats, pi, c, sm. by rewrite Hk'.
    + intros (k&cs&pats&pi&c&sm&Hk&Hp&Hpi&Ha&Hc&Hm).
      destruct (proj2 (Hs (tl k) cs) (ex_intro _ k (conj eq_refl Hk))) as (k'&Hk'&Hx').
      exists k', cs, pats, pi, c, sm. by rewrite Hk'.
Qed.

End CaseClaim.

Import Examples.



Section ContextIsolation.
Context {Regexp : Type} (rs : Regexp → string)
  (mwt : Regexp → string → option (string * list string))
  (ev : gmap string string → list string → string).

(** C4. Context isolation of the script and html vectors on the
    PageData that collectDataFromDOM builds from a parsed document: a
    script-vector detection of a new application comes from a pattern
    that succeeds on the text of a <script> element without a src
    attribute; rewriting comments, or any text outside <script>
    elements, changes nothing the script vector produces.  An html-vector
    detection comes from a pattern that succeeds on the visible body
    text, and rewriting comments or the text inside <script>/<style>
    elements changes nothing the html vector produces. *)
Theorem context_isolation :
  (∀ m body doc d a v, d !! a = None →
     matchScript Regexp rs mwt ev m (page_data body doc) d !! a = Some v →
     ∃ pi n sm, pi ∈ ScriptPatterns m ∧ AppName pi = a ∧ n ∈ Dom.doc_elements doc ∧
       Dom.is_tag "script" n = true ∧ Dom.has_attr "src" n = false ∧
       mwt (Pattern pi) (Dom.node_text n) = Some sm) ∧
  (∀ m body doc d f,
     matchScript Regexp rs mwt ev m (page_data body (map (Dom.edit_comments f) doc)) d =
     matchScript Regexp rs mwt ev m (page_data body doc) d) ∧
  (∀ m body doc d f,
     matchScript Regexp rs mwt ev m (page_data body (map (Dom.edit_outside_scripts f) doc)) d =
     matchScript Regexp rs mwt ev m (page_data body doc) d) ∧
  (∀ m pd d a v, d !! a = None → matchHTML Regexp rs mwt ev m pd d !! a = Some v →
     ∃ pi sm, pi ∈ HTMLPatterns m ∧ AppName pi = a ∧
       mwt (Pattern pi) (VisibleText pd) = Some sm) ∧
  (∀ m pd pd' d, VisibleText pd = VisibleText pd' →
     matchHTML Regexp rs mwt ev m pd d = matchHTML Regexp rs mwt ev m pd' d) ∧
  (∀ m body doc d f,
     matchHTML Regexp rs mwt ev m (page_data body (map (Dom.edit_comments f) doc)) d =
     matchHTML Regexp rs mwt ev m (page_data body doc) d) ∧
  (∀ m body doc d f,
     matchHTML Regexp rs mwt ev m (page_data body (map (Dom.edit_raw_text f) doc)) d =
     matchHTML Regexp rs mwt ev m (page_data body doc) d).
Proof.
  split_and!.
  - intros m body doc d a v Hd Hr.
    destruct (matchScript_sound _ _ _ _ _ _ _ _ Hd Hr) as (pi&s&sm&Hpi&Ha&Hs&Hm).
    simpl in Hs. unfold inline_scripts, Dom.find in Hs.
    apply list_elem_of_In, in_map_iff in Hs as (n&<-&Hn).
    apply list_elem_of_In, list_elem_of_filter in Hn as [Hsel Hn].
    apply andb_prop in Hsel as [Ht Hsrc]. apply negb_true_iff in Hsrc.
    by exists pi, n, sm.
  - intros. apply matchScript_inputs. apply inline_scripts_edit_comments.
  - intros. apply matchScript_inputs. apply inline_scripts_edit_outside_scripts.
  - intros m pd d a v Hd Hr. by eapply matchHTML_sound.
  - intros. by apply matchHTML_inputs.
  - intros. apply matchHTML_inputs. apply visible_text_edit_comments.
  - intros. apply matchHTML_inputs. apply visible_text_edit_raw_text.
Qed.

End ContextIsolation.

(** C4, witness: on the example document the script pattern "x" of "A"
    is detected from the <script> element, and the html pattern from the
    body text; the theorem's hypotheses hold there. *)
Lemma context_isolation_witness :
  (∃ pi n sm, pi ∈ ScriptPatterns ex_matcher ∧ AppName pi = "A" ∧ n ∈ Dom.doc_elements ex_doc ∧
     Dom.is_tag "script" n = true ∧ Dom.has_attr "src" n = false ∧
     ex_match (Pattern pi) (Dom.node_text n) = Some sm) ∧
  (∃ pi sm, pi ∈ HTMLPatterns ex_matcher ∧ AppName pi = "A" ∧
     ex_match (Pattern pi) (VisibleText (page_data "" ex_doc)) = Some sm) ∧
  matchHTML string (fun s => s) ex_match ex_version ex_matcher (page_data "" ex_doc) ∅ =
  matchHTML string (fun s => s) ex_match ex_version ex_matcher
    (page_data "" (map (Dom.edit_raw_text (fun _ => "")) ex_doc)) ∅.
Proof.
  destruct (context_isolation (fun s => s) ex_match ex_version) as (S1&_&_&H1&H2&_&_).
  split; [|split].
  - apply (S1 ex_matcher "" ex_doc ∅ "A"
             (mk_detection string (fun s => s) ex_version (ex_pi "A" "x") ("x", []) "script"
                ConfidenceMedium)); reflexivity.
  - apply (H1 ex_matcher (page_data "" ex_doc) ∅ "A"
             (mk_detection string (fun s => s) ex_version (ex_pi "A" "x") ("x", []) "html"
                ConfidenceLow)); reflexivity.
  - apply H2. reflexivity.
Defined.

(** C8, witness: with ASCII lowering (which is what strings.ToLower does
    on ASCII), the header name "K" against "k", the cookie "SID" against
    "sid", the meta name "K" against "k", and a database whose header name
    is "K" against one where it is "k". *)
Lemma case_insensitive_names_witness :
  BuildEfficientMatcher Str.to_lower string (fun s => Some s) {["A" := ex_header_fp "K"]} =
    BuildEfficientMatcher Str.to_lower string (fun s => Some s) {["A" := ex_header_fp "k"]} ∧
  dom (matchHeaders Str.to_lower string (fun s => s) ex_match ex_version ex_matcher [("K", ["x"])] ∅) =
    dom (matchHeaders Str.to_lower string (fun s => s) ex_match ex_version ex_matcher [("k", ["x"])] ∅) ∧
  matchCookies Str.to_lower string (fun s => s) ex_match ex_version ex_name_cookie ex_matcher
      [("Set-Cookie", ["SID"])] ∅ =
    matchCookies Str.to_lower string (fun s => s) ex_match ex_version ex_name_cookie ex_matcher
      [("Set-Cookie", ["sid"])] ∅ ∧
  dom (matchMeta Str.to_lower string (fun s => s) ex_match ex_version ex_matcher
         (ex_page_meta {["K" := ["x"]]}) ∅) =
    dom (matchMeta Str.to_lower string (fun s => s) ex_match ex_version ex_matcher
         (ex_page_meta {["k" := ["x"]]}) ∅).
Proof.
  destruct (case_insensitive_names Str.to_lower (fun s => s) ex_match ex_version ex_name_cookie
              (fun s => Some s)) as (HB&HH&HC&HM).
  split; [|split; [|split]].
  - apply HB. by rewrite !map_fmap_singleton.
  - apply HH. intros lk vs. split; intros (k&Hk&Hx); apply list_elem_of_singleton in Hx;
      injection Hx as -> ->; [exists "k"|exists "K"]; split; [done|by left|done|by left].
  - apply HC. constructor; [reflexivity|constructor].
  - apply HM. intros lk cs. simpl. split; intros (k&Hk&Hx); apply lookup_singleton_Some in Hx as [<- <-];
      [exists "k"|exists "K"]; split; [done|apply lookup_singleton_eq|done|apply lookup_singleton_eq].
Defined.

Lemma sigma_meta_patterns (tl : string → string) :
  MetaPatterns (BuildEfficientMatcher tl string (fun s => Some s) {["A" := ex_meta_fp sigma_upper]}) =
  {[tl sigma_upper := [ex_pi "A" "(?i)x"]]}.
Proof. reflexivity. Qed.

(** C8, counterexample: the meta names U+03A3 and U+03C2 (capital and
    final small sigma) differ only in letter case, but under any lowering
    that keeps them apart, as Go's strings.ToLower does (U+03A3 becomes
    U+03C3, U+03C2 stays), a database meta pattern under U+03A3 detects
    "A" on a page whose meta name is U+03A3 and not on one whose meta
    name is U+03C2. *)
Lemma case_variant_meta_names_differ :
  ∃ pd pd', MetaContent pd = {[sigma_upper := ["(?i)x"]]} ∧
    MetaContent pd' = {[sigma_final := ["(?i)x"]]} ∧
    ∀ tl, tl sigma_final ≠ tl sigma_upper →
      "A" ∈ dom (matchMeta tl string (fun s => s) ex_match ex_version
                   (BuildEfficientMatcher tl string (fun s => Some s) {["A" := ex_meta_fp sigma_upper]})
                   pd ∅) ∧
      "A" ∉ dom (matchMeta tl string (fun s => s) ex_match ex_version
                   (BuildEfficientMatcher tl string (fun s => Some s) {["A" := ex_meta_fp sigma_upper]})
                   pd' ∅).
Proof.
  exists (ex_page_meta {[sigma_upper := ["(?i)x"]]}), (ex_page_meta {[sigma_final := ["(?i)x"]]}).
  split_and!; [done|done|]. intros tl Htl. split.
  - rewrite elem_of_dom, matchMeta_detected. right.
    exists sigma_upper, ["(?i)x"], [ex_pi "A" "(?i)x"], (ex_pi "A" "(?i)x"), "(?i)x", ("(?i)x", []).
    rewrite sigma_meta_patterns. split_and!.
    + apply lookup_singleton_eq.
    + apply lookup_singleton_eq.
    + by left.
    + done.
    + by left.
    + reflexivity.
  - rewrite elem_of_dom, matchMeta_detected.
    intros [Hd|(k&cs&pats&pi&c&sm&Hk&Hp&_)].
    + rewrite lookup_empty in Hd. by destruct Hd.
    + simpl in Hk. apply lookup_singleton_Some in Hk as [<- _].
      rewrite sigma_meta_patterns, lookup_singleton_ne in Hp; [done|].
      intros E. by apply Htl.
Qed.

End MatcherProofs.

Module AnalysisProofs.
Import Engine Analysis.
Local Open Scope string_scope.
Local Open Scope list_scope.

Section Agg.
Context {Error : Type}.

Lemma aggregate_perm (a b c : option Error) (received : list (fetchResult Error)) :
  received ≡ₚ [Build_fetchResult "main" a; Build_fetchResult "robots" b; Build_fetchResult "dns" c] →
  aggregate Error received = Build_AnalysisError a b c.
Proof.
  intros Hp. symmetry in Hp. apply permutations_Permutation in Hp.
  simpl in Hp.
  repeat (apply elem_of_cons in Hp as [->|Hp]); [..|by apply elem_of_nil in Hp];
    destruct a, b, c; reflexivity.
Qed.
End Agg.

Section Fetch.
Context {Error : Type} (error_string : Error → string).
Context (http_get : string → Error + Response) {URLT : Type}
  (url_parse : string → Error + URLT) (hostname robots_url : URLT → string)
  (lookup_txt lookup_mx : string → list string * option Error)
  (cert_cache : string → option string).

Lemma sent_kinds (t : string) :
  sent Error http_get URLT url_parse hostname robots_url lookup_txt lookup_mx t =
  [Build_fetchResult "main" (err (main_task Error http_get t).1.1);
   Build_fetchResult "robots" (err (robots_task Error http_get URLT url_parse robots_url t).1);
   Build_fetchResult "dns" (err (dns_task Error URLT url_parse hostname lookup_txt lookup_mx t).1)].
Proof.
  unfold sent, main_task, robots_task, dns_task.
  destruct (http_get t); destruct (url_parse t) as [|u]; try reflexivity;
  try (destruct (http_get (robots_url u)));
  destruct (lookup_txt (hostname u)), (lookup_mx (hostname u)); reflexivity.
Qed.
End Fetch.

Section Claim.
Context (tl : string → string).
Context {Error : Type} (error_string : Error → string).
Context (http_get : string → Error + Response) {URLT : Type}
  (url_parse : string → Error + URLT) (hostname robots_url : URLT → string)
  (lookup_txt lookup_mx : string → list string * option Error)
  (cert_cache : string → option string).
Context {Regexp : Type} (regexp_string : Regexp → string)
  (match_with_timeout : Regexp → string → option (string * list string))
  (extract_version : gmap string string → list string → string)
  (parse_set_cookie : string → option (string * string))
  (js_property_matches : string → list (list string))
  (dom_find : Dom.Doc → string → bool) (html_parse : string → option Dom.Doc)
  (apps : gmap string Fingerprint) (matcher : EfficientMatcher Regexp).

Local Abbreviation FP := (FingerprintURL tl Error http_get URLT url_parse hostname robots_url
  lookup_txt lookup_mx cert_cache Regexp regexp_string match_with_timeout extract_version
  parse_set_cookie js_property_matches dom_find html_parse apps matcher).
Local Abbreviation DET := (detect tl Error http_get URLT url_parse hostname robots_url
  lookup_txt lookup_mx cert_cache Regexp regexp_string match_with_timeout extract_version
  parse_set_cookie js_property_matches dom_find html_parse apps matcher).
Local Abbreviation SENT := (sent Error http_get URLT url_parse hostname robots_url lookup_txt lookup_mx).
Local Abbreviation mainE t := (err (main_task Error http_get t).1.1).
Local Abbreviation robotsE t := (err (robots_task Error http_get URLT url_parse robots_url t).1).
Local Abbreviation dnsE t := (err (dns_task Error URLT url_parse hostname lookup_txt lookup_mx t).1).

(** C3: whatever order errChan delivers the three goroutine results in,
    FingerprintURL returns no detections (the nil map) together with an
    error exactly when the main page fetch or the DNS step failed, and
    that error is the aggregate of the three results; otherwise it
    returns the detected map.  When only the robots.txt fetch failed, the
    detected map comes back with an AnalysisError holding just the
    robots error, whose message names the robots failure; with no
    failure the error is nil. *)
Theorem analysis_fatality (t : string) (received : list (fetchResult Error)) :
  received ≡ₚ SENT t →
  ((FP t received).1 = None ∧ is_Some (FP t received).2 ↔
     is_Some (mainE t) ∨ is_Some (dnsE t)) ∧
  ((FP t received).1 = None →
     (FP t received).2 = Some (Build_AnalysisError (mainE t) (robotsE t) (dnsE t))) ∧
  (mainE t = None → dnsE t = None → (FP t received).1 = Some (DET t)) ∧
  (∀ e, mainE t = None → dnsE t = None → robotsE t = Some e →
     FP t received = (Some (DET t), Some (Build_AnalysisError None (Some e) None)) ∧
     AnalysisError_Error Error error_string (Build_AnalysisError None (Some e) None) =
       "analysis failed: robots.txt fetch failed: " +:+ error_string e) ∧
  (mainE t = None → dnsE t = None → robotsE t = None →
     FP t received = (Some (DET t), None)).
Proof.
  rewrite sent_kinds. intros Hp.
  unfold FingerprintURL. rewrite (aggregate_perm _ _ _ _ Hp).
  destruct (mainE t) as [m|], (robotsE t) as [r|], (dnsE t) as [d|];
    cbn [IsFatal MainPageErr RobotsErr DNSErr fst snd];
    split_and!; intros; try done;
    try (split; [intros [? ?]; by eauto | by intros [[? ?]|[? ?]]]);
    try (split; [intros [? _]; by eauto | intros _; by split; eauto]).
  all: try (split; [intros [? [? ?]]; discriminate | intros [[? ?]|[? ?]]; discriminate]).
all: simplify_eq; split; [done | reflexivity].
Qed.
End Claim.

Import Examples.

(** The results arriving in the order dns, robots, main. *)
Lemma analysis_fatality_witness :
  let received := [Build_fetchResult "dns" None; Build_fetchResult "robots" (Some "connection refused");
                   Build_fetchResult "main" None] in
  received ≡ₚ sent string ex_http_get string ex_url_parse (fun u => u) ex_robots_url
                ex_lookup_txt ex_lookup_mx "http://x" ∧
  FingerprintURL Str.to_lower string ex_http_get string ex_url_parse (fun u => u) ex_robots_url
    ex_lookup_txt ex_lookup_mx ex_cert_cache string (fun r => r) ex_match ex_version
    ex_parse_set_cookie ex_js_matches ex_dom_find ex_html_parse ∅ ex_matcher "http://x" received =
  (Some (detect Str.to_lower string ex_http_get string ex_url_parse (fun u => u) ex_robots_url
    ex_lookup_txt ex_lookup_mx ex_cert_cache string (fun r => r) ex_match ex_version
    ex_parse_set_cookie ex_js_matches ex_dom_find ex_html_parse ∅ ex_matcher "http://x"),
   Some (Build_AnalysisError None (Some "connection refused") None)) ∧
  AnalysisError_Error string (fun e => e) (Build_AnalysisError None (Some "connection refused") None) =
    "analysis failed: robots.txt fetch failed: connection refused".
Proof.
  intros received.
  assert (Hp : received ≡ₚ sent string ex_http_get string ex_url_parse (fun u => u) ex_robots_url
                ex_lookup_txt ex_lookup_mx "http://x").
  { vm_compute. solve_Permutation. }
  split; [exact Hp|].
  destruct (analysis_fatality Str.to_lower (fun e => e) ex_http_get ex_url_parse (fun u => u) ex_robots_url
    ex_lookup_txt ex_lookup_mx ex_cert_cache (fun r => r) ex_match ex_version
    ex_parse_set_cookie ex_js_matches ex_dom_find ex_html_parse ∅ ex_matcher "http://x" received Hp)
    as (_ & _ & _ & Hr & _).
  apply (Hr "connection refused"); reflexivity.
Defined.
End AnalysisProofs.

Module VersionProofs.
Import Version.
Local Open Scope string_scope.
Local Open Scope list_scope.

Lemma substitute_empty (i : nat) (caps : list string) : substitute_from i "" caps = "".
Proof. revert i. induction caps as [|m caps IH]; intros i; [done|]. apply IH. Qed.

Lemma split_on_no_sep (c : ascii) (s : string) : contains_char c s = false → split_on c s = [s].
Proof.
  induction s as [|c' s IH]; [done|]. cbn. intros [Hc Hs]%orb_false_iff.
  rewrite Hc, IH by done. done.
Qed.

Lemma split_two_contains (c : ascii) (s x y : string) :
  split_on c s = [x; y] → contains_char c s = true.
Proof.
  intros Hs. destruct (contains_char c s) eqn:E; [done|].
  rewrite split_on_no_sep in Hs by done. discriminate.
Qed.

(** C5 (code_bug), the code's behaviour: the profiler's extractVersion
    returns "" without submatches and for an empty template, and the
    matchers' extractVersion returns "" without a version command.  A
    matchers' command \i with 2 or more submatches returns submatch i
    (index 0, the full match, included), "" when i is out of range, and
    panics (None) when i is negative.  For the profiler, the template
    first has its placeholders \1, \2, ... replaced in that order by the
    captures (each ReplaceAll acting on the text produced so far).  A
    result r that has no '?' is trimmed and returned.  When r has exactly
    one '?' and the text after it exactly one ':', giving a:b, the result
    is the trimmed b when a is empty or there are no captures, and the
    trimmed a otherwise.  The condition before the '?' is never consulted.
    Any other shape of r containing '?' yields "". *)
Theorem version_template_evaluation (version full : string) (caps : list string)
    (commands : gmap string string) :
  extractVersion version [] = "" ∧
  extractVersion "" (full :: caps) = "" ∧
  (commands !! "version" = None ∨ commands !! "version" = Some "" →
     extractVersion_cmd commands (full :: caps) = Some "") ∧
  (∀ idxStr i, commands !! "version" = Some (String "\" idxStr) → Atoi idxStr = Some i →
     (2 ≤ length (full :: caps))%nat →
     extractVersion_cmd commands (full :: caps) =
       if (i <? 0)%Z then None else Some (default "" ((full :: caps) !! Z.to_nat i))) ∧
  let r := substitute_from 0 version caps in
  (contains_char "?" r = false → extractVersion version (full :: caps) = Str.trim_space r) ∧
  (∀ cond p a b, split_on "?" r = [cond; p] → split_on ":" p = [a; b] →
     extractVersion version (full :: caps) =
       Str.trim_space (if String.eqb a "" then b else match caps with [] => b | _ => a end)) ∧
  (contains_char "?" r = true → length (split_on "?" r) ≠ 2 →
     extractVersion version (full :: caps) = "") ∧
  (∀ cond p, split_on "?" r = [cond; p] → length (split_on ":" p) ≠ 2 →
     extractVersion version (full :: caps) = "").
Proof.
  split; [done|]. split.
  { unfold extractVersion. rewrite substitute_empty. done. }
  split.
  { unfold extractVersion_cmd. by intros [-> | ->]. }
  split.
  { intros idxStr i Hc Hi Hl. unfold extractVersion_cmd. rewrite Hc.
    assert (E : (length (full :: caps) <=? 1)%nat = false) by (apply Nat.leb_gt; lia).
    rewrite E. cbn [String.eqb orb]. rewrite Hi.
    destruct (Z.ltb_spec i 0) as [Hn|Hn].
    - rewrite (proj2 (Z.ltb_lt i _)); [done|lia].
    - destruct (Z.ltb_spec i (Z.of_nat (length (full :: caps)))) as [Hlt|Hge]; [done|].
      rewrite (lookup_ge_None_2 (full :: caps) (Z.to_nat i)); [done|lia]. }
  intros r. unfold extractVersion, evaluateVersionExpression. fold r.
  split_and!.
  - intros ->. done.
  - intros cond p a b Hq Hc. rewrite (split_two_contains _ _ _ _ Hq), Hq, Hc.
    destruct (String.eqb a "") eqn:Ea; cbn.
    + apply String.eqb_eq in Ea as ->. destruct (String.eqb b "") eqn:Eb.
      * apply String.eqb_eq in Eb as ->. by destruct caps.
      * done.
    + by destruct caps.
  - intros -> Hl. destruct (split_on "?" r) as [|? [|? [|? ?]]]; cbn in Hl; done.
  - intros cond p Hq Hl. rewrite (split_two_contains _ _ _ _ Hq), Hq.
    destruct (split_on ":" p) as [|? [|? [|? ?]]]; cbn in Hl; done.
Qed.

(** C5, the inputs where the code departs from the spec: the matchers'
    command \0 returns the full match (the spec: index 0 is never
    substituted), and \-1 panics; a template with two '?' gives "" (the
    spec, splitting at the first '?', picks a = "a?b"); a non-empty
    condition with a = "" and a capture gives b (the spec: a); a capture
    containing \2 is itself substituted (the spec: capture 1, "\2"). *)
Lemma version_template_code_bug :
  extractVersion_cmd {["version" := "\0"]} ["full"; "1"] = Some "full" ∧
  extractVersion_cmd {["version" := "\-1"]} ["full"; "1"] = None ∧
  extractVersion "v?a?b:c" ["m"; "1"] = "" ∧
  extractVersion "c?:b" ["m"; "1"] = "b" ∧
  extractVersion "\1" ["m"; "\2"; "z"] = "z".
Proof. split_and!; reflexivity. Qed.

Lemma version_template_evaluation_witness :
  split_on "?" (substitute_from 0 "\1?\1:none" ["7"]) = ["7"; "7:none"] ∧
  split_on ":" "7:none" = ["7"; "none"] ∧
  extractVersion "\1?\1:none" ["m"; "7"] = "7" ∧
  extractVersion_cmd {["version" := "\0"]} ["full"; "1"] = Some "full".
Proof.
  split; [reflexivity|]. split; [reflexivity|].
  destruct (version_template_evaluation "\1?\1:none" "m" ["7"] ∅) as (_ & _ & _ & _ & _ & H & _).
  destruct (version_template_evaluation "" "full" ["1"] {["version" := "\0"]}) as (_ & _ & _ & Hc & _).
  split.
  - rewrite (H "7" "7:none" "7" "none"); reflexivity.
  - rewrite (Hc "0" 0%Z); reflexivity.
Defined.
End VersionProofs.

Module NormalizerProofs.
Import Normalizer.
Local Open Scope string_scope.
Local Open Scope list_scope.

Section Gates.
Context (clean : string → string) (regexp_compiles : string → bool).

Lemma is_denied_token (t : string) : t ∈ patternDenylist → is_denied t = true.
Proof.
  intros Ht. unfold is_denied. apply existsb_exists. exists t. split.
  - by apply list_elem_of_In.
  - repeat (apply elem_of_cons in Ht as [->|Ht]; [reflexivity|]). by apply elem_of_nil in Ht.
Qed.

Lemma normalizePatternValue_gates (v : JValue) (p : ParsedPattern) :
  normalizePatternValue clean regexp_compiles v = Some p →
  Regex p ≠ "" ∧ Regex p ≠ "." ∧ Regex p ≠ ".*" ∧ (Regex p ∉ patternDenylist) ∧
  (minPatternLength ≤ alnum_count (Regex p))%nat.
Proof.
  unfold normalizePatternValue.
  destruct (String.eqb (raw_of v) "") eqn:E0; [done|].
  destruct (parseWappalyzerDSL (raw_of v)) as [parsed|]; [|done]. cbn zeta.
  set (t := Str.trim_space (clean (Regex parsed))).
  destruct (is_denied t) eqn:Ed; [done|].
  destruct (String.eqb t "") eqn:E1; [done|].
  destruct (String.eqb t ".*") eqn:E2; [by cbn|].
  destruct (String.eqb t ".") eqn:E3; [by cbn|]. cbn [orb].
  destruct (alnum_count t <? minPatternLength)%nat eqn:E4; [done|].
  destruct (regexp_compiles t); [|done]. cbn. intros [= <-]. cbn.
  apply String.eqb_neq in E1, E2, E3. apply Nat.ltb_ge in E4.
  split_and!; try done.
  intros Hd. apply is_denied_token in Hd. congruence.
Qed.

Lemma normalizePatternValue_rejects (v : JValue) :
  let t := Str.trim_space (clean (default "" (head (Split (raw_of v) "\;")))) in
  t = "" ∨ t = "." ∨ t = ".*" ∨ t ∈ patternDenylist ∨ (alnum_count t < minPatternLength)%nat →
  normalizePatternValue clean regexp_compiles v = None.
Proof.
  intros t Ht. unfold normalizePatternValue.
  destruct (String.eqb (raw_of v) "") eqn:E0; [done|].
  unfold parseWappalyzerDSL. rewrite E0. cbn [Regex]. fold t.
  destruct Ht as [->|[->|[->|[Hd|Hl]]]]; try done.
  - by rewrite (is_denied_token _ Hd).
  - destruct (is_denied t); [done|].
    destruct (String.eqb t "" || String.eqb t ".*" || String.eqb t "."); [done|].
    apply Nat.ltb_lt in Hl. by rewrite Hl.
Qed.
Lemma option_list_elem {A} (o : option A) (x : A) : x ∈ option_list o → o = Some x.
Proof. destruct o; cbn; [intros ->%list_elem_of_singleton|intros ?%elem_of_nil]; done. Qed.

Lemma normalizePatternArray_from (arr : JValue) (p : ParsedPattern) :
  p ∈ normalizePatternArray clean regexp_compiles arr →
  ∃ v, normalizePatternValue clean regexp_compiles v = Some p.
Proof.
  destruct arr as [s|ms|items| |]; cbn.
  - intros ?%option_list_elem. eauto.
  - intros (kv & _ & Hkv)%list_elem_of_omap. eauto.
  - intros (v & _ & Hv)%list_elem_of_omap. eauto.
  - intros ?%elem_of_nil. done.
  - intros ?%elem_of_nil. done.
Qed.

Lemma normalizePatternMap_from (m : JValue) (p : ParsedPattern) :
  p ∈ map snd (normalizePatternMap clean regexp_compiles m) →
  ∃ v, normalizePatternValue clean regexp_compiles v = Some p.
Proof.
  intros ([k p'] & -> & Hin)%list_elem_of_fmap. destruct m; cbn in *;
    try (by apply elem_of_nil in Hin).
  apply list_elem_of_omap in Hin as (kv & _ & Hkv).
  apply fmap_Some in Hkv as (q & Hq & [= _ ->]). eauto.
Qed.

Lemma normalizeMetaMap_from (m : JValue) (p : ParsedPattern) :
  p ∈ concat (map snd (normalizeMetaMap clean regexp_compiles m)) →
  ∃ v, normalizePatternValue clean regexp_compiles v = Some p.
Proof.
  intros Hin. apply list_elem_of_In, in_concat in Hin as (ps & Hps & Hp).
  apply list_elem_of_In in Hps, Hp.
  apply list_elem_of_fmap in Hps as ([k ps'] & -> & Hin). cbn in Hp.
  destruct m; cbn in *; try (by apply elem_of_nil in Hin).
  apply list_elem_of_omap in Hin as (kv & _ & Hkv).
  destruct (normalizeMetaValue clean regexp_compiles kv.2) as [|q qs] eqn:Ev; [done|].
  injection Hkv as _ <-. rewrite <- Ev in Hp.
  destruct (kv.2) as [s|ms|items| |]; cbn in Hp.
  - apply option_list_elem in Hp. eauto.
  - apply option_list_elem in Hp. eauto.
  - apply list_elem_of_omap in Hp as (v & _ & Hv). eauto.
  - by apply elem_of_nil in Hp.
  - by apply elem_of_nil in Hp.
Qed.

Lemma emitted_from (fp : list (string * JValue)) (p : ParsedPattern) :
  p ∈ emitted_patterns (normalize_fp clean regexp_compiles fp) →
  ∃ v, normalizePatternValue clean regexp_compiles v = Some p.
Proof.
  unfold emitted_patterns, normalize_fp. cbn [CSS Cookies JS Headers HTML Script ScriptSrc
    Meta URL Robots DOM DNS CertIssuer].
  repeat rewrite elem_of_app.
  intros Hp; repeat match type of Hp with _ ∨ _ => destruct Hp as [Hp|Hp] end;
    first [by eapply normalizePatternArray_from | by eapply normalizePatternMap_from
          | by eapply normalizeMetaMap_from].
Qed.
End Gates.
(** C7: a pattern value whose cleaned, trimmed regex is empty, ".", ".*",
    one of the denylist tokens, or has fewer than minPatternLength (4)
    ASCII alphanumerics is rejected by normalizePatternValue, and no
    pattern of any normalized fingerprint has that regex; every pattern
    the normalizer emits, in any vector of a fingerprint, avoids all of
    these conditions.  (The denylist is matched after lowercasing, so
    e.g. "SCRIPT" is rejected as well.) *)
Theorem normalizer_quality_gates (clean : string → string) (regexp_compiles : string → bool) :
  (∀ v : JValue,
     let t := Str.trim_space (clean (default "" (head (Split (raw_of v) "\;")))) in
     t = "" ∨ t = "." ∨ t = ".*" ∨ t ∈ patternDenylist ∨ (alnum_count t < minPatternLength)%nat →
     normalizePatternValue clean regexp_compiles v = None ∧
     ∀ fp p, p ∈ emitted_patterns (normalize_fp clean regexp_compiles fp) → Regex p ≠ t) ∧
  (∀ fp p, p ∈ emitted_patterns (normalize_fp clean regexp_compiles fp) →
     Regex p ≠ "" ∧ Regex p ≠ "." ∧ Regex p ≠ ".*" ∧ (Regex p ∉ patternDenylist) ∧
     (minPatternLength ≤ alnum_count (Regex p))%nat).
Proof.
  assert (Hout : ∀ fp p, p ∈ emitted_patterns (normalize_fp clean regexp_compiles fp) →
     Regex p ≠ "" ∧ Regex p ≠ "." ∧ Regex p ≠ ".*" ∧ (Regex p ∉ patternDenylist) ∧
     (minPatternLength ≤ alnum_count (Regex p))%nat).
  { intros fp p (v & Hv)%emitted_from. by eapply normalizePatternValue_gates. }
  split; [|exact Hout].
  intros v t Ht. split; [by apply normalizePatternValue_rejects|].
  intros fp p Hp <-. destruct (Hout fp p Hp) as (H1 & H2 & H3 & H4 & H5).
  destruct Ht as [?|[?|[?|[?|?]]]]; [done|done|done|done|lia].
Qed.

Lemma normalizer_quality_gates_witness :
  normalizePatternValue (fun r => r) (fun _ => true) (JString "jquery") = None ∧
  emitted_patterns (normalize_fp (fun r => r) (fun _ => true)
     [("html", JArray [JString "WordPress"; JString "div"])]) =
    [{| Regex := "WordPress"; Commands := ∅ |}] ∧
  "WordPress" ∉ patternDenylist.
Proof.
  destruct (normalizer_quality_gates (fun r => r) (fun _ => true)) as [Hrej Hout].
  split; [|split; [reflexivity|]].
  - apply (Hrej (JString "jquery")). right; right; right; left.
    vm_compute. repeat (first [apply elem_of_cons; left; reflexivity | apply elem_of_cons; right]).
  - destruct (Hout [("html", JArray [JString "WordPress"; JString "div"])]
      {| Regex := "WordPress"; Commands := ∅ |}) as (_ & _ & _ & H & _); [|exact H].
    vm_compute. apply elem_of_cons. left. reflexivity.
Defined.
End NormalizerProofs.

Module WatchdogProofs.
Import Watchdog.

Section Run.
Context {Result : Type} (res : option Result).

Lemma wd_inv_reachable (s : WState Result) : reachable Result res s → wd_inv Result res s.
Proof.
  induction 1 as [|s s' _ IH Hs].
  - unfold wd_inv, init; cbn; split_and!; done.
  - destruct IH as (I1 & I2 & I3 & I4 & I5).
    inversion Hs; subst; unfold wd_inv in *; cbn in *; split_and!;
      try (intros; congruence); try naive_solver.
    intros _. destruct w; [done|]. by destruct (I4 eq_refl eq_refl).
Qed.

(** C9: in matchWithTimeout the match runs in its own goroutine while the
    caller waits in a select on resultChan and time.After(timeout).  In
    every run the caller returns either the match result or nil, and once
    returned the value never changes.  The caller blocks only while the
    match is still running; if the timeout fires then, it returns nil with
    the match unfinished.  The worker's send is always possible, because
    the channel has one free buffer slot, so the runaway match reaches its
    own end.  Every step removes pending work, so every run is finite, and
    every run that cannot go on has both the caller returned and the
    worker done. *)
Theorem regex_watchdog :
  (∀ s r, reachable Result res s → caller s = Returned r → r = res ∨ r = None) ∧
  (∀ s s' r, reachable Result res s → caller s = Returned r → step Result res s s' →
     caller s' = Returned r) ∧
  (∀ s, reachable Result res s → caller s = Blocked →
     worker s = Matching ∧
     step Result res s (Build_WState (Returned None) Matching (resultChan s))) ∧
  (∀ s, reachable Result res s → worker s = Matching →
     ∃ s', step Result res s s' ∧ worker s' = Done) ∧
  (∀ s s', step Result res s s' → (pending Result s' < pending Result s)%nat) ∧
  (∀ s, reachable Result res s → (∀ s', ¬ step Result res s s') →
     (∃ r, caller s = Returned r) ∧ worker s = Done).
Proof.
  split_and!.
  - intros s r Hr Hc. by apply (wd_inv_reachable _ Hr).
  - intros s s' r _ Hc Hs. inversion Hs; subst; cbn in *; congruence.
  - intros [c w b] Hr Hc. cbn in *. subst c.
    destruct (wd_inv_reachable _ Hr) as (_ & _ & I3 & _). cbn in I3.
    rewrite (I3 eq_refl). split; [done|]. constructor.
  - intros [c w b] Hr Hw. cbn in *. subst w.
    destruct (wd_inv_reachable _ Hr) as (I1 & _). cbn in I1. rewrite (I1 eq_refl).
    destruct c as [| |r].
    + eexists. split; [by apply worker_send_buffered|done].
    + eexists. split; [apply worker_send_handoff|done].
    + eexists. split; [by apply worker_send_buffered|done].
  - intros s s' Hs. inversion Hs; subst; unfold pending; cbn;
      try (destruct c); try (destruct w); cbn; lia.
  - intros [c w b] Hr Hstuck.
    destruct (wd_inv_reachable _ Hr) as (I1 & I2 & I3 & I4 & _). cbn in *.
    destruct c as [| |r].
    + destruct b as [r|].
      * by destruct (Hstuck _ (select_ready _ _ w r)).
      * by destruct (Hstuck _ (select_block _ _ w)).
    + by destruct (Hstuck _ (select_timeout _ _ w b)).
    + split; [by eexists|]. destruct w; [|done].
      rewrite (I1 eq_refl) in Hstuck.
      by destruct (Hstuck _ (worker_send_buffered _ _ (Returned r) ltac:(done))).
Qed.
End Run.

(** One run: the caller blocks, the timeout fires, and the match then
    finishes into the buffer. *)
Lemma regex_watchdog_witness :
  reachable nat (Some 1%nat) (Build_WState (Returned None) Done (Some (Some 1%nat))) ∧
  (∃ r, @caller nat (Build_WState (Returned None) Done (Some (Some 1%nat))) = Returned r) ∧
  @worker nat (Build_WState (Returned None) Done (Some (Some 1%nat))) = Done.
Proof.
  assert (Hr : reachable nat (Some 1%nat) (Build_WState (Returned None) Done (Some (Some 1%nat)))).
  { eapply reach_step; [eapply reach_step; [eapply reach_step; [apply reach_init|]|]|].
    - apply select_block.
    - apply select_timeout.
    - by apply worker_send_buffered. }
  split; [exact Hr|].
  destruct (regex_watchdog (Some 1%nat)) as (_ & _ & _ & _ & _ & Hend).
  apply (Hend _ Hr). intros s' Hs. inversion Hs.
Defined.
End WatchdogProofs.

Module ExtraImpliesProofs.
Import Implies ImpliesProofs.
Local Open Scope string_scope.

Lemma add_implied_queue t us q (d : gmap string Detection) x :
  x ∈ q → x ∈ (add_implied t us q d).1.
Proof.
  revert q d. induction us as [|u us IH]; intros q d Hx; cbn [add_implied fst]; [done|].
  destruct (d !! u); apply IH; [done|]. apply elem_of_app. by left.
Qed.

Lemma step_shape apps s s' :
  step apps s = Some s' →
  ∃ h q, queue s = h :: q ∧ (∀ x, x ∈ q → x ∈ queue s') ∧
    (h ∈ processed s ∧ processed s' = processed s ∨
     (h ∉ processed s) ∧ processed s' = h :: processed s) ∧
    (∀ k x, detected s !! k = Some x → detected s' !! k = Some x).
Proof.
  unfold step. destruct s as [qs pr d]; simpl. destruct qs as [|h q]; [done|].
  intros Hst. exists h, q. split; [done|]. revert Hst.
  case_bool_decide as Hin; [intros [= <-]; simpl; naive_solver|].
  destruct (d !! h) as [src|]; [|intros [= <-]; simpl; naive_solver].
  destruct (conf_lt _ _); [intros [= <-]; simpl; naive_solver|].
  destruct (apps !! h) as [app|]; [|intros [= <-]; simpl; naive_solver].
  pose proof (add_implied_lookup h (Implies app) q d) as Hl.
  pose proof (add_implied_queue h (Implies app) q d) as Hq.
  destruct (add_implied h (Implies app) q d) as [q' d']. simpl in Hl, Hq.
  intros [= <-]. simpl. split; [done|]. split; [by right|].
  intros k x Hk. rewrite Hl, Hk. rewrite bool_decide_false; [done|]. by intros [_ ?].
Qed.

(** The implies engine is complete for High-confidence seeds: when the
    seed map holds [t] with High confidence, [t] is visited by the seed
    and its fingerprint implies [u], the final map holds [u]. *)
Theorem runImpliesEngine_complete (apps : gmap string Fingerprint) (seed : list string)
    (d0 : gmap string Detection) t src app u :
  t ∈ seed → d0 !! t = Some src → Confidence src = ConfidenceHigh →
  apps !! t = Some app → u ∈ Implies app →
  ∃ s, runImpliesEngine apps seed d0 = Some s ∧ is_Some (detected s !! u).
Proof.
  intros Hseed Ht Hc Happ Hu.
  unfold runImpliesEngine.
  set (s0 := {| queue := seed; processed := []; detected := d0 |}).
  destruct (loop_terminates apps (S (measure apps s0)) s0) as (s & Hs & Hq); [lia|].
  exists s. split; [done|].
  set (P := fun s : state => seed_inv apps d0 s ∧ (t ∉ processed s → t ∈ queue s) ∧
              (t ∈ processed s → ∀ v, v ∈ Implies app → is_Some (detected s !! v))).
  assert (HP : P s).
  { refine (loop_inv P apps _ _ _ _ _ Hs).
    - intros s1 s2 [Hi [Hq1 Hd1]] Hstep.
      pose proof (step_seed_inv _ _ _ _ Hi Hstep) as Hi2.
      destruct (step_shape _ _ _ Hstep) as (h & q & Hq0 & Hqq & Hpr & Hgrow).
      split; [done|].
      assert (Hts : detected s1 !! t = Some src) by (by apply (proj1 Hi)).
      destruct Hpr as [[Hh Hp2]|[Hh Hp2]].
      + rewrite Hp2. split.
        * intros Hnt. apply Hqq. specialize (Hq1 Hnt). rewrite Hq0 in Hq1.
          apply elem_of_cons in Hq1 as [->|]; [done|done].
        * intros Htp v Hv. destruct (Hd1 Htp v Hv) as [x Hx]. exists x. by apply Hgrow.
      + destruct (decide (h = t)) as [->|Hne].
        * destruct (step_high apps s1 t q src app Hq0 Hh Hts Hc Happ) as (s2' & Hs2' & _ & Hl).
          rewrite Hstep in Hs2'. injection Hs2' as <-.
          split; [rewrite Hp2; intros Hn; exfalso; apply Hn; by left|].
          intros _ v Hv. rewrite Hl. case_bool_decide as Hb; [by eexists|].
          destruct (detected s1 !! v) eqn:E; [by eexists|]. exfalso. naive_solver.
        * rewrite Hp2. split.
          -- intros Hnt. apply Hqq. assert (Hnt' : t ∉ processed s1) by set_solver.
             specialize (Hq1 Hnt'). rewrite Hq0 in Hq1.
             apply elem_of_cons in Hq1 as [->|]; [done|done].
          -- intros Htp v Hv. apply elem_of_cons in Htp as [->|Htp]; [done|].
             destruct (Hd1 Htp v Hv) as [x Hx]. exists x. by apply Hgrow.
    - split; [split; [done|intros k x Hk Hk0; simpl in Hk; congruence]|].
      split; [intros _; exact Hseed|intros Hp; by apply elem_of_nil in Hp]. }
  destruct HP as [_ [Hq1 Hd1]].
  apply Hd1; [|done].
  destruct (decide (t ∈ processed s)) as [|Hn]; [done|].
  specialize (Hq1 Hn). rewrite Hq in Hq1. by apply elem_of_nil in Hq1.
Qed.

Lemma runImpliesEngine_complete_witness :
  ∃ s, runImpliesEngine {[ "A" := fp_implies ["B"; "C"] ]} ["A"]
         {[ "A" := det "header:Server" ConfidenceHigh ]} = Some s ∧ is_Some (detected s !! "C").
Proof.
  apply (runImpliesEngine_complete _ _ _ "A" (det "header:Server" ConfidenceHigh)
           (fp_implies ["B"; "C"]) "C").
  - by apply list_elem_of_singleton.
  - reflexivity.
  - reflexivity.
  - reflexivity.
  - cbn. apply elem_of_cons. right. by apply list_elem_of_singleton.
Defined.

End ExtraImpliesProofs.

Module ExtraMatcherProofs.
Import Engine Frame MatcherProofs MatcherFacts.
Local Open Scope string_scope.
Local Open Scope list_scope.

Ltac split_or H := repeat match type of H with _ ∨ _ => destruct H as [H|H] end.

Lemma keyed_elem {R} (g : gmap string (list (PatternInfo R))) pi :
  pi ∈ keyed g ↔ ∃ key l, g !! key = Some l ∧ pi ∈ l.
Proof.
  unfold keyed. rewrite list_elem_of_In, in_concat. split.
  - intros (l & Hl & Hpi). apply in_map_iff in Hl as ([key l'] & <- & Hin).
    apply list_elem_of_In, elem_of_map_to_list in Hin. exists key, l'. split; [done|].
    by apply list_elem_of_In.
  - intros (key & l & Hk & Hpi). exists l. split; [|by apply list_elem_of_In].
    apply in_map_iff. exists (key, l). split; [done|].
    apply list_elem_of_In. by apply elem_of_map_to_list.
Qed.

Lemma Keeps_fold {X} (step : gmap string Detection → X → gmap string Detection) (l : list X) a :
  (∀ x, x ∈ l → Keeps a (fun d => step d x)) → Keeps a (fun d => fold_left step l d).
Proof.
  induction l as [|x l IH]; intros Hs d; simpl; [done|].
  rewrite IH; [|intros y Hy; apply Hs; by apply elem_of_cons; right].
  apply (Hs x). by apply elem_of_cons; left.
Qed.

Lemma Keeps_id a : Keeps a (fun d => d).
Proof. by intros d. Qed.

Lemma Keeps_insert_ne {Y} (o : option Y) k (g : Y → Detection) a :
  k ≠ a → Keeps a (fun d => match o with Some y => <[k := g y]> d | None => d end).
Proof. intros Hne d. destruct o; [by rewrite lookup_insert_ne|done]. Qed.

Section Names.
Context (tl : string → string).
Context {Regexp : Type} (rs : Regexp → string)
  (mwt : Regexp → string → option (string * list string))
  (ev : gmap string string → list string → string)
  (psc : string → option (string * string))
  (jpm : string → list (list string))
  (df : Dom.Doc → string → bool).

Lemma Keeps_first_input pi by_ c inputs a :
  AppName pi ≠ a → Keeps a (first_input Regexp rs mwt ev pi by_ c inputs).
Proof.
  intros Hne. induction inputs as [|v vs IH]; intros d; simpl; [done|].
  destruct (mwt (Pattern pi) v); [by rewrite lookup_insert_ne|apply IH].
Qed.

Lemma Keeps_first_pattern pats by_ c v a :
  (∀ pi, pi ∈ pats → AppName pi ≠ a) → Keeps a (first_pattern Regexp rs mwt ev pats by_ c v).
Proof.
  induction pats as [|pi ps IH]; intros Hn d; simpl; [done|].
  destruct (mwt (Pattern pi) v).
  - rewrite lookup_insert_ne; [done|]. apply Hn. by apply elem_of_cons; left.
  - apply IH. intros p Hp. apply Hn. by apply elem_of_cons; right.
Qed.

Lemma Keeps_every_pattern pats by_ c v a :
  (∀ pi, pi ∈ pats → AppName pi ≠ a) → Keeps a (every_pattern Regexp rs mwt ev pats by_ c v).
Proof.
  intros Hn. unfold every_pattern. apply Keeps_fold. intros pi Hpi.
  apply Keeps_insert_ne. by apply Hn.
Qed.

Lemma Keeps_guarded (pi : PatternInfo Regexp) a (f : gmap string Detection → gmap string Detection) :
  Keeps a f →
  Keeps a (fun d => match d !! AppName pi with Some _ => d | None => f d end).
Proof. intros Hf d. destruct (d !! AppName pi); [done|apply Hf]. Qed.

Lemma Preserves_is_Some f (d : gmap string Detection) k :
  Preserves f → is_Some (d !! k) → is_Some (f d !! k).
Proof. intros Hf [x Hx]. exists x. by apply Hf. Qed.

Ltac names_from H :=
  intros ??; apply H; unfold all_patterns; rewrite !elem_of_app;
  first [ by left | by right; left | by right; right; left | by do 3 right; left
        | by do 4 right; left | by do 5 right; left | by do 6 right; left
        | by do 7 right; left | by do 8 right; left | by do 9 right; left
        | by do 10 right; left | by do 11 right; left | by do 12 right ].

Lemma keyed_names (g : gmap string (list (PatternInfo Regexp))) a key pats :
  (∀ pi, pi ∈ keyed g → AppName pi ≠ a) → g !! key = Some pats →
  ∀ pi, pi ∈ pats → AppName pi ≠ a.
Proof. intros Hn Hk pi Hpi. apply Hn, keyed_elem. eauto. Qed.

(** runAllMatchers never removes an entry of the map it is given:
    every name detected before is still detected after. *)
Theorem runAllMatchers_keeps_keys m data (d : gmap string Detection) k :
  is_Some (d !! k) → is_Some (runAllMatchers tl Regexp rs mwt ev psc jpm df m data d !! k).
Proof.
  intros H. unfold runAllMatchers.
  assert (H1 : is_Some (matchCertIssuer Regexp rs mwt ev m data (matchDNS Regexp rs mwt ev m data
            (matchRobots Regexp rs mwt ev m data (matchURL Regexp rs mwt ev m data d))) !! k)).
  { apply (PW_is_Some _ _ _ _ (PW_matchCertIssuer rs mwt ev m data k)).
    apply (PW_is_Some _ _ _ _ (PW_matchDNS rs mwt ev m data k)).
    apply (PW_is_Some _ _ _ _ (PW_matchRobots rs mwt ev m data k)).
    by apply (PW_is_Some _ _ _ _ (PW_matchURL rs mwt ev m data k)). }
  revert H1. generalize (matchCertIssuer Regexp rs mwt ev m data (matchDNS Regexp rs mwt ev m data
            (matchRobots Regexp rs mwt ev m data (matchURL Regexp rs mwt ev m data d)))).
  intros d1 H1.
  assert (H2 : is_Some (match MainResponse data with
                        | Some h => matchCookies tl Regexp rs mwt ev psc m h (matchHeaders tl Regexp rs mwt ev m h d1)
                        | None => d1 end !! k)).
  { destruct (MainResponse data) as [h|]; [|done].
    apply (PW_is_Some _ _ _ _ (PW_matchCookies tl rs mwt ev psc m h k)).
    by apply (PW_is_Some _ _ _ _ (PW_matchHeaders tl rs mwt ev m h k)). }
  revert H2. generalize (match MainResponse data with
                        | Some h => matchCookies tl Regexp rs mwt ev psc m h (matchHeaders tl Regexp rs mwt ev m h d1)
                        | None => d1 end). intros d2 H2.
  destruct (PageData_ data) as [pd|]; [|done].
  apply (PW_is_Some _ _ _ _ (PW_matchDOM rs df m data k)).
  apply (Preserves_is_Some _ _ _ (matchCSS_preserves rs mwt ev m pd)).
  apply (PW_is_Some _ _ _ _ (PW_matchJS rs mwt ev jpm m pd k)).
  apply (Preserves_is_Some _ _ _ (matchHTML_preserves rs mwt ev m pd)).
  apply (Preserves_is_Some _ _ _ (matchScript_preserves rs mwt ev m pd)).
  apply (PW_is_Some _ _ _ _ (PW_matchMeta tl rs mwt ev m pd k)).
  by apply (PW_is_Some _ _ _ _ (PW_matchScriptSrc rs mwt ev m pd k)).
Qed.

Section Vec.
Variable m : EfficientMatcher Regexp.
Variable a : string.
Hypothesis Hn : ∀ pi, pi ∈ all_patterns m → AppName pi ≠ a.

Local Ltac vec :=
  intros pi Hpi; apply Hn; unfold all_patterns; rewrite !elem_of_app;
  repeat (first [left; exact Hpi | right]); try exact Hpi.

Local Ltac kv := apply keyed_elem; eexists _, _; split; eassumption.

Local Ltac kvec :=
  intros pi Hpi; apply Hn; unfold all_patterns; rewrite !elem_of_app;
  repeat (first [left; kv | right]); try kv.

Lemma Keeps_matchHeaders h : Keeps a (matchHeaders tl Regexp rs mwt ev m h).
Proof.
  unfold matchHeaders. apply Keeps_fold. intros [hk vs] _. simpl.
  destruct (HeaderPatterns m !! tl hk) as [pats|] eqn:E; [|apply Keeps_id].
  apply Keeps_fold. intros pi Hpi. apply Keeps_first_input. revert pi Hpi. kvec.
Qed.

Lemma Keeps_matchCookies h : Keeps a (matchCookies tl Regexp rs mwt ev psc m h).
Proof.
  unfold matchCookies. apply Keeps_fold. intros [ck v] _. simpl.
  destruct (CookiePatterns m !! ck) as [pats|] eqn:E; [|apply Keeps_id].
  apply Keeps_first_pattern. kvec.
Qed.

Lemma Keeps_matchScriptSrc pd : Keeps a (matchScriptSrc Regexp rs mwt ev m pd).
Proof.
  unfold matchScriptSrc. apply Keeps_fold. intros pi Hpi. apply Keeps_first_input.
  revert pi Hpi. vec.
Qed.

Lemma Keeps_matchMeta pd : Keeps a (matchMeta tl Regexp rs mwt ev m pd).
Proof.
  unfold matchMeta. apply Keeps_fold. intros [mk cs] _. simpl.
  destruct (MetaPatterns m !! tl mk) as [pats|] eqn:E; [|apply Keeps_id].
  apply Keeps_fold. intros pi Hpi. apply Keeps_first_input. revert pi Hpi. kvec.
Qed.

Lemma Keeps_matchScript pd : Keeps a (matchScript Regexp rs mwt ev m pd).
Proof.
  unfold matchScript. apply Keeps_fold. intros pi Hpi. apply Keeps_guarded, Keeps_first_input.
  revert pi Hpi. vec.
Qed.

Lemma Keeps_matchHTML pd : Keeps a (matchHTML Regexp rs mwt ev m pd).
Proof.
  unfold matchHTML. apply Keeps_fold. intros pi Hpi. apply Keeps_guarded, Keeps_insert_ne.
  revert pi Hpi. vec.
Qed.

Lemma Keeps_matchJS pd : Keeps a (matchJS Regexp rs mwt ev jpm m pd).
Proof.
  unfold matchJS. destruct (decide _); [apply Keeps_id|].
  apply Keeps_fold. intros script _. apply Keeps_fold. intros mt _. intros d.
  unfold js_assignment. destruct (Nat.ltb _ _); [done|].
  destruct (String.eqb _ _); [done|].
  destruct (JSPatterns m !! nth 1 mt "") as [pats|] eqn:E; [|done].
  revert d. apply Keeps_first_pattern. kvec.
Qed.

Lemma Keeps_matchCSS pd : Keeps a (matchCSS Regexp rs mwt ev m pd).
Proof.
  unfold matchCSS. apply Keeps_fold. intros blk _. apply Keeps_fold. intros pi Hpi.
  apply Keeps_guarded, Keeps_insert_ne. revert pi Hpi. vec.
Qed.

Lemma Keeps_matchURL data : Keeps a (matchURL Regexp rs mwt ev m data).
Proof. unfold matchURL. apply Keeps_every_pattern. vec. Qed.

Lemma Keeps_matchRobots data : Keeps a (matchRobots Regexp rs mwt ev m data).
Proof.
  unfold matchRobots. intros d. destruct (RobotsContent data) as [rc|]; [|done].
  revert d. apply Keeps_every_pattern. vec.
Qed.

Lemma Keeps_matchDOM data : Keeps a (matchDOM Regexp rs df m data).
Proof.
  unfold matchDOM. intros d. destruct (PageData_ data) as [pd|]; [|done].
  destruct (GoQueryDoc pd) as [doc|]; [|done]. revert d.
  apply Keeps_fold. intros pi Hpi d. destruct (df doc _); [|done].
  rewrite lookup_insert_ne; [done|]. revert pi Hpi. vec.
Qed.

Lemma Keeps_matchDNS data : Keeps a (matchDNS Regexp rs mwt ev m data).
Proof.
  unfold matchDNS. intros d. destruct (DNSRecords data) as [recs|]; [|done]. revert d.
  apply Keeps_fold. intros [rt pats] Hrt. apply elem_of_map_to_list in Hrt. simpl.
  intros d. destruct (recs !! rt) as [records|]; [|done]. revert d.
  apply Keeps_fold. intros pi Hpi. apply Keeps_first_input. revert pi Hpi. kvec.
Qed.

Lemma Keeps_matchCertIssuer data : Keeps a (matchCertIssuer Regexp rs mwt ev m data).
Proof.
  unfold matchCertIssuer. intros d. destruct (String.eqb _ _); [done|]. revert d.
  apply Keeps_fold. intros [key pats] Hk. apply elem_of_map_to_list in Hk. simpl.
  apply Keeps_every_pattern. kvec.
Qed.

End Vec.

Lemma runAllMatchers_frame m data (d : gmap string Detection) k :
  k ∉ map AppName (all_patterns m) →
  runAllMatchers tl Regexp rs mwt ev psc jpm df m data d !! k = d !! k.
Proof.
  intros Hk. assert (Hn : ∀ pi, pi ∈ all_patterns m → AppName pi ≠ k).
  { intros pi Hpi <-. apply Hk. by apply list_elem_of_fmap_2. }
  unfold runAllMatchers.
  destruct (PageData_ data) as [pd|].
  - rewrite (Keeps_matchDOM m k Hn), (Keeps_matchCSS m k Hn), (Keeps_matchJS m k Hn),
      (Keeps_matchHTML m k Hn), (Keeps_matchScript m k Hn), (Keeps_matchMeta m k Hn),
      (Keeps_matchScriptSrc m k Hn).
    destruct (MainResponse data) as [h|];
      [rewrite (Keeps_matchCookies m k Hn), (Keeps_matchHeaders m k Hn)|];
      by rewrite (Keeps_matchCertIssuer m k Hn), (Keeps_matchDNS m k Hn),
        (Keeps_matchRobots m k Hn), (Keeps_matchURL m k Hn).
  - destruct (MainResponse data) as [h|];
      [rewrite (Keeps_matchCookies m k Hn), (Keeps_matchHeaders m k Hn)|];
      by rewrite (Keeps_matchCertIssuer m k Hn), (Keeps_matchDNS m k Hn),
        (Keeps_matchRobots m k Hn), (Keeps_matchURL m k Hn).
Qed.

(** runAllMatchers writes only under the AppName of a pattern held by
    the matcher: every other entry of the map is left as it was. *)
Theorem runAllMatchers_only_pattern_names m data (d : gmap string Detection) k :
  k ∉ map AppName (all_patterns m) →
  runAllMatchers tl Regexp rs mwt ev psc jpm df m data d !! k = d !! k.
Proof. apply runAllMatchers_frame. Qed.

End Names.

Import Examples.

Lemma runAllMatchers_keeps_keys_witness :
  is_Some (({["Z" := ex_prior]} : gmap string Detection) !! "Z") ∧
  is_Some (runAllMatchers Str.to_lower string (fun s => s) ex_match ex_version ex_parse_set_cookie ex_js_matches
             ex_dom_find ex_matcher ex_data {["Z" := ex_prior]} !! "Z").
Proof.
  split; [exists ex_prior; reflexivity|].
  apply runAllMatchers_keeps_keys. exists ex_prior. reflexivity.
Defined.

Lemma runAllMatchers_only_pattern_names_witness :
  ("Z" ∉ map AppName (all_patterns ex_matcher)) ∧
  runAllMatchers Str.to_lower string (fun s => s) ex_match ex_version ex_parse_set_cookie ex_js_matches
    ex_dom_find ex_matcher ex_data ∅ !! "Z" = None.
Proof.
  assert (H : "Z" ∉ map AppName (all_patterns ex_matcher)).
  { apply (bool_decide_unpack _). vm_compute. reflexivity. }
  split; [exact H|].
  rewrite (runAllMatchers_only_pattern_names _ _ _ _ _ _ _ _ _ _ _ H). reflexivity.
Defined.
End ExtraMatcherProofs.

Module ExtraBuildProofs.
Import Engine.
Local Open Scope string_scope.
Local Open Scope list_scope.

Section Build.
Context (tl : string → string).
Context {Regexp : Type} (rc : string → option Regexp).

Local Abbreviation B := (BuildEfficientMatcher tl Regexp rc).
Local Abbreviation ci := (compile_i Regexp rc).
Local Abbreviation PI := (pattern_info Regexp).

Lemma add_list_elem n pats acc pi :
  pi ∈ add_list Regexp rc n pats acc ↔
  pi ∈ acc ∨ ∃ pat re, pat ∈ pats ∧ ci pat = Some re ∧ pi = PI re n pat.
Proof.
  revert acc. induction pats as [|pat pats IH]; intros acc; simpl.
  - split; [by left|]. intros [H|(? & ? & H & _)]; [done|by apply elem_of_nil in H].
  - rewrite IH. destruct (ci pat) as [re|] eqn:E.
    + rewrite elem_of_app, list_elem_of_singleton. split.
      * intros [[H|H]|(p & r & Hp & Hc & ->)]; [by left|right; subst; eexists _, _; split_and!; [by left|done|done]|].
        right. eexists _, _. split_and!; [by right|done|done].
      * intros [H|(p & r & Hp & Hc & ->)]; [by left; left|].
        apply elem_of_cons in Hp as [-> | Hp]; [left; right; congruence|].
        right. eexists _, _. done.
    + split.
      * intros [H|(p & r & Hp & Hc & ->)]; [by left|]. right. eexists _, _. split_and!; [by right|done|done].
      * intros [H|(p & r & Hp & Hc & ->)]; [by left|].
        apply elem_of_cons in Hp as [-> | Hp]; [congruence|]. right. eexists _, _. done.
Qed.

Lemma build_elem_gen {X} (F : EfficientMatcher Regexp → list (PatternInfo Regexp))
    (G : Fingerprint → list X) (R : string → X → PatternInfo Regexp → Prop)
    (HF : ∀ m n af pi, pi ∈ F (build_app tl Regexp rc m (n, af)) ↔ pi ∈ F m ∨ ∃ x, x ∈ G af ∧ R n x pi)
    (l : list (string * Fingerprint)) m pi :
  pi ∈ F (fold_left (build_app tl Regexp rc) l m) ↔
  pi ∈ F m ∨ ∃ n af x, (n, af) ∈ l ∧ x ∈ G af ∧ R n x pi.
Proof.
  revert m. induction l as [|[n af] l IH]; intros m; cbn [fold_left].
  - split; [by left|]. intros [H|(? & ? & ? & H & _)]; [done|by apply elem_of_nil in H].
  - rewrite IH, HF. split.
    + intros [[H|(x & Hx & HR)]|(n' & af' & x & Hl & Hx & HR)]; [by left| |].
      * right. exists n, af, x. split_and!; [by left|done..].
      * right. exists n', af', x. split_and!; [by right|done..].
    + intros [H|(n' & af' & x & Hl & Hx & HR)]; [by left; left|].
      apply elem_of_cons in Hl as [Heq|Hl].
      * injection Heq as -> ->. left. right. eauto.
      * right. exists n', af', x. done.
Qed.

Lemma build_apps_gen {X} (F : EfficientMatcher Regexp → list (PatternInfo Regexp))
    (G : Fingerprint → list X) (R : string → X → PatternInfo Regexp → Prop)
    (HF : ∀ m n af pi, pi ∈ F (build_app tl Regexp rc m (n, af)) ↔ pi ∈ F m ∨ ∃ x, x ∈ G af ∧ R n x pi)
    (HE : F (empty_matcher Regexp) = []) (apps : gmap string Fingerprint) pi :
  pi ∈ F (B apps) ↔ ∃ n af x, apps !! n = Some af ∧ x ∈ G af ∧ R n x pi.
Proof.
  unfold BuildEfficientMatcher. rewrite (build_elem_gen F G R HF), HE. split.
  - intros [H|(n & af & x & Hl & ?)]; [by apply elem_of_nil in H|].
    apply elem_of_map_to_list in Hl. eauto 10.
  - intros (n & af & x & Hl & ?). right. exists n, af, x.
    split; [by apply elem_of_map_to_list|done].
Qed.

Lemma build_list_apps (F : EfficientMatcher Regexp → list (PatternInfo Regexp))
    (G : Fingerprint → list ParsedPattern)
    (HF : ∀ m n af, F (build_app tl Regexp rc m (n, af)) = add_list Regexp rc n (G af) (F m))
    (HE : F (empty_matcher Regexp) = []) (apps : gmap string Fingerprint) pi :
  pi ∈ F (B apps) ↔
  ∃ n af pat re, apps !! n = Some af ∧ pat ∈ G af ∧ ci pat = Some re ∧ pi = PI re n pat.
Proof.
  rewrite (build_apps_gen F G (fun n pat pi => ∃ re, ci pat = Some re ∧ pi = PI re n pat)); [|
    intros m n af pi'; rewrite HF, add_list_elem; naive_solver|done].
  naive_solver.
Qed.

(** The list vectors of BuildEfficientMatcher hold exactly the
    compiled patterns of the apps: a PatternInfo is in HTMLPatterns
    (and likewise ScriptSrc, Script, CSS, URL and Robots) iff some app
    [n] lists a pattern [pat] in that field whose "(?i)"-prefixed regex
    compiles to [re], and the PatternInfo is [{re, n, pat.Commands}];
    patterns that fail to compile are dropped. *)
Theorem BuildEfficientMatcher_list_vectors (apps : gmap string Fingerprint) pi :
  (pi ∈ HTMLPatterns (B apps) ↔
     ∃ n af pat re, apps !! n = Some af ∧ pat ∈ HTML af ∧ ci pat = Some re ∧ pi = PI re n pat) ∧
  (pi ∈ ScriptSrcPatterns (B apps) ↔
     ∃ n af pat re, apps !! n = Some af ∧ pat ∈ ScriptSrc af ∧ ci pat = Some re ∧ pi = PI re n pat) ∧
  (pi ∈ ScriptPatterns (B apps) ↔
     ∃ n af pat re, apps !! n = Some af ∧ pat ∈ Script af ∧ ci pat = Some re ∧ pi = PI re n pat) ∧
  (pi ∈ CSSPatterns (B apps) ↔
     ∃ n af pat re, apps !! n = Some af ∧ pat ∈ CSS af ∧ ci pat = Some re ∧ pi = PI re n pat) ∧
  (pi ∈ URLPatterns (B apps) ↔
     ∃ n af pat re, apps !! n = Some af ∧ pat ∈ URL af ∧ ci pat = Some re ∧ pi = PI re n pat) ∧
  (pi ∈ RobotsPatterns (B apps) ↔
     ∃ n af pat re, apps !! n = Some af ∧ pat ∈ Robots af ∧ ci pat = Some re ∧ pi = PI re n pat).
Proof.
  split_and!; apply build_list_apps; done.
Qed.

Lemma existsb_eqb_elem (x : string) (l : list string) :
  existsb (String.eqb x) l = true ↔ x ∈ l.
Proof.
  induction l as [|y l IH]; simpl.
  - split; [done|intros H; by apply elem_of_nil in H].
  - rewrite orb_true_iff, IH, elem_of_cons, String.eqb_eq. naive_solver.
Qed.

Lemma add_dom_elem n pats acc pi :
  pi ∈ add_dom Regexp rc n pats acc ↔
  pi ∈ acc ∨ ∃ pat re, pat ∈ pats ∧ (Regex pat ∉ domTagDenylist) ∧
    has_specificity (Regex pat) = true ∧ rc (Regex pat) = Some re ∧ pi = PI re n pat.
Proof.
  revert acc. induction pats as [|pat pats IH]; intros acc; cbn [fold_left add_dom] in *.
  - split; [by left|]. intros [H|(? & ? & H & _)]; [done|by apply elem_of_nil in H].
  - unfold add_dom in *. cbn [fold_left]. rewrite IH.
    destruct (existsb (String.eqb (Regex pat)) domTagDenylist) eqn:Ed.
    { apply existsb_eqb_elem in Ed. split.
      - intros [H|(p & r & Hp & ?)]; [by left|]. right. exists p, r. split; [by right|done].
      - intros [H|(p & r & Hp & Hd & ?)]; [by left|].
        apply elem_of_cons in Hp as [-> | Hp]; [done|]. right. exists p, r. done. }
    assert (Hd : Regex pat ∉ domTagDenylist) by (rewrite <- existsb_eqb_elem; by rewrite Ed).
    destruct (has_specificity (Regex pat)) eqn:Es; cbn [negb].
    2:{ split.
      - intros [H|(p & r & Hp & ?)]; [by left|]. right. exists p, r. split; [by right|done].
      - intros [H|(p & r & Hp & Hd' & Hs & ?)]; [by left|].
        apply elem_of_cons in Hp as [-> | Hp]; [congruence|]. right. exists p, r. done. }
    destruct (rc (Regex pat)) as [re|] eqn:E.
    + rewrite elem_of_app, list_elem_of_singleton. split.
      * intros [[H| ->]|(p & r & Hp & ? & ? & ? & ->)]; [by left| |].
        -- right. exists pat, re. split_and!; [by left|done..].
        -- right. exists p, r. split_and!; [by right|done..].
      * intros [H|(p & r & Hp & Hd' & Hs & Hc & ->)]; [by left; left|].
        apply elem_of_cons in Hp as [-> | Hp]; [left; right; congruence|].
        right. exists p, r. done.
    + split.
      * intros [H|(p & r & Hp & ?)]; [by left|]. right. exists p, r. split; [by right|done].
      * intros [H|(p & r & Hp & Hd' & Hs & Hc & ->)]; [by left|].
        apply elem_of_cons in Hp as [-> | Hp]; [congruence|]. right. exists p, r. done.
Qed.

(** BuildEfficientMatcher's DOMPatterns holds exactly the DOM
    selectors of the apps that are not a bare tag of domTagDenylist,
    that contain one of '.', '#' or '[', and that compile (as
    regexps, without the "(?i)" prefix). *)
Theorem BuildEfficientMatcher_dom_vector (apps : gmap string Fingerprint) pi :
  pi ∈ DOMPatterns (B apps) ↔
  ∃ n af pat re, apps !! n = Some af ∧ pat ∈ DOM af ∧ (Regex pat ∉ domTagDenylist) ∧
    has_specificity (Regex pat) = true ∧ rc (Regex pat) = Some re ∧ pi = PI re n pat.
Proof.
  rewrite (build_apps_gen DOMPatterns DOM (fun n pat pi => ∃ re, (Regex pat ∉ domTagDenylist) ∧
    has_specificity (Regex pat) = true ∧ rc (Regex pat) = Some re ∧ pi = PI re n pat)); [|
    intros m n af pi'; cbn [build_app DOMPatterns]; rewrite add_dom_elem; naive_solver|done].
  naive_solver.
Qed.

Lemma push_lookup key k0 pi0 (acc : gmap string (list (PatternInfo Regexp))) :
  default [] (push Regexp k0 pi0 acc !! key) =
  default [] (acc !! key) ++ (if decide (key = k0) then [pi0] else []).
Proof.
  unfold push. destruct (decide (key = k0)) as [->|Hne].
  - by rewrite lookup_insert_eq.
  - rewrite lookup_insert_ne; [|done]. by rewrite app_nil_r.
Qed.

Lemma push_elem key k0 pi0 acc pi :
  pi ∈ default [] (push Regexp k0 pi0 acc !! key) ↔
  pi ∈ default [] (acc !! key) ∨ (key = k0 ∧ pi = pi0).
Proof.
  rewrite push_lookup, elem_of_app. destruct (decide (key = k0)).
  - rewrite list_elem_of_singleton. naive_solver.
  - split; [intros [H|H]; [by left|by apply elem_of_nil in H]|naive_solver].
Qed.

Lemma add_keyed_elem norm n (pats : list (string * ParsedPattern)) acc key pi :
  pi ∈ default [] (add_keyed Regexp rc norm n pats acc !! key) ↔
  pi ∈ default [] (acc !! key) ∨
  ∃ kp, kp ∈ pats ∧ norm kp.1 = key ∧ ∃ re, ci kp.2 = Some re ∧ pi = PI re n kp.2.
Proof.
  revert acc. induction pats as [|[k pat] pats IH]; intros acc; unfold add_keyed in *; cbn [fold_left].
  - split; [by left|]. intros [H|(? & H & _)]; [done|by apply elem_of_nil in H].
  - rewrite IH. destruct (ci pat) as [re|] eqn:E.
    + rewrite push_elem. split.
      * intros [[H|[-> ->]]|(kp & Hkp & Hn & r & Hc & ->)]; [by left| |].
        -- right. exists (k, pat). split_and!; [by left|done|eauto].
        -- right. exists kp. split_and!; [by right|done|eauto].
      * intros [H|([k' p] & Hkp & Hn & r & Hc & ->)]; [by left; left|].
        apply elem_of_cons in Hkp as [Heq|Hkp].
        -- injection Heq as -> ->. left. right. simpl in *. split; [done|congruence].
        -- right. exists (k', p). eauto.
    + split.
      * intros [H|(kp & Hkp & ?)]; [by left|]. right. exists kp. split; [by right|done].
      * intros [H|([k' p] & Hkp & Hn & r & Hc & ->)]; [by left|].
        apply elem_of_cons in Hkp as [Heq|Hkp].
        -- injection Heq as -> ->. simpl in Hc. congruence.
        -- right. exists (k', p). eauto.
Qed.

Lemma add_meta_elem n (metas : list (string * list ParsedPattern)) acc key pi :
  pi ∈ default [] (add_meta_patterns tl Regexp rc n metas acc !! key) ↔
  pi ∈ default [] (acc !! key) ∨
  ∃ mp, mp ∈ metas ∧ tl mp.1 = key ∧
    ∃ pat re, pat ∈ mp.2 ∧ ci pat = Some re ∧ pi = PI re n pat.
Proof.
  revert acc. induction metas as [|[mk pats] metas IH]; intros acc;
    unfold add_meta_patterns in *; cbn [fold_left].
  - split; [by left|]. intros [H|(? & H & _)]; [done|by apply elem_of_nil in H].
  - rewrite IH.
    assert (Hin : ∀ acc0, pi ∈ default [] (fold_left (fun acc pat => match ci pat with
                | Some re => push Regexp (tl mk) (PI re n pat) acc
                | None => acc end) pats acc0 !! key) ↔
              pi ∈ default [] (acc0 !! key) ∨
              (tl mk = key ∧ ∃ pat re, pat ∈ pats ∧ ci pat = Some re ∧ pi = PI re n pat)).
    { clear IH. induction pats as [|p ps IHp]; intros acc0; cbn [fold_left].
      - split; [by left|]. intros [H|(_ & ? & ? & H & _)]; [done|by apply elem_of_nil in H].
      - rewrite IHp. destruct (ci p) as [re|] eqn:E.
        + rewrite push_elem. split.
          * intros [[H|[-> ->]]|(Hk & p' & r & Hp & Hc & ->)]; [by left| |].
            -- right. split; [done|]. exists p, re. split_and!; [by left|done..].
            -- right. split; [done|]. exists p', r. split_and!; [by right|done..].
          * intros [H|(Hk & p' & r & Hp & Hc & ->)]; [by left; left|].
            apply elem_of_cons in Hp as [-> | Hp].
            -- left. right. split; [done|congruence].
            -- right. split; [done|]. exists p', r. done.
        + split.
          * intros [H|(Hk & p' & r & Hp & ?)]; [by left|]. right. split; [done|].
            exists p', r. split; [by right|done].
          * intros [H|(Hk & p' & r & Hp & Hc & ->)]; [by left|].
            apply elem_of_cons in Hp as [-> | Hp]; [congruence|].
            right. split; [done|]. exists p', r. done. }
    cbn beta. rewrite Hin. split.
    + intros [[H|(Hk & p & r & ?)]|(mp & Hmp & ?)]; [by left| |].
      * right. exists (mk, pats). split_and!; [by left|done|eauto].
      * right. exists mp. split; [by right|done].
    + intros [H|([mk' ps] & Hmp & Hk & p & r & ?)]; [by left; left|].
      apply elem_of_cons in Hmp as [Heq|Hmp].
      * injection Heq as -> ->. left. right. split; [done|eauto].
      * right. exists (mk', ps). eauto.
Qed.

Lemma build_keyed_gen {X} (K : EfficientMatcher Regexp → gmap string (list (PatternInfo Regexp)))
    (G : Fingerprint → list X) (R : string → X → PatternInfo Regexp → Prop) key
    (HF : ∀ m n af pi, pi ∈ default [] (K (build_app tl Regexp rc m (n, af)) !! key) ↔
                       pi ∈ default [] (K m !! key) ∨ ∃ x, x ∈ G af ∧ R n x pi)
    (HE : K (empty_matcher Regexp) = ∅) (apps : gmap string Fingerprint) pi :
  pi ∈ default [] (K (B apps) !! key) ↔ ∃ n af x, apps !! n = Some af ∧ x ∈ G af ∧ R n x pi.
Proof.
  apply (build_apps_gen (fun m => default [] (K m !! key)) G R HF). by rewrite HE.
Qed.

(** The keyed vectors of BuildEfficientMatcher hold exactly the
    compiled patterns of the apps under their key: HeaderPatterns,
    CookiePatterns and MetaPatterns under the strings.ToLower ([tl]) of
    the header, cookie or meta name, JSPatterns, DNSPatterns and CertIssuerPatterns under
    the key as written. *)
Theorem BuildEfficientMatcher_keyed_vectors (apps : gmap string Fingerprint) key pi :
  (pi ∈ default [] (HeaderPatterns (B apps) !! key) ↔
     ∃ n af hk pat re, apps !! n = Some af ∧ (hk, pat) ∈ Headers af ∧ tl hk = key ∧
       ci pat = Some re ∧ pi = PI re n pat) ∧
  (pi ∈ default [] (CookiePatterns (B apps) !! key) ↔
     ∃ n af ck pat re, apps !! n = Some af ∧ (ck, pat) ∈ Cookies af ∧ tl ck = key ∧
       ci pat = Some re ∧ pi = PI re n pat) ∧
  (pi ∈ default [] (MetaPatterns (B apps) !! key) ↔
     ∃ n af mk pats pat re, apps !! n = Some af ∧ (mk, pats) ∈ Meta af ∧ tl mk = key ∧
       pat ∈ pats ∧ ci pat = Some re ∧ pi = PI re n pat) ∧
  (pi ∈ default [] (JSPatterns (B apps) !! key) ↔
     ∃ n af pat re, apps !! n = Some af ∧ (key, pat) ∈ JS af ∧ ci pat = Some re ∧ pi = PI re n pat) ∧
  (pi ∈ default [] (DNSPatterns (B apps) !! key) ↔
     ∃ n af pat re, apps !! n = Some af ∧ (key, pat) ∈ DNS af ∧ ci pat = Some re ∧ pi = PI re n pat) ∧
  (pi ∈ default [] (CertIssuerPatterns (B apps) !! key) ↔
     ∃ n af pat re, apps !! n = Some af ∧ (key, pat) ∈ FingerprintCertIssuer af ∧
       ci pat = Some re ∧ pi = PI re n pat).
Proof.
  split_and!.
  - rewrite (build_keyed_gen HeaderPatterns Headers (fun n kp pi => tl kp.1 = key ∧
      ∃ re, ci kp.2 = Some re ∧ pi = PI re n kp.2) key); [| |done].
    + split; [intros (n & af & [hk p] & ?); naive_solver|].
      intros (n & af & hk & p & ?). exists n, af, (hk, p). naive_solver.
    + intros m n af pi'. cbn [build_app HeaderPatterns]. apply add_keyed_elem.
  - rewrite (build_keyed_gen CookiePatterns Cookies (fun n kp pi => tl kp.1 = key ∧
      ∃ re, ci kp.2 = Some re ∧ pi = PI re n kp.2) key); [| |done].
    + split; [intros (n & af & [hk p] & ?); naive_solver|].
      intros (n & af & hk & p & ?). exists n, af, (hk, p). naive_solver.
    + intros m n af pi'. cbn [build_app CookiePatterns]. apply add_keyed_elem.
  - rewrite (build_keyed_gen MetaPatterns Meta (fun n mp pi => tl mp.1 = key ∧
      ∃ pat re, pat ∈ mp.2 ∧ ci pat = Some re ∧ pi = PI re n pat) key); [| |done].
    + split; [intros (n & af & [mk ps] & ?); naive_solver|].
      intros (n & af & mk & ps & ?). exists n, af, (mk, ps). naive_solver.
    + intros m n af pi'. cbn [build_app MetaPatterns]. apply add_meta_elem.
  - rewrite (build_keyed_gen JSPatterns JS (fun n kp pi => kp.1 = key ∧
      ∃ re, ci kp.2 = Some re ∧ pi = PI re n kp.2) key); [| |done].
    + split; [intros (n & af & [hk p] & ? & ? & [= ->] & ?); naive_solver|].
      intros (n & af & p & ?). exists n, af, (key, p). naive_solver.
    + intros m n af pi'. cbn [build_app JSPatterns]. apply add_keyed_elem.
  - rewrite (build_keyed_gen DNSPatterns DNS (fun n kp pi => kp.1 = key ∧
      ∃ re, ci kp.2 = Some re ∧ pi = PI re n kp.2) key); [| |done].
    + split; [intros (n & af & [hk p] & ? & ? & [= ->] & ?); naive_solver|].
      intros (n & af & p & ?). exists n, af, (key, p). naive_solver.
    + intros m n af pi'. cbn [build_app DNSPatterns]. apply add_keyed_elem.
  - rewrite (build_keyed_gen CertIssuerPatterns FingerprintCertIssuer (fun n kp pi => kp.1 = key ∧
      ∃ re, ci kp.2 = Some re ∧ pi = PI re n kp.2) key); [| |done].
    + split; [intros (n & af & [hk p] & ? & ? & [= ->] & ?); naive_solver|].
      intros (n & af & p & ?). exists n, af, (key, p). naive_solver.
    + intros m n af pi'. cbn [build_app CertIssuerPatterns]. apply add_keyed_elem.
Qed.

Lemma push_nonempty k0 pi0 (acc : gmap string (list (PatternInfo Regexp))) :
  (∀ key l, acc !! key = Some l → l ≠ []) →
  ∀ key l, push Regexp k0 pi0 acc !! key = Some l → l ≠ [].
Proof.
  intros H key l. unfold push. destruct (decide (key = k0)) as [->|Hne].
  - rewrite lookup_insert_eq. intros [= <-]. by destruct (default [] _).
  - rewrite lookup_insert_ne; [apply H|done].
Qed.

Lemma add_keyed_nonempty norm n pats acc :
  (∀ key l, acc !! key = Some l → l ≠ []) →
  ∀ key l, add_keyed Regexp rc norm n pats acc !! key = Some l → l ≠ [].
Proof.
  revert acc. induction pats as [|[k pat] pats IH]; intros acc H; unfold add_keyed in *;
    cbn [fold_left]; [done|].
  apply IH. destruct (ci pat); [by apply push_nonempty|done].
Qed.

Lemma add_meta_nonempty n metas acc :
  (∀ key l, acc !! key = Some l → l ≠ []) →
  ∀ key l, add_meta_patterns tl Regexp rc n metas acc !! key = Some l → l ≠ [].
Proof.
  revert acc. induction metas as [|[mk pats] metas IH]; intros acc H; unfold add_meta_patterns in *;
    cbn [fold_left]; [done|].
  apply IH. clear IH. revert acc H. induction pats as [|p ps IHp]; intros acc H; cbn [fold_left]; [done|].
  apply IHp. destruct (ci p); [by apply push_nonempty|done].
Qed.

Lemma build_nonempty (K : EfficientMatcher Regexp → gmap string (list (PatternInfo Regexp)))
    (HK : ∀ m e, (∀ key l, K m !! key = Some l → l ≠ []) →
                 ∀ key l, K (build_app tl Regexp rc m e) !! key = Some l → l ≠ [])
    (HE : K (empty_matcher Regexp) = ∅) apps :
  ∀ key l, K (B apps) !! key = Some l → l ≠ [].
Proof.
  unfold BuildEfficientMatcher.
  assert (Hgen : ∀ es m, (∀ key l, K m !! key = Some l → l ≠ []) →
            ∀ key l, K (fold_left (build_app tl Regexp rc) es m) !! key = Some l → l ≠ []).
  { intros es. induction es as [|e es IH]; intros m Hm; cbn [fold_left]; [done|].
    apply IH. by apply HK. }
  apply Hgen. rewrite HE. intros key l H. by rewrite lookup_empty in H.
Qed.

(** The keys of HeaderPatterns, CookiePatterns and MetaPatterns built
    by BuildEfficientMatcher are lowered names: each is the
    strings.ToLower of a header, cookie or meta name of some app of the
    database, the form under which the matchers look names up; and no
    key holds an empty pattern list. *)
Theorem BuildEfficientMatcher_keys_lowered (apps : gmap string Fingerprint) key l :
  (HeaderPatterns (B apps) !! key = Some l → l ≠ [] ∧
     ∃ n af hk pat, apps !! n = Some af ∧ (hk, pat) ∈ Headers af ∧ tl hk = key) ∧
  (CookiePatterns (B apps) !! key = Some l → l ≠ [] ∧
     ∃ n af ck pat, apps !! n = Some af ∧ (ck, pat) ∈ Cookies af ∧ tl ck = key) ∧
  (MetaPatterns (B apps) !! key = Some l → l ≠ [] ∧
     ∃ n af mk pats, apps !! n = Some af ∧ (mk, pats) ∈ Meta af ∧ tl mk = key).
Proof.
  split_and!; intros Hk.
  - assert (Hne : l ≠ []).
    { refine (build_nonempty HeaderPatterns _ eq_refl apps key l Hk).
      intros m [n af] Hm. cbn [build_app HeaderPatterns]. by apply add_keyed_nonempty. }
    split; [done|]. destruct l as [|pi l]; [done|].
    assert (Hpi : pi ∈ default [] (HeaderPatterns (B apps) !! key)) by (rewrite Hk; by left).
    rewrite (build_keyed_gen HeaderPatterns Headers (fun n kp pi => tl kp.1 = key ∧
      ∃ re, ci kp.2 = Some re ∧ pi = PI re n kp.2) key) in Hpi; [|intros; apply add_keyed_elem|done].
    destruct Hpi as (n & af & [hk pat] & Hn & Hx & Hl & _). by exists n, af, hk, pat.
  - assert (Hne : l ≠ []).
    { refine (build_nonempty CookiePatterns _ eq_refl apps key l Hk).
      intros m [n af] Hm. cbn [build_app CookiePatterns]. by apply add_keyed_nonempty. }
    split; [done|]. destruct l as [|pi l]; [done|].
    assert (Hpi : pi ∈ default [] (CookiePatterns (B apps) !! key)) by (rewrite Hk; by left).
    rewrite (build_keyed_gen CookiePatterns Cookies (fun n kp pi => tl kp.1 = key ∧
      ∃ re, ci kp.2 = Some re ∧ pi = PI re n kp.2) key) in Hpi; [|intros; apply add_keyed_elem|done].
    destruct Hpi as (n & af & [ck pat] & Hn & Hx & Hl & _). by exists n, af, ck, pat.
  - assert (Hne : l ≠ []).
    { refine (build_nonempty MetaPatterns _ eq_refl apps key l Hk).
      intros m [n af] Hm. cbn [build_app MetaPatterns]. by apply add_meta_nonempty. }
    split; [done|]. destruct l as [|pi l]; [done|].
    assert (Hpi : pi ∈ default [] (MetaPatterns (B apps) !! key)) by (rewrite Hk; by left).
    rewrite (build_keyed_gen MetaPatterns Meta (fun n mp pi => tl mp.1 = key ∧
      ∃ pat re, pat ∈ mp.2 ∧ ci pat = Some re ∧ pi = PI re n pat) key) in Hpi;
      [|intros; apply add_meta_elem|done].
    destruct Hpi as (n & af & [mk pats] & Hn & Hx & Hl & _). by exists n, af, mk, pats.
Qed.

Lemma all_patterns_apps (apps : gmap string Fingerprint) pi :
  pi ∈ MatcherFacts.all_patterns (B apps) → is_Some (apps !! AppName pi).
Proof.
  unfold MatcherFacts.all_patterns. rewrite !elem_of_app. intros H.
  repeat match type of H with _ ∨ _ => destruct H as [H|H] end;
  try (first [ apply (build_list_apps HTMLPatterns HTML) in H
             | apply (build_list_apps ScriptSrcPatterns ScriptSrc) in H
             | apply (build_list_apps ScriptPatterns Script) in H
             | apply (build_list_apps CSSPatterns CSS) in H
             | apply (build_list_apps URLPatterns URL) in H
             | apply (build_list_apps RobotsPatterns Robots) in H ];
       [destruct H as (n & af & pat & re & Hn & _ & _ & ->); by eexists|done|done]).
  - apply ExtraMatcherProofs.keyed_elem in H; destruct H as (key & l & Hk & Hpi).
    assert (H : pi ∈ default [] (HeaderPatterns (B apps) !! key)) by (by rewrite Hk).
    apply (build_keyed_gen HeaderPatterns Headers (fun n kp pi => tl kp.1 = key ∧
      ∃ re, ci kp.2 = Some re ∧ pi = PI re n kp.2) key) in H.
    3: done. 2: (intros m n af pi'; cbn [build_app HeaderPatterns]; apply add_keyed_elem).
    destruct H as (n & af & kp & Hn & _ & _ & re & _ & ->). by eexists.
  - apply ExtraMatcherProofs.keyed_elem in H; destruct H as (key & l & Hk & Hpi).
    assert (H : pi ∈ default [] (CookiePatterns (B apps) !! key)) by (by rewrite Hk).
    apply (build_keyed_gen CookiePatterns Cookies (fun n kp pi => tl kp.1 = key ∧
      ∃ re, ci kp.2 = Some re ∧ pi = PI re n kp.2) key) in H.
    3: done. 2: (intros m n af pi'; cbn [build_app CookiePatterns]; apply add_keyed_elem).
    destruct H as (n & af & kp & Hn & _ & _ & re & _ & ->). by eexists.
  - apply ExtraMatcherProofs.keyed_elem in H; destruct H as (key & l & Hk & Hpi).
    assert (H : pi ∈ default [] (MetaPatterns (B apps) !! key)) by (by rewrite Hk).
    apply (build_keyed_gen MetaPatterns Meta (fun n mp pi => tl mp.1 = key ∧
      ∃ pat re, pat ∈ mp.2 ∧ ci pat = Some re ∧ pi = PI re n pat) key) in H.
    3: done. 2: (intros m n af pi'; cbn [build_app MetaPatterns]; apply add_meta_elem).
    destruct H as (n & af & kp & Hn & _ & _ & pat & re & _ & _ & ->). by eexists.
  - apply ExtraMatcherProofs.keyed_elem in H; destruct H as (key & l & Hk & Hpi).
    assert (H : pi ∈ default [] (JSPatterns (B apps) !! key)) by (by rewrite Hk).
    apply (build_keyed_gen JSPatterns JS (fun n kp pi => kp.1 = key ∧
      ∃ re, ci kp.2 = Some re ∧ pi = PI re n kp.2) key) in H.
    3: done. 2: (intros m n af pi'; cbn [build_app JSPatterns]; apply add_keyed_elem).
    destruct H as (n & af & kp & Hn & _ & _ & re & _ & ->). by eexists.
  - apply (build_apps_gen DOMPatterns DOM (fun n pat pi => ∃ re, (Regex pat ∉ domTagDenylist) ∧
      has_specificity (Regex pat) = true ∧ rc (Regex pat) = Some re ∧ pi = PI re n pat)) in H.
    3: done. 2: (intros m n af pi'; cbn [build_app DOMPatterns]; rewrite add_dom_elem; naive_solver).
    destruct H as (n & af & pat & Hn & _ & re & _ & _ & _ & ->). by eexists.
  - apply ExtraMatcherProofs.keyed_elem in H; destruct H as (key & l & Hk & Hpi).
    assert (H : pi ∈ default [] (DNSPatterns (B apps) !! key)) by (by rewrite Hk).
    apply (build_keyed_gen DNSPatterns DNS (fun n kp pi => kp.1 = key ∧
      ∃ re, ci kp.2 = Some re ∧ pi = PI re n kp.2) key) in H.
    3: done. 2: (intros m n af pi'; cbn [build_app DNSPatterns]; apply add_keyed_elem).
    destruct H as (n & af & kp & Hn & _ & _ & re & _ & ->). by eexists.
  - apply ExtraMatcherProofs.keyed_elem in H; destruct H as (key & l & Hk & Hpi).
    assert (H : pi ∈ default [] (CertIssuerPatterns (B apps) !! key)) by (by rewrite Hk).
    apply (build_keyed_gen CertIssuerPatterns FingerprintCertIssuer (fun n kp pi => kp.1 = key ∧
      ∃ re, ci kp.2 = Some re ∧ pi = PI re n kp.2) key) in H.
    3: done. 2: (intros m n af pi'; cbn [build_app CertIssuerPatterns]; apply add_keyed_elem).
    destruct H as (n & af & kp & Hn & _ & _ & re & _ & ->). by eexists.
Qed.

End Build.

Lemma BuildEfficientMatcher_keys_lowered_witness :
  ∃ l, HeaderPatterns (BuildEfficientMatcher Str.to_lower string (fun s => Some s)
                         {["A" := Examples.ex_header_fp "K"]}) !! "k" = Some l ∧
       l ≠ [] ∧
       ∃ n af hk pat, ({["A" := Examples.ex_header_fp "K"]} : gmap string Fingerprint) !! n = Some af ∧
         (hk, pat) ∈ Headers af ∧ Str.to_lower hk = "k".
Proof.
  eexists. split; [reflexivity|].
  apply (proj1 (BuildEfficientMatcher_keys_lowered Str.to_lower (fun s => Some s)
                  {["A" := Examples.ex_header_fp "K"]} "k" _)). reflexivity.
Defined.

End ExtraBuildProofs.

Module ExtraAnalysisProofs.
Import Engine Analysis Examples.
Local Open Scope string_scope.
Local Open Scope list_scope.

(** When FingerprintURL returns a map and the matcher is the one
    BuildEfficientMatcher makes from the fingerprint database [apps],
    every technology in the map is a name of [apps] or a name listed in
    the implies list of a fingerprint of [apps]. *)
Theorem FingerprintURL_known_names {Error URLT Regexp : Type} (tl : string → string)
    (http_get : string → Error + Response) (url_parse : string → Error + URLT)
    (hostname robots_url : URLT → string) (lookup_txt lookup_mx : string → list string * option Error)
    (cert_cache : string → option string) (rc : string → option Regexp) (rs : Regexp → string)
    (mwt : Regexp → string → option (string * list string))
    (ev : gmap string string → list string → string) (psc : string → option (string * string))
    (jpm : string → list (list string)) (df : Dom.Doc → string → bool)
    (hp : string → option Dom.Doc) (apps : gmap string Fingerprint)
    targetUrl received (D : gmap string Detection) e :
  FingerprintURL tl Error http_get URLT url_parse hostname robots_url lookup_txt lookup_mx cert_cache
    Regexp rs mwt ev psc jpm df hp apps (BuildEfficientMatcher tl Regexp rc apps) targetUrl received
    = (Some D, e) →
  ∀ k, is_Some (D !! k) → is_Some (apps !! k) ∨ ∃ t app, apps !! t = Some app ∧ k ∈ Implies app.
Proof.
  unfold FingerprintURL. intros HF k Hk.
  assert (HD : D = detect tl Error http_get URLT url_parse hostname robots_url lookup_txt lookup_mx
                 cert_cache Regexp rs mwt ev psc jpm df hp apps (BuildEfficientMatcher tl Regexp rc apps)
                 targetUrl).
  { destruct (IsFatal _ _); [discriminate|]. destruct (RobotsErr _); congruence. }
  subst D. unfold detect in Hk.
  set (d1 := runAllMatchers tl Regexp rs mwt ev psc jpm df (BuildEfficientMatcher tl Regexp rc apps) _ ∅) in Hk.
  assert (Hd1 : is_Some (d1 !! k) → is_Some (apps !! k)).
  { intros Hs. destruct (decide (k ∈ map AppName (MatcherFacts.all_patterns
                                   (BuildEfficientMatcher tl Regexp rc apps)))) as [Hin|Hn].
    - apply list_elem_of_fmap in Hin as (pi & -> & Hpi).
      by apply ExtraBuildProofs.all_patterns_apps in Hpi.
    - unfold d1 in Hs. rewrite ExtraMatcherProofs.runAllMatchers_frame in Hs; [|done].
      rewrite lookup_empty in Hs. by destruct Hs. }
  destruct (Implies.runImpliesEngine apps _ d1) as [s|] eqn:Hr; [|by left; apply Hd1].
  destruct (ImpliesProofs.run_seed_inv _ _ _ _ Hr) as [_ Hnew].
  destruct Hk as [x Hx]. destruct (d1 !! k) as [y|] eqn:E1; [left; apply Hd1; by eexists|].
  destruct (Hnew _ _ Hx E1) as (t & src & app & _ & _ & Ht & Hu & _). right. eauto.
Qed.

Lemma FingerprintURL_known_names_witness :
  let apps : gmap string Fingerprint := {[ "A" := ex_header_fp "k" ]} in
  let m := BuildEfficientMatcher Str.to_lower string (fun s => Some (String.substring 4 (String.length s - 4) s)) apps in
  let received := [Build_fetchResult "dns" None; Build_fetchResult "robots" (Some "connection refused");
                   Build_fetchResult "main" None] in
  let D := detect Str.to_lower string ex_http_get string ex_url_parse (fun u => u) ex_robots_url
             ex_lookup_txt ex_lookup_mx ex_cert_cache string (fun r => r) ex_match ex_version
             ex_parse_set_cookie ex_js_matches ex_dom_find ex_html_parse apps m "http://x" in
  FingerprintURL Str.to_lower string ex_http_get string ex_url_parse (fun u => u) ex_robots_url
    ex_lookup_txt ex_lookup_mx ex_cert_cache string (fun r => r) ex_match ex_version
    ex_parse_set_cookie ex_js_matches ex_dom_find ex_html_parse apps m "http://x" received =
    (Some D, Some (Build_AnalysisError None (Some "connection refused") None)) ∧
  is_Some (D !! "A") ∧
  (∀ k, is_Some (D !! k) → is_Some (apps !! k) ∨ ∃ t app, apps !! t = Some app ∧ k ∈ Implies app).
Proof.
  intros apps m received D.
  assert (HF : FingerprintURL Str.to_lower string ex_http_get string ex_url_parse (fun u => u) ex_robots_url
    ex_lookup_txt ex_lookup_mx ex_cert_cache string (fun r => r) ex_match ex_version
    ex_parse_set_cookie ex_js_matches ex_dom_find ex_html_parse apps m "http://x" received =
    (Some D, Some (Build_AnalysisError None (Some "connection refused") None))) by reflexivity.
  split; [exact HF|]. split; [vm_compute; by eexists|].
  exact (FingerprintURL_known_names Str.to_lower ex_http_get ex_url_parse (fun u => u) ex_robots_url
    ex_lookup_txt ex_lookup_mx ex_cert_cache
    (fun s => Some (String.substring 4 (String.length s - 4) s)) (fun r => r) ex_match ex_version
    ex_parse_set_cookie ex_js_matches ex_dom_find ex_html_parse apps "http://x" received D _ HF).
Defined.

End ExtraAnalysisProofs.

Module ExtraCategoryProofs.
Import Categories.
Local Open Scope string_scope.
Local Open Scope list_scope.

Lemma cats_fold_None apps cm (l : list (string * Detection)) :
  fold_left (categories_step apps cm) l None = None.
Proof. induction l as [|[? ?] l IH]; cbn [fold_left categories_step]; [done|exact IH]. Qed.

Lemma cats_fold apps cm (l : list (string * Detection)) r0 :
  (fold_left (categories_step apps cm) l (Some r0) = None ↔
     ∃ tech, tech ∈ map fst l ∧ apps !! tech = Some None) ∧
  ∀ r, fold_left (categories_step apps cm) l (Some r0) = Some r →
    ∀ tech, r !! tech =
      match apps !! tech with
      | Some (Some cats) => if decide (tech ∈ map fst l)
                            then Some {| Cats := cats; Names := GetCategoryNames cm cats |}
                            else r0 !! tech
      | _ => r0 !! tech
      end.
Proof.
  revert r0. induction l as [|[t x] l IH]; intros r0; cbn [fold_left map fst categories_step].
  - split.
    + split; [done|]. intros (tech & H & _). by apply elem_of_nil in H.
    + intros r [= <-] tech. destruct (apps !! tech) as [[cats|]|]; [|done|done].
      rewrite decide_False; [done|]. intros H; by apply elem_of_nil in H.
  - destruct (apps !! t) as [[cats|]|] eqn:Ht.
    + destruct (IH (<[t := {| Cats := cats; Names := GetCategoryNames cm cats |}]> r0)) as [IH1 IH2].
      split.
      * rewrite IH1. split; intros (tech & Hin & Hn); exists tech; split; try done.
        -- by right.
        -- apply elem_of_cons in Hin as [->|Hin]; [congruence|done].
      * intros r Hr tech. rewrite (IH2 r Hr tech).
        destruct (decide (tech = t)) as [->|Hne].
        -- rewrite Ht. rewrite lookup_insert_eq.
           destruct (decide (t ∈ map fst l)); rewrite decide_True; try done; by left.
        -- rewrite lookup_insert_ne; [|done].
           destruct (apps !! tech) as [[c|]|]; [|done|done].
           destruct (decide (tech ∈ map fst l)) as [Hi|Hi].
           ++ rewrite decide_True; [done|by right].
           ++ rewrite decide_False; [done|]. intros Hc. apply elem_of_cons in Hc as [->|]; done.
    + rewrite cats_fold_None. split.
      * split; [intros _; exists t; split; [by left|done]|done].
      * done.
    + destruct (IH r0) as [IH1 IH2]. split.
      * rewrite IH1. split; intros (tech & Hin & Hn); exists tech; split; try done.
        -- by right.
        -- apply elem_of_cons in Hin as [->|Hin]; [congruence|done].
      * intros r Hr tech. rewrite (IH2 r Hr tech).
        destruct (apps !! tech) as [[c|]|] eqn:Hc; [|done|done].
        destruct (decide (tech = t)) as [->|Hne]; [congruence|].
        destruct (decide (tech ∈ map fst l)) as [Hi|Hi].
        -- rewrite decide_True; [done|by right].
        -- rewrite decide_False; [done|]. intros H. apply elem_of_cons in H as [->|]; done.
Qed.

Lemma GetCategories_fold apps cm techs :
  GetCategories apps cm techs = fold_left (categories_step apps cm) (map_to_list techs) (Some ∅).
Proof. reflexivity. Qed.

(** GetCategories panics (a nil fingerprint's Cats is read) exactly
    when a detected technology names a nil entry of the database.
    Otherwise it returns, for each detected technology with a
    fingerprint and for no other name, that fingerprint's category ids
    together with the names of those ids found in the category map, in
    the ids' order (ids missing from the map are skipped). *)
Theorem GetCategories_spec (apps : gmap string (option (list Z))) (cm : gmap Z string)
    (techs : gmap string Detection) :
  (GetCategories apps cm techs = None ↔ ∃ tech, is_Some (techs !! tech) ∧ apps !! tech = Some None) ∧
  ∀ r, GetCategories apps cm techs = Some r → ∀ tech ci,
    r !! tech = Some ci ↔
    is_Some (techs !! tech) ∧ ∃ cats, apps !! tech = Some (Some cats) ∧
      ci = {| Cats := cats; Names := omap (fun id => cm !! id) cats |}.
Proof.
  rewrite GetCategories_fold.
  destruct (cats_fold apps cm (map_to_list techs) ∅) as [H1 H2].
  assert (Hk : ∀ tech, tech ∈ map fst (map_to_list techs) ↔ is_Some (techs !! tech)).
  { intros tech. rewrite list_elem_of_fmap. split.
    - intros ([t x] & -> & Hin). apply elem_of_map_to_list in Hin. by eexists.
    - intros [x Hx]. exists (tech, x). split; [done|]. by apply elem_of_map_to_list. }
  split.
  - rewrite H1. split; intros (tech & Hin & Hn); exists tech; split; try done; by apply Hk.
  - intros r Hr tech ci. rewrite (H2 r Hr tech).
    destruct (apps !! tech) as [[cats|]|].
    + destruct (decide _) as [Hi|Hi].
      * split; [intros [= <-]; split; [by apply Hk|by eexists]|].
        intros [_ (c & [= <-] & ->)]. done.
      * rewrite lookup_empty. split; [done|]. intros [Hs _]. by apply Hk in Hs.
    + rewrite lookup_empty. split; [done|]. intros [_ (c & ? & _)]. done.
    + rewrite lookup_empty. split; [done|]. intros [_ (c & ? & _)]. done.
Qed.

Lemma GetCategories_spec_witness :
  ∃ r, GetCategories {["A" := Some [1%Z; 2%Z]]} {[1%Z := "CMS"%string]} {["A" := Examples.ex_prior]} = Some r ∧
    r !! "A"%string = Some {| Cats := [1%Z; 2%Z]; Names := ["CMS"%string] |}.
Proof.
  destruct (GetCategories {["A" := Some [1%Z; 2%Z]]} {[1%Z := "CMS"%string]} {["A" := Examples.ex_prior]})
    as [r|] eqn:E; [|vm_compute in E; discriminate].
  exists r. split; [reflexivity|].
  apply (proj2 (GetCategories_spec _ _ _) r E "A" _). split; [exists Examples.ex_prior; reflexivity|].
  exists [1%Z; 2%Z]. split; reflexivity.
Defined.

End ExtraCategoryProofs.

Module ExtraProfilerProofs.
Import Version Profiler.
Local Open Scope string_scope.
Local Open Scope list_scope.

Lemma append_cons c x y : String.append (String c x) y = String c (String.append x y).
Proof. reflexivity. Qed.

Lemma append_nil y : String.append "" y = y.
Proof. reflexivity. Qed.

Lemma prefix_nil s : String.prefix "" s = true.
Proof. by destruct s. Qed.

Lemma substring_all s : String.substring 0 (String.length s) s = s.
Proof. induction s as [|c s IH]; simpl; [done|by rewrite IH]. Qed.

Lemma substring_long s m : (String.length s ≤ m)%nat → String.substring 0 m s = s.
Proof.
  revert m. induction s as [|c s IH]; intros m Hm; simpl.
  - by destruct m.
  - destruct m as [|m]; [simpl in Hm; lia|]. simpl in Hm. rewrite IH; [done|lia].
Qed.

Lemma prefix_app_substring_gen (old s : string) m :
  String.prefix old s = true → (String.length s ≤ m)%nat →
  s = String.append old (String.substring (String.length old) m s).
Proof.
  revert s. induction old as [|c o IH]; intros s H Hm.
  - rewrite append_nil. by rewrite substring_long.
  - destruct s as [|c' s']; [done|]. simpl in H.
    destruct (ascii_dec c c') as [->|]; [|done]. cbn [String.length String.substring].
    rewrite append_cons. f_equal. apply IH; [done|simpl in Hm; lia].
Qed.

Lemma prefix_app_substring (old s : string) :
  String.prefix old s = true →
  s = String.append old (String.substring (String.length old) (String.length s) s).
Proof. intros H. by apply prefix_app_substring_gen. Qed.

Lemma contains_char_app c x y :
  contains_char c (String.append x y) = contains_char c x || contains_char c y.
Proof. induction x as [|d x IH]; [done|]. rewrite append_cons. simpl. by rewrite IH, orb_assoc. Qed.

Lemma contains_char_substring c n m s :
  contains_char c (String.substring n m s) = true → contains_char c s = true.
Proof.
  revert n m. induction s as [|d s IH]; intros n m; simpl.
  - by destruct n, m.
  - destruct n as [|n]; [destruct m as [|m]; simpl; [done|]|].
    + intros H. apply orb_true_iff in H as [H|H]; [by rewrite H|].
      apply orb_true_iff. right. by apply (IH 0 m).
    + intros H. apply orb_true_iff. right. by apply (IH n m).
Qed.

(** The bytes of ReplaceAll's result come from [s] or from [new]. *)
Lemma replace_all_chars f c old new s :
  contains_char c (replace_all_fuel f old new s) = true →
  contains_char c s = true ∨ contains_char c new = true.
Proof.
  revert s. induction f as [|f IH]; intros s; simpl; [by left|].
  destruct s as [|d s']; [by left|].
  destruct (String.prefix old (String d s')) eqn:Hp.
  - rewrite contains_char_app. intros H. apply orb_true_iff in H as [H|H]; [by right|].
    apply IH in H as [H|H]; [left|by right]. by eapply contains_char_substring.
  - simpl. intros H. apply orb_true_iff in H as [H|H]; [left; simpl; by rewrite H|].
    apply IH in H as [H|H]; [left; simpl; by rewrite H, orb_true_r|by right].
Qed.

(** With enough fuel, replacing a one-byte [old] removes every
    occurrence of that byte unless [new] brings it back. *)
Lemma replace_all_removes f c new s :
  (String.length s ≤ f)%nat → contains_char c new = false →
  contains_char c (replace_all_fuel f (String c "") new s) = false.
Proof.
  revert s. induction f as [|f IH]; intros s Hf Hn; simpl.
  - destruct s; [done|simpl in Hf; lia].
  - destruct s as [|d s']; [done|]. simpl. destruct (ascii_dec c d) as [->|Hne].
    + rewrite prefix_nil, contains_char_app, Hn, substring_long; [|lia].
      apply IH; [simpl in Hf; lia|done].
    + simpl. apply orb_false_iff. split.
      * apply Ascii.eqb_neq. done.
      * apply IH; [simpl in Hf; lia|done].
Qed.

Lemma pgf_weaken b s : plus_guarded_from false s = true → plus_guarded_from b s = true.
Proof.
  destruct s as [|c s]; simpl; [done|]. intros H. destruct b; [|done].
  rewrite orb_true_r. apply andb_true_iff in H as [_ H]. exact H.
Qed.

Lemma pgf_app b x y :
  plus_guarded_from b x = true → plus_guarded_from false y = true →
  plus_guarded_from b (String.append x y) = true.
Proof.
  revert b. induction x as [|c x IH]; intros b Hx Hy; [by apply pgf_weaken|]. rewrite append_cons.
  simpl in *.
  apply andb_true_iff in Hx as [H1 H2]. rewrite H1. simpl. by apply IH.
Qed.

Lemma pgf_after_old b old t :
  old ≠ "" → contains_char "\" old = false →
  plus_guarded_from b (String.append old t) = true → plus_guarded_from false t = true.
Proof.
  revert b. induction old as [|c o IH]; intros b Hne Hbs H; [done|]. rewrite append_cons in H.
  simpl in *.
  apply orb_false_iff in Hbs as [Hc Ho].
  apply andb_true_iff in H as [_ H].
  assert (Hcb : Ascii.eqb c "\" = false) by (rewrite Ascii.eqb_sym; exact Hc).
  rewrite Hcb in H. destruct o as [|c' o]; [exact H|]. eapply IH; [done|exact Ho|exact H].
Qed.

Lemma pgf_no_plus b s : contains_char "+" s = false → plus_guarded_from b s = true.
Proof.
  revert b. induction s as [|c s IH]; intros b H; simpl in *; [done|].
  apply orb_false_iff in H as [Hc Hs].
  assert (Hcb : Ascii.eqb c "+" = false) by (rewrite Ascii.eqb_sym; exact Hc).
  rewrite Hcb. simpl. by apply IH.
Qed.

(** ReplaceAll keeps every '+' right after a backslash when [old]
    holds no backslash and [new] is itself guarded. *)
Lemma replace_all_guarded f old new s b :
  old ≠ "" → contains_char "\" old = false → (∀ b', plus_guarded_from b' new = true) →
  plus_guarded_from b s = true → plus_guarded_from b (replace_all_fuel f old new s) = true.
Proof.
  intros Hne Hbs Hnew. revert s b. induction f as [|f IH]; intros s b Hs; simpl; [done|].
  destruct s as [|c s']; [done|].
  destruct (String.prefix old (String c s')) eqn:Hp.
  - apply pgf_app; [apply Hnew|]. apply IH.
    apply prefix_app_substring in Hp. rewrite Hp in Hs. eapply pgf_after_old; eauto.
  - simpl in *. apply andb_true_iff in Hs as [H1 H2]. rewrite H1. simpl. by apply IH.
Qed.

Lemma ReplaceAll_chars c s old new :
  contains_char c (ReplaceAll s old new) = true → contains_char c s = true ∨ contains_char c new = true.
Proof. apply replace_all_chars. Qed.

(** The profiler's ParsePattern compiles a regex with no '*' and with
    every '+' right after a backslash: the rewriting replaces each '+'
    by {1,250} and each '*' by {0,250}, keeps an escaped \+ as it was,
    and rewrites the version captures to bounded forms. *)
Theorem rewrite_regex_bounded (part : string) :
  contains_char "*" (rewrite_regex part) = false ∧
  plus_guarded_from false (rewrite_regex part) = true.
Proof.
  unfold rewrite_regex.
  set (r3 := ReplaceAll (ReplaceAll (ReplaceAll part verCap1 verCap1Fill) verCap2 verCap2Fill)
               "\+" "__escapedPlus__").
  set (r4 := ReplaceAll r3 "+" "{1,250}").
  assert (H4 : contains_char "+" r4 = false).
  { apply replace_all_removes; [done|reflexivity]. }
  set (r5 := ReplaceAll r4 "*" "{0,250}").
  assert (H5s : contains_char "*" r5 = false).
  { apply replace_all_removes; [done|reflexivity]. }
  assert (H5p : contains_char "+" r5 = false).
  { apply not_true_iff_false. intros E.
    apply ReplaceAll_chars in E as [E|E]; [congruence|discriminate]. }
  split.
  - apply not_true_iff_false. intros E.
    apply ReplaceAll_chars in E as [E|E]; [|discriminate].
    apply ReplaceAll_chars in E as [E|E]; [|discriminate].
    apply ReplaceAll_chars in E as [E|E]; [congruence|discriminate].
  - apply replace_all_guarded; [done|reflexivity|intros b'; by apply pgf_no_plus|].
    apply replace_all_guarded; [done|reflexivity|intros b'; by apply pgf_no_plus|].
    apply replace_all_guarded; [done|reflexivity|intros []; reflexivity|].
    by apply pgf_no_plus.
Qed.

Lemma parse_option_fields {R} (p : ParsedPattern R) part :
  SkipRegex R (parse_option R p part) = SkipRegex R p ∧ regex R (parse_option R p part) = regex R p.
Proof.
  unfold parse_option. destruct (Normalizer.split_first_colon part) as [[k v]|]; [|done].
  destruct (String.eqb k "confidence"); [done|]. by destruct (String.eqb k "version").
Qed.

Lemma fold_parse_option_fields {R} (l : list string) (p : ParsedPattern R) :
  SkipRegex R (fold_left (parse_option R) l p) = SkipRegex R p ∧
  regex R (fold_left (parse_option R) l p) = regex R p.
Proof.
  revert p. induction l as [|x l IH]; intros p; simpl; [done|].
  destruct (IH (parse_option R p x)) as [-> ->]. apply parse_option_fields.
Qed.

Lemma split_head_sep rest :
  head (Normalizer.Split (String "\" (String ";" rest)) "\;") = Some "".
Proof.
  unfold Normalizer.Split. cbn [String.length Normalizer.split_fuel].
  assert (Hp : String.prefix "\;" (String "\" (String ";" rest)) = true) by (cbn; apply prefix_nil).
  by rewrite Hp.
Qed.

(** A profiler pattern with an empty regex part (the empty pattern, or
    one that starts with "\;", such as "\;version:1.0") never fails to
    parse and matches every target, always with an empty version: the
    version option is not evaluated. *)
Theorem ParsePattern_skip_regex {R : Type} (rc : string → option R) (mwt : R → string → list string)
    (pattern : string) :
  (pattern = "" ∨ ∃ rest, pattern = String "\" (String ";" rest)) →
  ∃ p, ParsePattern R rc pattern = Some p ∧ SkipRegex R p = true ∧ regex R p = None ∧
    ∀ target, Evaluate R mwt p target = (true, "").
Proof.
  intros Hp. unfold ParsePattern.
  assert (Hh : String.eqb (default "" (head (Normalizer.Split pattern "\;"))) "" = true).
  { destruct Hp as [->|[rest ->]]; [reflexivity|]. by rewrite split_head_sep. }
  rewrite Hh. cbn [SkipRegex].
  eexists. split; [reflexivity|].
  destruct (fold_parse_option_fields (R := R) (tail (Normalizer.Split pattern "\;"))
    {| regex := None; PConfidence := 100%Z; PVersion := ""; SkipRegex := true |}) as [Hs Hr].
  rewrite Hs, Hr. split_and!; [done|done|]. intros target. unfold Evaluate. by rewrite Hs.
Qed.

Lemma ParsePattern_skip_regex_witness :
  ∃ p, ParsePattern string (fun s => Some s) "\;version:1.0" = Some p ∧ SkipRegex string p = true ∧
    regex string p = None ∧
    ∀ target, Evaluate string (fun re t => if String.eqb re t then [t] else []) p target = (true, "").
Proof.
  apply ParsePattern_skip_regex. right. eexists. reflexivity.
Defined.

End ExtraProfilerProofs.

Module ExtraRegexCleanProofs.
Import RegexClean.
Local Open Scope string_scope.
Local Open Scope list_scope.

Lemma balanced_from_iff (b : Z) (s : string) :
  (0 ≤ b)%Z →
  balanced_from b s = true ↔
  ((b + paren_depth s = 0)%Z ∧ ∀ n, (0 ≤ b + paren_depth (String.substring 0 n s))%Z).
Proof.
  revert b. induction s as [|c s IH]; intros b Hb; cbn [balanced_from paren_depth].
  - split.
    + intros H. apply Z.eqb_eq in H. split; [lia|]. intros [|n]; cbn; lia.
    + intros [H _]. apply Z.eqb_eq. lia.
  - set (b' := (if Ascii.eqb c "(" then (b + 1)%Z else if Ascii.eqb c ")" then (b - 1)%Z else b)).
    assert (Hd : b' = (b + (if Ascii.eqb c "(" then 1 else if Ascii.eqb c ")" then -1 else 0))%Z).
    { unfold b'. destruct (Ascii.eqb c "("), (Ascii.eqb c ")"); cbn; lia. }
    clearbody b'.
    destruct (Z.ltb b' 0) eqn:Hlt.
    + apply Z.ltb_lt in Hlt. split; [done|]. intros [_ H]. specialize (H 1%nat).
      cbn [String.substring paren_depth] in H.
      replace (String.substring 0 0 s) with "" in H by (destruct s; reflexivity).
      cbn [paren_depth] in H. lia.
    + apply Z.ltb_ge in Hlt. rewrite (IH b' Hlt). split.
      * intros [H1 H2]. split; [lia|]. intros [|n]; cbn [String.substring paren_depth]; [lia|].
        specialize (H2 n). lia.
      * intros [H1 H2]. split; [lia|]. intros n. specialize (H2 (S n)).
        cbn [String.substring paren_depth] in H2. lia.
Qed.

(** areParenthesesBalanced holds exactly when the string has as many
    "(" as ")" and no prefix of it has more ")" than "(". *)
Theorem areParenthesesBalanced_spec (s : string) :
  areParenthesesBalanced s = true ↔
  (paren_depth s = 0%Z ∧ ∀ n, (0 ≤ paren_depth (String.substring 0 n s))%Z).
Proof.
  unfold areParenthesesBalanced. rewrite (balanced_from_iff 0 s); [|lia]. done.
Qed.

Lemma is_digit19_digit c : is_digit19 c = true → is_digit c = true.
Proof.
  unfold is_digit19, is_digit. intros H. apply andb_true_iff in H as [H1 H2].
  apply Nat.leb_le in H1. apply andb_true_iff. split; apply Nat.leb_le; [lia|].
  by apply Nat.leb_le.
Qed.

Lemma strip_backrefs_inv (n : nat) : ∀ b s, (String.length s ≤ n)%nat →
  has_backref (strip_backrefs b s) = false ∧
  ∀ d t, strip_backrefs b s = String d t →
    (b = true → is_digit d = false) ∧ (b = false → is_digit19 d = true → ∃ t', s = String d t').
Proof.
  induction n as [|n IH]; intros b s Hl.
  - destruct s; [|cbn in Hl; lia]. split; [done|]. intros d t H. done.
  - destruct s as [|c s']; [split; [done|intros d t H; done]|].
    cbn in Hl. cbn [strip_backrefs].
    destruct (b && is_digit c) eqn:E1.
    + apply andb_true_iff in E1 as [-> _].
      destruct (IH true s' ltac:(lia)) as [H1 H2]. split; [done|].
      intros d t Ht. split; [|done]. intros _. by apply (H2 d t Ht).
    + destruct (Ascii.eqb c "\" && match s' with String d _ => is_digit19 d | EmptyString => false end) eqn:E2.
      * destruct s' as [|x s'']; [rewrite andb_false_r in E2; done|].
        cbn in Hl. destruct (IH true s'' ltac:(lia)) as [H1 H2]. split; [done|].
        intros d t Ht. destruct (H2 d t Ht) as [H3 _]. specialize (H3 eq_refl).
        split; [done|]. intros _ Hd. apply is_digit19_digit in Hd. congruence.
      * destruct (IH false s' ltac:(lia)) as [H1 H2]. split.
        -- cbn [has_backref]. rewrite H1, orb_false_r.
           destruct (Ascii.eqb c "\") eqn:Ec; [|done]. cbn.
           destruct (strip_backrefs false s') as [|d t] eqn:Es; [done|].
           destruct (is_digit19 d) eqn:Ed; [|done].
           destruct (H2 d t eq_refl) as [_ H4]. destruct (H4 eq_refl Ed) as [t' ->].
           rewrite Ed in E2. done.
        -- intros d t [= <- <-]. split.
           ++ intros ->. done.
           ++ intros _ _. by eexists.
Qed.

(** One pass of the backreference removal leaves no backslash followed
    by a digit 1-9 in the pattern, even when a removed match was preceded
    by a backslash. *)
Theorem strip_backrefs_complete (raw : string) :
  has_backref (strip_backrefs false raw) = false.
Proof. by destruct (strip_backrefs_inv (String.length raw) false raw ltac:(lia)). Qed.

Lemma strip_backrefs_id_gen (raw : string) :
  has_backref raw = false → strip_backrefs false raw = raw.
Proof.
  induction raw as [|c s IH]; intros H; [done|].
  cbn [has_backref] in H. apply orb_false_iff in H as [H1 H2].
  cbn [strip_backrefs]. rewrite andb_false_l, H1. by rewrite IH.
Qed.

(** A pattern without a backslash followed by a digit 1-9 goes through
    the backreference removal unchanged. *)
Theorem strip_backrefs_no_backref (raw : string) :
  has_backref raw = false → strip_backrefs false raw = raw.
Proof. apply strip_backrefs_id_gen. Qed.

Lemma strip_backrefs_no_backref_witness :
  has_backref "a\\b(c)" = false ∧ strip_backrefs false "a\\b(c)" = "a\\b(c)".
Proof.
  split; [reflexivity|]. apply strip_backrefs_no_backref. reflexivity.
Defined.

Section Tree.
Context {F : Type}.

Lemma Regexp_nested_ind (P : Regexp F → Prop) :
  (∀ op f subs, Forall P subs → P (RNode F op f subs)) → ∀ r, P r.
Proof.
  intros H. refine (fix IH r := match r with RNode _ op f subs => H op f subs _ end).
  induction subs as [|x l IHl]; constructor; [apply IH|apply IHl].
Qed.
Lemma existsb_false_Forall {A} (f : A → bool) (l : list A) :
  existsb f l = false ↔ Forall (λ x, f x = false) l.
Proof.
  induction l as [|x l IH]; cbn; [split; [constructor|done]|].
  rewrite orb_false_iff, Forall_cons, IH. done.
Qed.

Lemma transform_props (r : Regexp F) :
  has_capture F (transform F r) = false ∧ (has_capture F r = false → transform F r = r).
Proof.
  induction r as [op f subs IH] using Regexp_nested_ind.
  assert (Hm1 : existsb (has_capture F) (map (transform F) subs) = false).
  { apply existsb_false_Forall. apply Forall_map.
    eapply Forall_impl; [exact IH|]. intros x [Hx _]. exact Hx. }
  split.
  - cbn [transform]. destruct (map (transform F) subs) as [|s0 rest] eqn:E.
    + cbn. by destruct (is_capture op).
    + destruct (is_capture op) eqn:Ec.
      * destruct subs as [|x xs]; [done|]. cbn in E. injection E as <- _.
        apply Forall_cons in IH as [[Hx _] _]. exact Hx.
      * cbn [has_capture]. rewrite Ec. cbn. done.
  - cbn [has_capture]. intros H. apply orb_false_iff in H as [H1 H2].
    apply existsb_false_Forall in H2.
    assert (Hm : map (transform F) subs = subs).
    { clear H1 Hm1. induction subs as [|x l IHl]; [done|].
      apply Forall_cons in IH as [[_ Hx] IH]. apply Forall_cons in H2 as [Hx2 H2].
      cbn. rewrite (Hx Hx2). f_equal. by apply IHl. }
    cbn [transform]. rewrite Hm. destruct subs as [|x xs]; [done|].
    destruct (is_capture op); done.
Qed.

(** The capture unwrapping of cleanWappalyzerPatternAST leaves no
    capture node with a sub-expression in the tree, leaves a tree
    without one unchanged, and so applying it twice is the same as once. *)
Theorem transform_unwraps_captures (r : Regexp F) :
  has_capture F (transform F r) = false ∧
  (has_capture F r = false → transform F r = r) ∧
  transform F (transform F r) = transform F r.
Proof.
  destruct (transform_props r) as [H1 H2]. split; [done|]. split; [done|].
  by apply transform_props.
Qed.
End Tree.

Lemma transform_unwraps_captures_witness :
  has_capture unit (RNode unit OpLiteral tt []) = false ∧
  transform unit (RNode unit OpLiteral tt []) = RNode unit OpLiteral tt [] ∧
  transform unit (RNode unit OpCapture tt [RNode unit OpLiteral tt []]) = RNode unit OpLiteral tt [].
Proof.
  split; [reflexivity|]. split.
  - apply (transform_unwraps_captures (F := unit)). reflexivity.
  - reflexivity.
Defined.
End ExtraRegexCleanProofs.

Module ExtraNormalizerProofs.
Import Normalizer ExtraProfilerProofs.
Local Open Scope string_scope.
Local Open Scope list_scope.

Lemma prefix_sep c s :
  String.prefix "\;" (String c s) =
  Ascii.eqb c "\" && match s with String d _ => Ascii.eqb d ";" | EmptyString => false end.
Proof.
  cbn [String.prefix]. destruct (ascii_dec "\" c) as [<-|Hc].
  - destruct s as [|d s]; [done|]. cbn [String.prefix].
    destruct (ascii_dec ";" d) as [<-|Hd]; cbn.
    + by destruct s.
    + destruct (Ascii.eqb d ";") eqn:E; [apply Ascii.eqb_eq in E; congruence|done].
  - destruct (Ascii.eqb c "\") eqn:E; [apply Ascii.eqb_eq in E; congruence|done].
Qed.

Lemma split_no_sep (p : string) f :
  contains_sep p = false → (String.length p ≤ f)%nat → split_fuel f "\;" p = [p].
Proof.
  revert f. induction p as [|c p IH]; intros f Hs Hl.
  - by destruct f.
  - destruct f as [|f]; [cbn in Hl; lia|]. cbn [contains_sep] in Hs.
    apply orb_false_iff in Hs as [H1 H2]. cbn [split_fuel].
    rewrite prefix_sep, H1. cbn in Hl. rewrite IH; [done|done|lia].
Qed.

Lemma split_at_sep (p rest : string) f :
  contains_sep p = false → (String.length p + 2 + String.length rest ≤ f)%nat →
  split_fuel f "\;" (p +:+ String "\" (String ";" rest)) =
    p :: split_fuel (f - String.length p - 1) "\;" rest.
Proof.
  revert f. induction p as [|c p IH]; intros f Hs Hl.
  - destruct f as [|f]; [cbn in Hl; lia|]. rewrite append_nil. cbn [split_fuel].
    rewrite prefix_sep. cbn [Ascii.eqb andb]. cbn [String.length String.substring].
    rewrite substring_long; [|lia]. cbn. by replace (f - 0)%nat with f by lia.
  - destruct f as [|f]; [cbn in Hl; lia|]. cbn [contains_sep] in Hs.
    apply orb_false_iff in Hs as [H1 H2]. rewrite append_cons. cbn [split_fuel].
    assert (Hp : String.prefix "\;" (String c (p +:+ String "\" (String ";" rest))) = false).
    { rewrite prefix_sep. destruct p as [|d p].
      - rewrite append_nil. destruct (Ascii.eqb c "\"); done.
      - rewrite append_cons. exact H1. }
    rewrite Hp. cbn in Hl. rewrite IH; [|done|lia]. cbn [String.length].
    by replace (S f - S (String.length p) - 1)%nat with (f - String.length p - 1)%nat by lia.
Qed.

Lemma length_append (x y : string) : String.length (x +:+ y) = (String.length x + String.length y)%nat.
Proof. induction x as [|c x IH]; [done|]. rewrite append_cons. cbn. by rewrite IH. Qed.

Lemma split_join (parts : list string) f :
  parts ≠ [] → Forall (λ p, contains_sep p = false) parts →
  (String.length (Str.join "\;" parts) ≤ f)%nat →
  split_fuel f "\;" (Str.join "\;" parts) = parts.
Proof.
  revert f. induction parts as [|x l IH]; intros f Hne Hs Hl; [done|].
  apply Forall_cons in Hs as [Hx Hs]. destruct l as [|y l].
  - cbn [Str.join] in *. by apply split_no_sep.
  - change (Str.join "\;" (x :: y :: l)) with (x +:+ ("\;" +:+ Str.join "\;" (y :: l))) in *.
    rewrite length_append in Hl. cbn [String.length] in Hl.
    change ("\;" +:+ Str.join "\;" (y :: l)) with (String "\" (String ";" (Str.join "\;" (y :: l)))) in *.
    cbn [String.length] in Hl.
    rewrite split_at_sep; [|done|lia]. f_equal. apply IH; [done|done|lia].
Qed.

Lemma split_first_colon_app (k v : string) :
  Version.contains_char ":" k = false → split_first_colon (k +:+ String ":" v) = Some (k, v).
Proof.
  induction k as [|c k IH]; intros H; [done|].
  cbn [Version.contains_char] in H. apply orb_false_iff in H as [H1 H2].
  rewrite append_cons. cbn [split_first_colon].
  assert (Hc : Ascii.eqb c ":" = false) by (rewrite Ascii.eqb_sym; exact H1).
  rewrite Hc, IH; done.
Qed.

Lemma fold_commands (cmds : list (string * string)) (m : gmap string string) :
  Forall (λ kv, Version.contains_char ":" kv.1 = false) cmds →
  fold_left (fun cmds part =>
        match split_first_colon part with
        | Some (k, v) => <[k := v]> cmds
        | None => cmds
        end) (map (λ kv, kv.1 +:+ String ":" kv.2) cmds) m =
  fold_left (λ m kv, <[kv.1 := kv.2]> m) cmds m.
Proof.
  revert m. induction cmds as [|[k v] cmds IH]; intros m Hc; [done|].
  apply Forall_cons in Hc as [Hk Hc]. cbn [map fold_left].
  cbn [fst snd]. rewrite split_first_colon_app; [|done].
  by apply IH.
Qed.
(** parseWappalyzerDSL inverts the joining of a regex and its
    [key:value] commands with the separator [\;]: when none of the parts
    contains the separator, no key contains a colon and the joined text is
    not empty, it gives back the regex and the commands, a repeated key
    keeping its last value. *)
Theorem parseWappalyzerDSL_roundtrip (r : string) (cmds : list (string * string)) :
  contains_sep r = false →
  Forall (λ kv, Version.contains_char ":" kv.1 = false ∧
                contains_sep (kv.1 +:+ String ":" kv.2) = false) cmds →
  Str.join "\;" (r :: map (λ kv, kv.1 +:+ String ":" kv.2) cmds) ≠ "" →
  parseWappalyzerDSL (Str.join "\;" (r :: map (λ kv, kv.1 +:+ String ":" kv.2) cmds)) =
    Some {| Regex := r; Commands := list_to_map (rev cmds) |}.
Proof.
  intros Hr Hc Hne. unfold parseWappalyzerDSL.
  destruct (String.eqb _ "") eqn:E; [apply String.eqb_eq in E; contradiction|].
  unfold Split. rewrite split_join; [|done| |lia].
  - cbn [head tail default]. rewrite fold_commands.
    + unfold list_to_map. rewrite fold_left_rev_right. reflexivity.
    + eapply Forall_impl; [exact Hc|]. intros kv [H _]. exact H.
  - constructor; [done|]. apply Forall_map. eapply Forall_impl; [exact Hc|]. intros kv [_ H]. exact H.
Qed.

Lemma parseWappalyzerDSL_roundtrip_witness :
  parseWappalyzerDSL "jquery\;version:\1\;confidence:50" =
    Some {| Regex := "jquery"; Commands := {["confidence" := "50"]} ∪ {["version" := "\1"]} |}.
Proof.
  refine (parseWappalyzerDSL_roundtrip "jquery" [("version", "\1"); ("confidence", "50")] _ _ _).
  - reflexivity.
  - repeat constructor.
  - discriminate.
Defined.
End ExtraNormalizerProofs.

Module ExtraAnalysisErrorProofs.
Import Engine Analysis ExtraProfilerProofs.
Local Open Scope string_scope.
Local Open Scope list_scope.

Section Errors.
Context {Error : Type}.

Lemma aggregate_snoc (l : list (fetchResult Error)) r :
  aggregate Error (l ++ [r]) =
    match err r with
    | None => aggregate Error l
    | Some x =>
        if String.eqb (kind r) "main" then
          Build_AnalysisError (Some x) (RobotsErr (aggregate Error l)) (DNSErr (aggregate Error l))
        else if String.eqb (kind r) "robots" then
          Build_AnalysisError (MainPageErr (aggregate Error l)) (Some x) (DNSErr (aggregate Error l))
        else if String.eqb (kind r) "dns" then
          Build_AnalysisError (MainPageErr (aggregate Error l)) (RobotsErr (aggregate Error l)) (Some x)
        else aggregate Error l
    end.
Proof. unfold aggregate. by rewrite fold_left_app. Qed.

Lemma aggregate_last_gen (received : list (fetchResult Error)) :
  MainPageErr (aggregate Error received) =
    last (omap (λ r, if String.eqb (kind r) "main" then err r else None) received) ∧
  RobotsErr (aggregate Error received) =
    last (omap (λ r, if String.eqb (kind r) "robots" then err r else None) received) ∧
  DNSErr (aggregate Error received) =
    last (omap (λ r, if String.eqb (kind r) "dns" then err r else None) received).
Proof.
  induction received as [|r l IH] using rev_ind; [done|].
  destruct IH as (IH1 & IH2 & IH3). rewrite aggregate_snoc, !omap_app, !last_app.
  destruct r as [k [x|]]; cbn.
  - destruct (String.eqb k "main") eqn:Em; [apply String.eqb_eq in Em as ->; cbn; done|].
    destruct (String.eqb k "robots") eqn:Er; [apply String.eqb_eq in Er as ->; cbn; done|].
    destruct (String.eqb k "dns") eqn:Ed; [apply String.eqb_eq in Ed as ->; cbn; done|].
    cbn. done.
  - repeat destruct (String.eqb k _); cbn; done.
Qed.

(** Each field of the error FingerprintURL aggregates from errChan is the
    error of the last failed result of that kind received; results
    without error and results of another kind leave it as it was. *)
Theorem aggregate_last_error (received : list (fetchResult Error)) :
  MainPageErr (aggregate Error received) =
    last (omap (λ r, if String.eqb (kind r) "main" then err r else None) received) ∧
  RobotsErr (aggregate Error received) =
    last (omap (λ r, if String.eqb (kind r) "robots" then err r else None) received) ∧
  DNSErr (aggregate Error received) =
    last (omap (λ r, if String.eqb (kind r) "dns" then err r else None) received).
Proof. apply aggregate_last_gen. Qed.

Lemma perm_short {A} (l l' : list A) : l ≡ₚ l' → (length l' ≤ 1)%nat → l = l'.
Proof.
  intros Hp Hl. destruct l' as [|a [|b l']].
  - by apply Permutation_nil.
  - by apply Permutation_length_1_inv.
  - cbn in Hl. lia.
Qed.

Lemma AnalysisError_eq (e e' : AnalysisError Error) :
  MainPageErr e = MainPageErr e' → RobotsErr e = RobotsErr e' → DNSErr e = DNSErr e' → e = e'.
Proof. destruct e, e'; cbn; intros -> -> ->. done. Qed.

Context (http_get : string → Error + Response) {URLT : Type}
  (url_parse : string → Error + URLT) (hostname : URLT → string) (robots_url : URLT → string)
  (lookup_txt lookup_mx : string → list string * option Error).

Local Abbreviation sent0 := (sent Error http_get URLT url_parse hostname robots_url lookup_txt lookup_mx).

Lemma sent_kind_once targetUrl (k : string) :
  (length (omap (λ r, if String.eqb (kind r) k then err r else None) (sent0 targetUrl)) ≤ 1)%nat.
Proof.
  unfold sent, main_task, robots_task, dns_task.
  repeat case_match; cbn [list_omap omap kind err fst snd];
  destruct (String.eqb_spec "main" k), (String.eqb_spec "robots" k), (String.eqb_spec "dns" k);
  subst; cbn; try congruence; lia.
Qed.

(** The three goroutines each send one result on errChan; in whatever
    order they arrive, the aggregated error is the same. *)
Theorem aggregate_arrival_order targetUrl (received : list (fetchResult Error)) :
  received ≡ₚ sent0 targetUrl → aggregate Error received = aggregate Error (sent0 targetUrl).
Proof.
  intros Hp. destruct (aggregate_last_gen received) as (H1 & H2 & H3).
  destruct (aggregate_last_gen (sent0 targetUrl)) as (H1' & H2' & H3').
  apply AnalysisError_eq.
  - rewrite H1, H1'. f_equal. apply perm_short; [by rewrite Hp|apply sent_kind_once].
  - rewrite H2, H2'. f_equal. apply perm_short; [by rewrite Hp|apply sent_kind_once].
  - rewrite H3, H3'. f_equal. apply perm_short; [by rewrite Hp|apply sent_kind_once].
Qed.
End Errors.

Lemma aggregate_arrival_order_witness :
  let s := sent string Examples.ex_http_get string Examples.ex_url_parse (fun u => u)
             Examples.ex_robots_url Examples.ex_lookup_txt Examples.ex_lookup_mx "http://x" in
  rev s ≡ₚ s ∧ aggregate string (rev s) = aggregate string s.
Proof.
  intros s. assert (Hp : rev s ≡ₚ s) by (symmetry; apply Permutation_rev).
  split; [exact Hp|].
  exact (aggregate_arrival_order Examples.ex_http_get Examples.ex_url_parse (fun u => u)
           Examples.ex_robots_url Examples.ex_lookup_txt Examples.ex_lookup_mx "http://x" (rev s) Hp).
Defined.

Lemma prefix_append (x y : string) : String.prefix x (x +:+ y) = true.
Proof.
  induction x as [|c x IH]; [apply prefix_nil|]. rewrite append_cons. cbn.
  destruct (ascii_dec c c); [exact IH|congruence].
Qed.

Section Message.
Context {Error : Type} (error_string : Error → string).

Lemma Error_prefix (e : AnalysisError Error) :
  is_Some (MainPageErr e) ∨ is_Some (DNSErr e) ∨ is_Some (RobotsErr e) →
  String.prefix "analysis failed: " (AnalysisError_Error Error error_string e) = true.
Proof.
  destruct e as [[m|] [r|] [d|]]; cbn [MainPageErr RobotsErr DNSErr];
    intros H; unfold AnalysisError_Error; cbn [MainPageErr RobotsErr DNSErr app];
    try apply prefix_append.
  destruct H as [[? H]|[[? H]|[? H]]]; done.
Qed.

(** The Error string of an AnalysisError is empty exactly when none of
    its three errors (main page, DNS, robots.txt) is set. *)
Theorem AnalysisError_Error_empty (e : AnalysisError Error) :
  AnalysisError_Error Error error_string e = "" ↔
  MainPageErr e = None ∧ DNSErr e = None ∧ RobotsErr e = None.
Proof.
  split.
  - intros H. destruct (MainPageErr e) eqn:Hm; [|destruct (DNSErr e) eqn:Hd;
      [|destruct (RobotsErr e) eqn:Hr; [|done]]];
    (assert (Hp : String.prefix "analysis failed: " (AnalysisError_Error Error error_string e) = true)
      by (apply Error_prefix; rewrite ?Hm, ?Hd, ?Hr; eauto));
    rewrite H in Hp; discriminate.
  - destruct e as [m r d]; cbn. intros (-> & -> & ->). reflexivity.
Qed.
End Message.

(** Whenever FingerprintURL returns an error, whether the analysis was
    fatal or only robots.txt failed, its message is not empty: it starts
    with "analysis failed: ". *)
Theorem FingerprintURL_error_message {Error URLT Regexp : Type} (tl : string → string)
    (error_string : Error → string) http_get url_parse hostname robots_url lookup_txt lookup_mx cert_cache
    (rs : Regexp → string) mwt ev psc jpm df hp apps matcher targetUrl received r e :
  FingerprintURL tl Error http_get URLT url_parse hostname robots_url lookup_txt lookup_mx cert_cache
    Regexp rs mwt ev psc jpm df hp apps matcher targetUrl received = (r, Some e) →
  String.prefix "analysis failed: " (AnalysisError_Error Error error_string e) = true.
Proof.
  unfold FingerprintURL. cbv zeta.
  destruct (IsFatal Error (aggregate Error received)) eqn:HF.
  - intros [= _ <-]. apply Error_prefix. unfold IsFatal in HF.
    destruct (MainPageErr (aggregate Error received)); [left; by eexists|].
    destruct (DNSErr (aggregate Error received)); [right; left; by eexists|done].
  - destruct (RobotsErr (aggregate Error received)) eqn:HR; [|done].
    intros [= _ <-]. apply Error_prefix. right; right. rewrite HR. by eexists.
Qed.

Lemma FingerprintURL_error_message_witness :
  FingerprintURL Str.to_lower string Examples.ex_http_get string Examples.ex_url_parse (fun u => u)
    Examples.ex_robots_url Examples.ex_lookup_txt Examples.ex_lookup_mx Examples.ex_cert_cache
    string (fun r => r) Examples.ex_match Examples.ex_version Examples.ex_parse_set_cookie
    Examples.ex_js_matches Examples.ex_dom_find Examples.ex_html_parse ∅ Examples.ex_matcher "http://x"
    [Build_fetchResult "main" (Some "timeout")] =
    (None, Some (Build_AnalysisError (Some "timeout") None None)) ∧
  String.prefix "analysis failed: "
    (AnalysisError_Error string (fun s => s) (Build_AnalysisError (Some "timeout") None None)) = true.
Proof.
  assert (HF : FingerprintURL Str.to_lower string Examples.ex_http_get string Examples.ex_url_parse (fun u => u)
    Examples.ex_robots_url Examples.ex_lookup_txt Examples.ex_lookup_mx Examples.ex_cert_cache
    string (fun r => r) Examples.ex_match Examples.ex_version Examples.ex_parse_set_cookie
    Examples.ex_js_matches Examples.ex_dom_find Examples.ex_html_parse ∅ Examples.ex_matcher "http://x"
    [Build_fetchResult "main" (Some "timeout")] =
    (None, Some (Build_AnalysisError (Some "timeout") None None))) by reflexivity.
  split; [exact HF|]. exact (FingerprintURL_error_message Str.to_lower (fun s => s) _ _ _ _ _ _ _ _ _ _ _ _ _ _ _ _ _ _ _ _ HF).
Defined.
End ExtraAnalysisErrorProofs.

Module ExtraDomProofs.
Import Dom Engine.
Local Open Scope string_scope.
Local Open Scope list_scope.

Lemma meta_fold (ns : list Node) (m0 : gmap string (list string)) k :
  fold_left add_meta ns m0 !! k =
  match omap (λ n, match meta_name n, meta_content n with
                   | Some nm, Some c => if String.eqb nm k then Some c else None
                   | _, _ => None
                   end) ns with
  | [] => m0 !! k
  | l => Some (default [] (m0 !! k) ++ l)
  end.
Proof.
  revert m0. induction ns as [|n ns IH]; intros m0; [done|].
  assert (Ho : ∀ (f : Node → option string) ns',
    omap f (n :: ns') = match f n with Some y => y :: omap f ns' | None => omap f ns' end)
    by reflexivity.
  cbn [fold_left]. rewrite IH, Ho. cbv beta.
  unfold add_meta at 1 2.
  destruct (meta_name n) as [nm|], (meta_content n) as [c|]; try done.
  destruct (String.eqb_spec nm k) as [->|Hne].
  - rewrite lookup_insert_eq. cbn [default].
    destruct (omap _ ns) as [|x l]; [done|]. unfold id. by rewrite <- app_assoc.
  - rewrite lookup_insert_ne; [|done].
    destruct (omap _ ns) as [|x l]; done.
Qed.

(** collectDataFromDOM's meta map holds, under each name, the contents
    of the <meta> elements carrying that name and a content, in document
    order; a later element appends rather than overwrites, and a name
    without such an element is absent. *)
Theorem meta_map_lookup (doc : Doc) (k : string) :
  meta_map doc !! k =
  match omap (λ n, match meta_name n, meta_content n with
                   | Some nm, Some c => if String.eqb nm k then Some c else None
                   | _, _ => None
                   end) (find (is_tag "meta") doc) with
  | [] => None
  | l => Some l
  end.
Proof.
  unfold meta_map. rewrite meta_fold, lookup_empty. cbn [default app].
  destruct (omap _ _); done.
Qed.

End ExtraDomProofs.

Module ExtraLegacyProofs.
Import Engine MatcherFacts ExtraMatcherProofs ExtraBuildProofs.
Local Open Scope string_scope.
Local Open Scope list_scope.

(** The legacy Fingerprint method, which runs the matchers but not the
    implies engine, reports only applications owning a pattern of the
    matcher built from the database; an application of the database
    reachable only through implies is never reported. *)
Theorem Fingerprint_pattern_apps {Regexp : Type} (tl : string → string) (rc : string → option Regexp) (rs : Regexp → string)
    mwt ev psc jpm df hp (apps : gmap string Fingerprint) headers body k :
  is_Some ((Legacy.Fingerprint tl Regexp rs mwt ev psc jpm df hp (BuildEfficientMatcher tl Regexp rc apps)
              headers body).1 !! k) →
  k ∈ map AppName (all_patterns (BuildEfficientMatcher tl Regexp rc apps)) ∧ is_Some (apps !! k).
Proof.
  intros Hk. unfold Legacy.Fingerprint in Hk. cbv zeta in Hk. cbn [fst] in Hk.
  assert (Hin : k ∈ map AppName (all_patterns (BuildEfficientMatcher tl Regexp rc apps))).
  { destruct (decide (k ∈ map AppName (all_patterns (BuildEfficientMatcher tl Regexp rc apps)))) as [H|H];
      [exact H|].
    rewrite runAllMatchers_frame in Hk; [|exact H]. rewrite lookup_empty in Hk. by destruct Hk. }
  split; [exact Hin|].
  apply list_elem_of_fmap in Hin as (pi & -> & Hpi). by apply all_patterns_apps in Hpi.
Qed.

Import Examples.

Lemma Fingerprint_pattern_apps_witness :
  let apps : gmap string Fingerprint := {[ "A" := ex_header_fp "k" ]} in
  let rc := fun s => Some (String.substring 4 (String.length s - 4) s) in
  is_Some ((Legacy.Fingerprint Str.to_lower string (fun r => r) ex_match ex_version ex_parse_set_cookie
              ex_js_matches ex_dom_find ex_html_parse (BuildEfficientMatcher Str.to_lower string rc apps)
              ex_headers "x").1 !! "A") ∧
  "A" ∈ map AppName (all_patterns (BuildEfficientMatcher Str.to_lower string rc apps)) ∧ is_Some (apps !! "A").
Proof.
  intros apps rc.
  assert (H : is_Some ((Legacy.Fingerprint Str.to_lower string (fun r => r) ex_match ex_version ex_parse_set_cookie
              ex_js_matches ex_dom_find ex_html_parse (BuildEfficientMatcher Str.to_lower string rc apps)
              ex_headers "x").1 !! "A")) by (vm_compute; by eexists).
  split; [exact H|]. exact (Fingerprint_pattern_apps Str.to_lower rc _ _ _ _ _ _ _ apps _ _ _ H).
Defined.

End ExtraLegacyProofs.

Module ExtraParsePatternProofs.
Import Version Profiler ExtraProfilerProofs ExtraNormalizerProofs.
Local Open Scope string_scope.
Local Open Scope list_scope.

Section Options.
Context {R : Type}.

Lemma parse_option_fold (cmds : list (string * string)) (p : ParsedPattern R) :
  Forall (λ kv, contains_char ":" kv.1 = false) cmds →
  let q := fold_left (parse_option R) (map (λ kv, kv.1 +:+ String ":" kv.2) cmds) p in
  regex R q = regex R p ∧ SkipRegex R q = SkipRegex R p ∧
  PConfidence R q = default (PConfidence R p)
    (last (omap (λ kv, if String.eqb kv.1 "confidence" then Some (default 100%Z (Atoi kv.2)) else None) cmds)) ∧
  PVersion R q = default (PVersion R p)
    (last (omap (λ kv, if String.eqb kv.1 "version" then Some kv.2 else None) cmds)).
Proof.
  induction cmds as [|[k v] cmds IH] using rev_ind; intros Hc; cbn zeta; [done|].
  apply Forall_app in Hc as [Hc Hk]. apply Forall_cons in Hk as [Hk _].
  destruct (IH Hc) as (H1 & H2 & H3 & H4).
  rewrite map_app, fold_left_app, !omap_app, !last_app. cbn [map fold_left].
  set (q := fold_left (parse_option R) (map (λ kv, kv.1 +:+ String ":" kv.2) cmds) p) in *.
  clearbody q. unfold parse_option. cbn [fst snd] in Hk |- *. rewrite split_first_colon_app; [|exact Hk].
  cbn [omap list_omap fst snd].
  destruct (String.eqb_spec k "confidence") as [->|Hc1].
  - cbn. done.
  - destruct (String.eqb_spec k "version") as [->|Hv].
    + cbn. done.
    + cbn. done.
Qed.

(** ParsePattern on a regex joined with [key:value] options by [\;]:
    the regex is rewritten and compiled once, the last [confidence]
    option sets the confidence (100 when its value is not an integer, and
    when there is none), and the last [version] option sets the version
    template ("" when there is none); other keys are ignored. *)
Theorem ParsePattern_options (rc : string → option R) (r : string) (cmds : list (string * string)) re :
  Normalizer.contains_sep r = false → r ≠ "" →
  Forall (λ kv, contains_char ":" kv.1 = false ∧
                Normalizer.contains_sep (kv.1 +:+ String ":" kv.2) = false) cmds →
  rc ("(?i)" +:+ rewrite_regex r) = Some re →
  ∃ p, ParsePattern R rc (Str.join "\;" (r :: map (λ kv, kv.1 +:+ String ":" kv.2) cmds)) = Some p ∧
    regex R p = Some re ∧ SkipRegex R p = false ∧
    PConfidence R p = default 100%Z
      (last (omap (λ kv, if String.eqb kv.1 "confidence" then Some (default 100%Z (Atoi kv.2)) else None) cmds)) ∧
    PVersion R p = default ""
      (last (omap (λ kv, if String.eqb kv.1 "version" then Some kv.2 else None) cmds)).
Proof.
  intros Hr Hne Hc Hre. unfold ParsePattern, Normalizer.Split.
  rewrite split_join; [|done| |lia].
  - cbn [head tail default]. unfold id.
    destruct (String.eqb r "") eqn:E; [apply String.eqb_eq in E; contradiction|].
    cbn [SkipRegex]. rewrite Hre.
    eexists. split; [reflexivity|].
    destruct (parse_option_fold cmds {| regex := Some re; PConfidence := 100%Z; PVersion := ""; SkipRegex := false |})
      as (H1 & H2 & H3 & H4).
    { eapply Forall_impl; [exact Hc|]. intros kv [H _]. exact H. }
    done.
  - constructor; [done|]. apply Forall_map. eapply Forall_impl; [exact Hc|]. intros kv [_ H]. exact H.
Qed.
End Options.

Lemma ParsePattern_options_witness :
  ∃ p, ParsePattern string (fun s => Some s) "jquery\;confidence:50\;version:\1\;confidence:abc" = Some p ∧
    regex string p = Some "(?i)jquery" ∧ SkipRegex string p = false ∧
    PConfidence string p = 100%Z ∧ PVersion string p = "\1".
Proof.
  exact (ParsePattern_options (fun s => Some s) "jquery"
           [("confidence", "50"); ("version", "\1"); ("confidence", "abc")] "(?i)jquery"
           eq_refl ltac:(discriminate) ltac:(repeat constructor) eq_refl).
Defined.

End ExtraParsePatternProofs.

Module ExtraNormalizeMapProofs.
Import Normalizer.
Local Open Scope string_scope.
Local Open Scope list_scope.

Section Maps.
Context (clean : string → string) (compiles : string → bool).

(** The keyed normalizers keep an entry for exactly those keys of the
    input object whose value survives normalization: normalizePatternMap
    with the normalized pattern, normalizeMetaMap with the non-empty list
    of normalized patterns (a key whose list comes out empty is dropped).
    A value that is not an object yields no entries. *)
Theorem normalize_keyed_entries (m : JValue) (k : string) (p : ParsedPattern) (l : list ParsedPattern) :
  ((k, p) ∈ normalizePatternMap clean compiles m ↔
     ∃ mm v, m = JObject mm ∧ (k, v) ∈ mm ∧ normalizePatternValue clean compiles v = Some p) ∧
  ((k, l) ∈ normalizeMetaMap clean compiles m ↔
     ∃ mm v, m = JObject mm ∧ (k, v) ∈ mm ∧ l = normalizeMetaValue clean compiles v ∧ l ≠ []).
Proof.
  destruct m as [s|mm|items| |];
    try (split; split; [intros H; by apply elem_of_nil in H|intros (? & ? & ? & _); discriminate
                       |intros H; by apply elem_of_nil in H|intros (? & ? & ? & _); discriminate]).
  cbn [normalizePatternMap normalizeMetaMap]. rewrite !list_elem_of_omap. split; split.
  - intros ([k' v] & Hin & Hf). cbn in Hf.
    destruct (normalizePatternValue clean compiles v) as [p'|] eqn:E; [|discriminate].
    cbn in Hf. injection Hf as <- <-. exists mm, v. done.
  - intros (mm' & v & [= <-] & Hin & Hv). exists (k, v). split; [done|]. cbn. by rewrite Hv.
  - intros ([k' v] & Hin & Hf). cbn in Hf.
    destruct (normalizeMetaValue clean compiles v) as [|x xs] eqn:E; [discriminate|].
    injection Hf as <- <-. exists mm, v. done.
  - intros (mm' & v & [= <-] & Hin & -> & Hne). exists (k, v). split; [done|]. cbn.
    destruct (normalizeMetaValue clean compiles v); done.
Qed.
End Maps.
End ExtraNormalizeMapProofs.

Module ExtraCookieProofs.
Import Engine.
Local Open Scope string_scope.
Local Open Scope list_scope.

(** The cookie map matchCookies ranges over: under a name it holds the
    value of the last Set-Cookie header that parses, has a non-empty
    name, and whose name trimmed and passed through strings.ToLower
    ([tl]) is that name; headers
    that fail to parse or have an empty name are skipped. *)
Theorem parsed_cookies_lookup (tl : string → string) (psc : string → option (string * string)) (h : Header) (key : string) :
  parsed_cookies tl psc h !! key =
  last (omap (λ raw, match psc raw with
                     | Some (name, value) =>
                         if String.eqb name "" then None
                         else if String.eqb (tl (Str.trim_space name)) key then Some value
                         else None
                     | None => None
                     end) (header_values "Set-Cookie" h)).
Proof.
  unfold parsed_cookies. generalize (header_values "Set-Cookie" h) as l.
  induction l as [|raw l IH] using rev_ind; [cbn; apply lookup_empty|].
  rewrite fold_left_app, omap_app, last_app. cbn [fold_left].
  assert (Ho : ∀ (f : string → option string) x, omap f [x] = match f x with Some y => [y] | None => [] end)
    by reflexivity.
  rewrite Ho. destruct (psc raw) as [[name value]|]; [|exact IH].
  destruct (String.eqb name ""); [exact IH|].
  destruct (String.eqb_spec (tl (Str.trim_space name)) key) as [<-|Hne].
  - by rewrite lookup_insert_eq.
  - rewrite lookup_insert_ne; [exact IH|done].
Qed.

End ExtraCookieProofs.
